(** * apollo-link-watched-mutation: a shallow embedding and its properties

    The development follows the three source modules:
    - [queries-to-update-manager.js]  (the query-key tracker),
    - the cache manager               ([createCacheManager]),
    - the link itself                 ([WatchedMutationLink]).

    JavaScript values are a small inductive type; exceptions are an explicit
    outcome; the mutable objects of the link (the cache, the tracker, the
    in-flight snapshot store, the console) are the fields of one state record
    that every operation threads. *)

From stdpp Require Import base option list strings gmap pretty.
From Stdlib Require Import ZArith Ascii String.

Local Open Scope string_scope.
Local Open Scope Z_scope.
Local Open Scope list_scope.

(** ** JavaScript values *)

Set Warnings "-register-all".

Inductive value : Type :=
| VUndefined
| VNull
| VBool (b : bool)
| VNum (z : Z)
| VStr (s : string)
| VArr (elems : list value)
| VObj (props : list (string * value)).

(** [if (v)] / [!v] : the falsy values are undefined, null, false, 0 and the
    empty string (NaN is not represented: numbers are integers here). *)
Definition truthy (v : value) : bool :=
  match v with
  | VUndefined | VNull => false
  | VBool b => b
  | VNum z => negb (z =? 0)
  | VStr s => negb (String.eqb s "")
  | VArr _ | VObj _ => true
  end.

(** [v !== null && v !== undefined] *)
Definition notNullish (v : value) : bool :=
  match v with
  | VUndefined | VNull => false
  | _ => true
  end.

(** Property access [o.p] on a value that is known to be an object;
    a missing property reads as undefined. *)
Fixpoint getProp (p : string) (props : list (string * value)) : value :=
  match props with
  | [] => VUndefined
  | (q, v) :: rest => if String.eqb q p then v else getProp p rest
  end.

(** *** Structural equality on values is decidable *)

Fixpoint value_eq_dec (a b : value) {struct a} : {a = b} + {a <> b}.
Proof.
  decide equality.
  - apply Bool.bool_dec.
  - apply Z.eq_dec.
  - apply String.string_dec.
  - apply (List.list_eq_dec value_eq_dec).
  - apply List.list_eq_dec. intros [k x] [l y].
    destruct (String.string_dec k l) as [->|Hn].
    + destruct (value_eq_dec x y) as [->|Hn]; [left; reflexivity | right; congruence].
    + right; congruence.
Defined.

#[global] Instance value_eqdec : EqDecision value := value_eq_dec.

(** ** [JSON.stringify]

    The tracker compares cache keys through their serialisation.  The
    serialiser follows the builtin on the values above: an undefined value
    has no serialisation, is dropped from an object and printed as [null]
    inside an array. *)

Definition dquote : string := String "034"%char EmptyString.
Definition backslash : string := String "092"%char EmptyString.

Definition hexDigit (n : nat) : ascii :=
  match n with
  | 0 => "0" | 1 => "1" | 2 => "2" | 3 => "3" | 4 => "4" | 5 => "5" | 6 => "6"
  | 7 => "7" | 8 => "8" | 9 => "9" | 10 => "a" | 11 => "b" | 12 => "c"
  | 13 => "d" | 14 => "e" | _ => "f"
  end%nat%char.

Definition escapeChar (c : ascii) : string :=
  let n := nat_of_ascii c in
  if (n =? 34)%nat then backslash +:+ dquote
  else if (n =? 92)%nat then backslash +:+ backslash
  else if (n =? 8)%nat then backslash +:+ "b"
  else if (n =? 12)%nat then backslash +:+ "f"
  else if (n =? 10)%nat then backslash +:+ "n"
  else if (n =? 13)%nat then backslash +:+ "r"
  else if (n =? 9)%nat then backslash +:+ "t"
  else if (n <? 32)%nat then
    backslash +:+ "u00" +:+ String (hexDigit (n / 16)) (String (hexDigit (n mod 16)) EmptyString)
  else String c EmptyString.

Fixpoint escapeString (s : string) : string :=
  match s with
  | EmptyString => EmptyString
  | String c rest => escapeChar c +:+ escapeString rest
  end.

Definition quoteString (s : string) : string := dquote +:+ escapeString s +:+ dquote.

Fixpoint stringifyValue (v : value) : option string :=
  match v with
  | VUndefined => None
  | VNull => Some "null"
  | VBool b => Some (if b then "true" else "false")
  | VNum z => Some (pretty z)
  | VStr s => Some (quoteString s)
  | VArr l =>
      Some ("[" +:+ String.concat "," (List.map (λ x, default "null" (stringifyValue x)) l) +:+ "]")
  | VObj ps =>
      Some ("{" +:+ String.concat ","
                     (List.flat_map
                        (λ kv, match stringifyValue (snd kv) with
                               | Some s => [quoteString (fst kv) +:+ ":" +:+ s]
                               | None => []
                               end) ps) +:+ "}")
  end.

(** ** Query documents

    Only what the link consumes of a parsed document is kept: its
    definitions, and for an operation its kind, its optional name and its
    top-level selections. *)

Inductive OperationTypeNode := OpQuery | OpMutation | OpSubscription.

Inductive SelectionNode :=
| Field (fieldName : string)
| FragmentSpread (spreadName : string)
| InlineFragment (typeCondition : string).

Inductive DefinitionNode :=
| OperationDefinition (operation : OperationTypeNode) (name : option string)
                      (selections : list SelectionNode)
| FragmentDefinition (fragmentName : string).

Record DocumentNode := { definitions : list DefinitionNode }.

#[global] Instance OperationTypeNode_eq_dec : EqDecision OperationTypeNode.
Proof. solve_decision. Defined.
#[global] Instance SelectionNode_eq_dec : EqDecision SelectionNode.
Proof. solve_decision. Defined.
#[global] Instance DefinitionNode_eq_dec : EqDecision DefinitionNode.
Proof. solve_decision. Defined.
#[global] Instance DocumentNode_eq_dec : EqDecision DocumentNode.
Proof. solve_decision. Defined.

(** [definition.operation]: undefined on a fragment definition. *)
Definition definitionOperation (d : DefinitionNode) : option OperationTypeNode :=
  match d with
  | OperationDefinition o _ _ => Some o
  | FragmentDefinition _ => None
  end.

(** [definition.name && definition.name.value] followed by [|| ''], as in
    [request] (line 148). *)
Definition definitionNameOrEmpty (d : DefinitionNode) : string :=
  match d with
  | OperationDefinition _ (Some n) _ => if String.eqb n "" then "" else n
  | OperationDefinition _ None _ => ""
  | FragmentDefinition n => if String.eqb n "" then "" else n
  end.

Definition isField (s : SelectionNode) : bool :=
  match s with Field _ => true | _ => false end.

Definition isOperationDefinition (d : DefinitionNode) : bool :=
  match d with OperationDefinition _ _ _ => true | _ => false end.

(** The documents as the plain objects [JSON.stringify] walks. *)
Definition operationTypeName (o : OperationTypeNode) : string :=
  match o with
  | OpQuery => "query" | OpMutation => "mutation" | OpSubscription => "subscription"
  end.

Definition nameNode (n : string) : value :=
  VObj [("kind", VStr "Name"); ("value", VStr n)].

Definition selectionToValue (s : SelectionNode) : value :=
  match s with
  | Field n => VObj [("kind", VStr "Field"); ("name", nameNode n)]
  | FragmentSpread n => VObj [("kind", VStr "FragmentSpread"); ("name", nameNode n)]
  | InlineFragment t =>
      VObj [("kind", VStr "InlineFragment");
            ("typeCondition", VObj [("kind", VStr "NamedType"); ("name", nameNode t)])]
  end.

Definition definitionToValue (d : DefinitionNode) : value :=
  match d with
  | OperationDefinition o n sels =>
      VObj [("kind", VStr "OperationDefinition");
            ("operation", VStr (operationTypeName o));
            ("name", from_option nameNode VUndefined n);
            ("selectionSet",
              VObj [("kind", VStr "SelectionSet");
                    ("selections", VArr (List.map selectionToValue sels))])]
  | FragmentDefinition n =>
      VObj [("kind", VStr "FragmentDefinition"); ("name", nameNode n)]
  end.

Definition documentToValue (d : DocumentNode) : value :=
  VObj [("kind", VStr "Document");
        ("definitions", VArr (List.map definitionToValue (definitions d)))].

(** ** Cache keys: [{ query, variables }] *)

Record CacheKey := { query : DocumentNode; variables : value }.

#[global] Instance CacheKey_eq_dec : EqDecision CacheKey.
Proof. solve_decision. Defined.

Definition cacheKeyToValue (k : CacheKey) : value :=
  VObj [("query", documentToValue (query k)); ("variables", variables k)].

(** [JSON.stringify(key)] for a cache key (always an object, so always a
    string). *)
Definition JSON_stringify (k : CacheKey) : string :=
  default "" (stringifyValue (cacheKeyToValue k)).

(** [JSON.stringify(a) === JSON.stringify(b)] *)
Definition sameSerialisation (a b : CacheKey) : bool :=
  String.eqb (JSON_stringify a) (JSON_stringify b).

(** ** Exceptions and outcomes *)

Inductive exn :=
| TypeError (message : string)
| ReferenceError (identifier : string)
| InvariantError (message : string)
| MissingUpdateFunction (mutationName queryName : string)
| StoreFailure (message : string)
| UpdateTransformFailure (thrown : value).

Inductive outcome (A : Type) :=
| Ok (a : A)
| Throw (e : exn).
Arguments Ok {A} a.
Arguments Throw {A} e.

(** ** Apollo's document utilities, at the interface the link uses *)

(** [checkDocument]: at most one operation definition. *)
Definition checkDocument (d : DocumentNode) : outcome unit :=
  if (List.length (List.filter isOperationDefinition (definitions d)) <=? 1)%nat
  then Ok tt
  else Throw (InvariantError "Ambiguous GraphQL document: contains more than one operation").

Fixpoint firstFragment (ds : list DefinitionNode) : option DefinitionNode :=
  match ds with
  | [] => None
  | FragmentDefinition n :: _ => Some (FragmentDefinition n)
  | _ :: rest => firstFragment rest
  end.

Fixpoint firstOperation (ds : list DefinitionNode) : option DefinitionNode :=
  match ds with
  | [] => None
  | OperationDefinition o n s :: _ => Some (OperationDefinition o n s)
  | _ :: rest => firstOperation rest
  end.

(** [getMainDefinition]: the operation definition if there is one, else
    the first fragment definition, else an invariant violation. *)
Definition getMainDefinition (d : DocumentNode) : outcome DefinitionNode :=
  match checkDocument d with
  | Throw e => Throw e
  | Ok _ =>
      match firstOperation (definitions d) with
      | Some def => Ok def
      | None =>
          match firstFragment (definitions d) with
          | Some def => Ok def
          | None => Throw (InvariantError "Expected a parsed GraphQL query with a query, mutation, subscription, or a fragment.")
          end
      end
  end.

(** [getQueryDefinition]: the operation definition, which must be a query. *)
Definition getQueryDefinition (d : DocumentNode) : outcome (list SelectionNode) :=
  match checkDocument d with
  | Throw e => Throw e
  | Ok _ =>
      match firstOperation (definitions d) with
      | Some (OperationDefinition OpQuery _ sels) => Ok sels
      | _ => Throw (InvariantError "Must contain a query definition.")
      end
  end.

(** ** The cache store the link is given

    The store is an external collaborator (Apollo's cache): the link only
    calls [readQuery], [writeQuery], [evict], [gc], [performTransaction]
    (when present) and [policies].  It is an interface here; any of its
    operations may throw. *)

Class CacheStore (S : Type) := {
  cache_readQuery : CacheKey → S → outcome value;
  cache_writeQuery : CacheKey → value → S → outcome unit * S;
  cache_evict : string → S → outcome bool * S;
  cache_gc : S → outcome unit * S;
  (** whether [cache.performTransaction] is defined *)
  cache_hasPerformTransaction : S → bool;
  (** [cache.policies.rootTypenamesById['ROOT_QUERY']] *)
  cache_rootQueryTypename : S → outcome string;
  (** [cache.policies.getStoreFieldName({ typename, fieldName, field, variables })] *)
  cache_getStoreFieldName : string → string → value → S → outcome string
}.

(** What a store must satisfy for a write to be readable back and not to
    disturb the other entries.  The round trips and the properties that
    read back a write assume it. *)
Class CacheStoreLaws (S : Type) `{CacheStore S} := {
  write_then_read : ∀ (k : CacheKey) (v : value) (s : S),
    ∃ s', cache_writeQuery k v s = (Ok tt, s')
          ∧ cache_readQuery k s' = Ok v
          ∧ ∀ k', k' ≠ k → cache_readQuery k' s' = cache_readQuery k' s
}.

(** ** Operations, results, update functions *)

(** Modelled from the spec: the per-call context of an operation, which is
    built outside the sources; it carries at least an [optimistic] flag and
    an [optimisticResponse] payload (section 6). *)
Record Context := { optimistic : bool; optimisticResponse : value }.

Record Operation := {
  operation_query : DocumentNode;
  operation_variables : value;
  operation_context : Context   (* operation.getContext() *)
}.

(** Modelled from the spec: the transport layer is not among the sources;
    it produces one result per operation, a success or a failure (spec,
    section 6).  [resultObject] is the object handed to the update
    functions and returned to the caller. *)
Record FetchResult := { isSuccess : bool; resultObject : value }.

(** The argument of an update function:
    [{ mutation: { name, variables, result }, query: { name, variables, result } }]. *)
Record UpdateArgs := {
  mutation_name : string;
  mutation_variables : value;
  mutation_result : value;
  query_name : string;
  query_variables : value;
  query_result : value
}.

(** A caller-supplied update function: it returns a value (null or
    undefined for no change) or throws. *)
Definition UpdateTransform := UpdateArgs → outcome value.

(** [mutationQueryResolverMap]: [{ [mutationName]: { [queryName]: fn } }],
    with the insertion order of the object literal. *)
Definition ResolverMap := list (string * list (string * UpdateTransform)).

Record Config := {
  debug : bool;
  readOnly : bool;
  mutationQueryResolverMap : ResolverMap
}.

(** ** The state of a link *)

(** Keys handed to the in-flight snapshot store: a cache key, or (line 164)
    an operation name. *)
Inductive SnapshotKey :=
| ForKey (k : CacheKey)
| ForName (n : string).

#[global] Instance SnapshotKey_eq_dec : EqDecision SnapshotKey.
Proof. solve_decision. Defined.

(** Ghost record of the calls the properties speak about: an update
    function being invoked for a key, and the cache manager's [write] being
    called.  No source behaviour depends on it. *)
Inductive Event :=
| UpdateFnCalled (mutationName queryName : string) (queryKey : CacheKey)
| WriteCalled (queryKey : CacheKey) (data : value).

Record State (S : Type) := {
  cache : S;                                        (* the store *)
  queriesToUpdate : gmap string (list CacheKey);    (* the tracker's object *)
  inflightRequests : list (SnapshotKey * value);    (* the snapshot store *)
  console : list string;                            (* window.console.log output *)
  events : list Event                               (* ghost *)
}.
Arguments cache {S} _.
Arguments queriesToUpdate {S} _.
Arguments inflightRequests {S} _.
Arguments console {S} _.
Arguments events {S} _.

Definition withCache {S} (c : S) (st : State S) : State S :=
  {| cache := c; queriesToUpdate := queriesToUpdate st;
     inflightRequests := inflightRequests st; console := console st; events := events st |}.
Definition withQueriesToUpdate {S} (q : gmap string (list CacheKey)) (st : State S) : State S :=
  {| cache := cache st; queriesToUpdate := q;
     inflightRequests := inflightRequests st; console := console st; events := events st |}.
Definition withInflightRequests {S} (i : list (SnapshotKey * value)) (st : State S) : State S :=
  {| cache := cache st; queriesToUpdate := queriesToUpdate st;
     inflightRequests := i; console := console st; events := events st |}.
Definition withConsole {S} (c : list string) (st : State S) : State S :=
  {| cache := cache st; queriesToUpdate := queriesToUpdate st;
     inflightRequests := inflightRequests st; console := c; events := events st |}.
Definition withEvents {S} (e : list Event) (st : State S) : State S :=
  {| cache := cache st; queriesToUpdate := queriesToUpdate st;
     inflightRequests := inflightRequests st; console := console st; events := e |}.

(** ** Computations: state passing with exceptions

    A thrown exception keeps the state reached so far (JavaScript does not
    roll mutations back). *)

Definition M (S A : Type) : Type := State S → outcome A * State S.

Definition ret {S A} (a : A) : M S A := λ st, (Ok a, st).

Definition bind {S A B} (m : M S A) (k : A → M S B) : M S B :=
  λ st, match m st with
        | (Ok a, st') => k a st'
        | (Throw e, st') => (Throw e, st')
        end.

Definition throw {S A} (e : exn) : M S A := λ st, (Throw e, st).

(** [try { m } catch (error) { handler(error) }] *)
Definition tryCatch {S A} (m : M S A) (handler : exn → M S A) : M S A :=
  λ st, match m st with
        | (Ok a, st') => (Ok a, st')
        | (Throw e, st') => handler e st'
        end.

Definition getState {S} : M S (State S) := λ st, (Ok st, st).
Definition modify {S} (f : State S → State S) : M S unit := λ st, (Ok tt, f st).
Definition liftOutcome {S A} (o : outcome A) : M S A := λ st, (o, st).

Notation "'do' x <- m ; k" := (bind m (λ x, k))
  (at level 10, x name, m at level 100, k at level 200).
Notation "'run' m ; k" := (bind m (λ _, k))
  (at level 10, m at level 100, k at level 200).

(** [l.forEach(f)] *)
Fixpoint forEach {S A} (f : A → M S unit) (l : list A) : M S unit :=
  match l with
  | [] => ret tt
  | x :: rest => run f x; forEach f rest
  end.

(** [l.reduce(f, init)] *)
Fixpoint reduce {S A B} (f : B → A → M S B) (l : list A) (init : B) : M S B :=
  match l with
  | [] => ret init
  | x :: rest => do acc <- f init x; reduce f rest acc
  end.

(** [l.map(f)] with an effectful [f] *)
Fixpoint mapM {S A B} (f : A → M S B) (l : list A) : M S (list B) :=
  match l with
  | [] => ret []
  | x :: rest => do y <- f x; do ys <- mapM f rest; ret (y :: ys)
  end.

(** [window.console.log(payload)]; the payload is abridged to its message. *)
Definition consoleLog {S} (message : string) : M S unit :=
  modify (λ st, withConsole (console st ++ [message]) st).

Definition logWhen {S} (flag : bool) (message : string) : M S unit :=
  if flag then consoleLog message else ret tt.

Definition recordEvent {S} (e : Event) : M S unit :=
  modify (λ st, withEvents (events st ++ [e]) st).

(** ** queries-to-update-manager.js

    The object [queriesToUpdate] is a plain object literal used as a map
    from query names to arrays of cache keys.  Its own properties are a
    finite map here; reading a property that is not its own goes on to
    [Object.prototype], as in JavaScript. *)

(** The members every plain object inherits from [Object.prototype], each
    with the value of its [length] property: the arity of the function, and
    none for [__proto__], whose value is the prototype object itself. *)
Definition objectPrototypeMembers : list (string * option nat) :=
  [("constructor", Some 1%nat); ("__defineGetter__", Some 2%nat);
   ("__defineSetter__", Some 2%nat); ("hasOwnProperty", Some 1%nat);
   ("__lookupGetter__", Some 1%nat); ("__lookupSetter__", Some 1%nat);
   ("isPrototypeOf", Some 1%nat); ("propertyIsEnumerable", Some 1%nat);
   ("toString", Some 0%nat); ("valueOf", Some 0%nat); ("__proto__", None);
   ("toLocaleString", Some 0%nat)].

Definition inheritedMember (name : string) : option (option nat) :=
  snd <$> List.find (λ member, String.eqb (fst member) name) objectPrototypeMembers.

Definition inheritedName (name : string) : bool :=
  match inheritedMember name with
  | Some _ => true
  | None => false
  end.

(** What a property of [queriesToUpdate] evaluates to: an array of cache
    keys, or a member of [Object.prototype] (known by its [length]). *)
Inductive TrackedValue :=
| KeyArray (keys : list CacheKey)
| PrototypeMember (length : option nat).

Section QueryKeyManager.
Context {S : Type}.
(** [createQueryKeyManager(debug)] *)
Variable debug : bool.

(** The array stored under [queryName] as an own property of the tracker's
    object, empty when there is none: the keys tracked under the name. *)
Definition trackedKeys (queryName : string)
    (tracked : gmap string (list CacheKey)) : list CacheKey :=
  match tracked !! queryName with
  | Some keys => keys
  | None => []
  end.

(** [queriesToUpdate[queryName]]: the own property, else the inherited
    member, else undefined ([None]). *)
Definition lookupProperty (queryName : string)
    (tracked : gmap string (list CacheKey)) : option TrackedValue :=
  match tracked !! queryName with
  | Some keys => Some (KeyArray keys)
  | None => PrototypeMember <$> inheritedMember queryName
  end.

(** [queriesToUpdate[queryName] || []] (line 6); arrays, functions and
    objects are all truthy. *)
Definition getQueryKeysToUpdate (queryName : string)
    (tracked : gmap string (list CacheKey)) : TrackedValue :=
  match lookupProperty queryName tracked with
  | Some found => found
  | None => KeyArray []
  end.

(** [value.length] *)
Definition valueLength (found : TrackedValue) : option nat :=
  match found with
  | KeyArray keys => Some (List.length keys)
  | PrototypeMember length => length
  end.

Definition readQueryKeysToUpdate (queryName : string) : M S TrackedValue :=
  λ st, (Ok (getQueryKeysToUpdate queryName (queriesToUpdate st)), st).

(** Using a value as an array ([.some], [.filter], the spread syntax): a
    member of [Object.prototype] has no such method and is not iterable, so
    the use throws a TypeError, with the message given. *)
Definition asArray (message : string) (found : TrackedValue) : M S (list CacheKey) :=
  match found with
  | KeyArray keys => ret keys
  | PrototypeMember _ => throw (TypeError message)
  end.

(** [queriesToUpdate[queryName] = keys].  (Under the name [__proto__] an
    assignment would not create an own property; no assignment under an
    inherited name is ever reached, since the reads before it throw.) *)
Definition assignQueryKeys (queryName : string) (keys : list CacheKey) : M S unit :=
  modify (λ st, withQueriesToUpdate (<[queryName := keys]> (queriesToUpdate st)) st).

(** Lines 9-22. *)
Definition addQuery (queryName : string) (queryKey : CacheKey) : M S unit :=
  do existingQueryKeys <- readQueryKeysToUpdate queryName;
  do existing <- asArray "existingQueryKeys.some is not a function" existingQueryKeys;
  if negb (existsb (λ key, sameSerialisation key queryKey) existing)
  then
    do current <- readQueryKeysToUpdate queryName;
    do currentKeys <- asArray "getQueryKeysToUpdate(...) is not iterable" current;
    run assignQueryKeys queryName (currentKeys ++ [queryKey]);
    logWhen debug "Tracking a new QueryName + QueryCacheKey combination"
  else ret tt.

(** Lines 23-36.  Line 25 reads [queriesToUpdate[queryName].length]
    without the fallback of line 6: on an untracked name the property is read
    on undefined, which throws. *)
Definition removeQuery (queryName : string) (queryKey : CacheKey) : M S unit :=
  do current <- readQueryKeysToUpdate queryName;
  do currentKeys <- asArray "getQueryKeysToUpdate(...).filter is not a function" current;
  let updatedQueryKeys :=
    List.filter (λ key, negb (sameSerialisation key queryKey)) currentKeys in
  do st <- getState;
  match lookupProperty queryName (queriesToUpdate st) with
  | None =>
      throw (TypeError "Cannot read properties of undefined (reading 'length')")
  | Some tracked =>
      if negb (match valueLength tracked with
               | Some length => (length =? List.length updatedQueryKeys)%nat
               | None => false
               end)
      then
        run assignQueryKeys queryName updatedQueryKeys;
        logWhen debug "Removed a tracked QueryName + QueryCacheKey combination"
      else ret tt
  end.

(** Line 37: [getQueryKeysToUpdate(queryName).length > 0]; the comparison
    of undefined with 0 is false. *)
Definition hasQueryToUpdate (queryName : string) : M S bool :=
  do found <- readQueryKeysToUpdate queryName;
  ret (match valueLength found with
       | Some length => (0 <? length)%nat
       | None => false
       end).
End QueryKeyManager.

(** ** The cache manager ([createCacheManager(cache, debug, readOnly)]) *)

Section CacheManager.
Context {S : Type} `{CacheStore S}.
Variables (debug readOnly : bool).

(** Calls into the store. *)
Definition storeCall {A} (f : S → outcome A * S) : M S A :=
  λ st, let (r, c) := f (cache st) in (r, withCache c st).
Definition storeRead {A} (f : S → outcome A) : M S A :=
  λ st, (f (cache st), st).

Definition createKey (operation : Operation) : CacheKey :=
  {| query := operation_query operation; variables := operation_variables operation |}.

(** Lines 9-15.  The store's own [performTransaction] runs its argument
    once, inside its batch; without it the function is run directly. *)
Definition performTransaction (writeFn : M S unit) : M S unit :=
  do st <- getState;
  if cache_hasPerformTransaction (cache st)
  then writeFn    (* cache.performTransaction(writeFn) *)
  else writeFn.   (* writeFn(cache) *)

(** Lines 16-28.  The result is undefined when the store throws. *)
Definition read (queryKey : CacheKey) : M S value :=
  tryCatch
    (storeRead (cache_readQuery queryKey))
    (λ error,
      run logWhen debug "Error --- Unable to read from cache";
      ret VUndefined).

(** Lines 29-59.  The call is noted in the ghost record first. *)
Definition write (queryKey : CacheKey) (data : value) : M S unit :=
  run recordEvent (WriteCalled queryKey data);
  if readOnly then
    logWhen debug "ReadOnly --- this link will NOT write to the cache but it would have attempted to"
  else
    tryCatch
      (run storeCall (cache_writeQuery queryKey data);
       logWhen debug "Success --- Updated the cache upon a mutation/subscription")
      (λ error, logWhen debug "Error --- Unable to write to the cache").

(** In both debug branches of [evict] (lines 88-95 and 98-105) the payload
    mentions [queryName], an identifier that is bound nowhere in the module:
    evaluating the payload throws a ReferenceError before anything is
    logged. *)
Definition evictDebugPayload {A} : M S A := throw (ReferenceError "queryName").

(** [evicted ||= cache.evict({ fieldName: cacheId })] (line 86): the
    right-hand side is evaluated only while [evicted] is false. *)
Definition evictStep (evicted : bool) (cacheId : string) : M S bool :=
  if evicted then ret evicted else storeCall (cache_evict cacheId).

(** The names of [selections.filter(isField)] (line 75). *)
Definition fieldNames (selections : list SelectionNode) : list string :=
  List.flat_map (λ s, match s with Field n => [n] | _ => [] end)
                (List.filter isField selections).

(** Lines 60-107.  The result is a boolean, or undefined ([None]) when
    something threw and debug is off. *)
Definition evict (queryKey : CacheKey) : M S (option bool) :=
  if readOnly then
    run logWhen debug "ReadOnly --- this link will NOT evict from the cache but it would have attempted to";
    ret (Some false)
  else
    tryCatch
      (do selections <- liftOutcome (getQueryDefinition (query queryKey));
       do queryTypename <- storeRead cache_rootQueryTypename;
       do cacheIds <-
         mapM (λ fieldName,
                storeRead (cache_getStoreFieldName queryTypename fieldName
                                                   (variables queryKey)))
              (fieldNames selections);
       do evicted <- reduce evictStep cacheIds false;
       run (if debug then evictDebugPayload else ret tt);
       ret (Some evicted))
      (λ error,
        if debug then evictDebugPayload else ret None).

(** Lines 108-119. *)
Definition gc : M S unit :=
  tryCatch
    (storeCall cache_gc)
    (λ error, logWhen debug "Error --- Unable to run garbage collection on cache").
End CacheManager.

(** ** The mutations manager ([createMutationsManager]) *)

Section MutationsManager.
Variable resolverMap : ResolverMap.

Fixpoint lookupName {A} (n : string) (l : list (string * A)) : option A :=
  match l with
  | [] => None
  | (m, a) :: rest => if String.eqb m n then Some a else lookupName n rest
  end.

(** Modelled from the spec: ./mutations-to-update-manager is not among the
    sources.  Section 4.2: [isWatched(mutationName) -> boolean]. *)
Definition isWatched (mutationName : string) : bool :=
  match lookupName mutationName resolverMap with
  | Some _ => true
  | None => false
  end.

(** Modelled from the spec: [getRegisteredQueryNames] of the same missing
    module; the ordered list of the query names registered for a mutation,
    empty if the mutation is not watched. *)
Definition getRegisteredQueryNames (mutationName : string) : list string :=
  match lookupName mutationName resolverMap with
  | Some queries => List.map fst queries
  | None => []
  end.

(** Modelled from the spec: [getUpdateFn] of the same missing module; the
    update function of a registered pair, failing with MissingUpdateFunction
    otherwise. *)
Definition getUpdateFn (mutationName queryName : string) : outcome UpdateTransform :=
  match lookupName mutationName resolverMap with
  | Some queries =>
      match lookupName queryName queries with
      | Some fn => Ok fn
      | None => Throw (MissingUpdateFunction mutationName queryName)
      end
  | None => Throw (MissingUpdateFunction mutationName queryName)
  end.

(** Modelled from the spec: [getAllRegisteredQueryNames] of the same
    missing module; all the query names across all mutations. *)
Definition getAllRegisteredQueryNames : list string :=
  remove_dups (List.flat_map (λ entry, List.map fst (snd entry)) resolverMap).

(** Modelled from the spec: [getMutationNames] of the same missing module;
    the watched mutation names. *)
Definition getMutationNames : list string := List.map fst resolverMap.
End MutationsManager.

(** ** The in-flight request manager ([createInflightRequestManager]) *)

Section InflightRequestManager.
Context {S : Type}.

Fixpoint lookupSnapshot (key : SnapshotKey) (l : list (SnapshotKey * value)) : value :=
  match l with
  | [] => VUndefined
  | (k, v) :: rest => if decide (k = key) then v else lookupSnapshot key rest
  end.

(** Modelled from the spec: ./inflight-request-manager is not among the
    sources.  Section 4.4: [set(key, priorDataOrAbsentMarker)] records or
    overwrites the snapshot for [key]. *)
Definition inflight_set (key : SnapshotKey) (state : value) : M S unit :=
  modify (λ st, withInflightRequests ((key, state) :: inflightRequests st) st).

(** Modelled from the spec: [getBeforeState] of the same missing module;
    [getBeforeState(key) -> data | absent], a key never set reading as
    undefined. *)
Definition getBeforeState (key : SnapshotKey) : M S value :=
  λ st, (Ok (lookupSnapshot key (inflightRequests st)), st).
End InflightRequestManager.

(** ** utils *)

Definition isOperationType (expected : OperationTypeNode)
    (operation : option OperationTypeNode) : bool :=
  match operation with
  | Some o => bool_decide (o = expected)
  | None => false
  end.

(** Modelled from the spec: ./utils is not among the sources.  Section 4.5:
    [kind == query AND succeeded]. *)
Definition isSuccessfulQuery (operation : option OperationTypeNode) (result : FetchResult) : bool :=
  isOperationType OpQuery operation && isSuccess result.

(** Modelled from the spec: [isSuccessfulMutation] of the missing ./utils;
    [kind == mutation AND succeeded]. *)
Definition isSuccessfulMutation (operation : option OperationTypeNode) (result : FetchResult) : bool :=
  isOperationType OpMutation operation && isSuccess result.

(** Modelled from the spec: [isFailedMutation] of the missing ./utils;
    [kind == mutation AND failed]. *)
Definition isFailedMutation (operation : option OperationTypeNode) (result : FetchResult) : bool :=
  isOperationType OpMutation operation && negb (isSuccess result).

(** Modelled from the spec: [isOptimistic] of the missing ./utils; the
    context carries an [optimistic] flag (section 6). *)
Definition isOptimistic (context : Context) : bool := optimistic context.

(** Modelled from the spec: [getQueryName] of the missing ./utils; only the
    operation name is consumed of a document (section 1): the name of its
    main definition, or the empty string, as [request] computes it. *)
Definition getQueryName (document : DocumentNode) : outcome string :=
  match getMainDefinition document with
  | Ok definition => Ok (definitionNameOrEmpty definition)
  | Throw e => Throw e
  end.

(** ** The link ([WatchedMutationLink]) *)

Section WatchedMutationLink.
Context {S : Type} `{CacheStore S}.
Variable cfg : Config.

(** [this.queryManager = createQueryKeyManager()]: its debug argument is
    undefined. *)
Definition queryManagerDebug : bool := false.

Definition debugLog (message : string) : M S unit :=
  logWhen (debug cfg) message.

Definition isQueryRelated (operationName : string) : bool :=
  let registeredQueryNames := getAllRegisteredQueryNames (mutationQueryResolverMap cfg) in
  existsb (λ queryName, String.eqb queryName operationName || false) registeredQueryNames.

Definition addRelatedQuery (queryName : string) (operation : Operation) : M S unit :=
  addQuery queryManagerDebug queryName (createKey operation).

Definition removeRelatedQuery (queryName : string) (queryKey : CacheKey) : M S unit :=
  removeQuery queryManagerDebug queryName queryKey.

(** Lines 51-62.  The spread of [relevantQueryCacheKeys] throws when the
    tracker returned a member of [Object.prototype]. *)
Definition getCachedQueryKeysToUpdate (mutationName : string) : M S (list CacheKey) :=
  let relevantQueryNames :=
    getRegisteredQueryNames (mutationQueryResolverMap cfg) mutationName in
  reduce (λ queryCacheKeyList queryName,
            do relevantQueryCacheKeys <- readQueryKeysToUpdate queryName;
            do spreadKeys <- asArray "relevantQueryCacheKeys is not iterable"
                                     relevantQueryCacheKeys;
            ret (queryCacheKeyList ++ spreadKeys))
         relevantQueryNames [].

(** The result is [Some (queryKey, updatedData)] or undefined ([None]). *)
Definition getUpdateAfterMutation (mutationOperation : Operation) (mutationData : value)
    (queryKey : CacheKey) : M S (option (CacheKey * value)) :=
  do queryName <- liftOutcome (getQueryName (query queryKey));
  do cachedQueryData <- read (debug cfg) queryKey;
  if negb (truthy cachedQueryData) then
    run removeRelatedQuery queryName queryKey;
    ret None
  else
    do mutationName <- liftOutcome (getQueryName (operation_query mutationOperation));
    do updateQueryCb <-
      liftOutcome (getUpdateFn (mutationQueryResolverMap cfg) mutationName queryName);
    run recordEvent (UpdateFnCalled mutationName queryName queryKey);
    do updatedData <-
      liftOutcome (updateQueryCb
        {| mutation_name := mutationName;
           mutation_variables := operation_variables mutationOperation;
           mutation_result := mutationData;
           query_name := queryName;
           query_variables := variables queryKey;
           query_result := cachedQueryData |});
    if notNullish updatedData then ret (Some (queryKey, updatedData)) else ret None.

Definition collectItem (operation : Operation) (operationName : string) (result : value)
    (items : list (CacheKey * value)) (queryKey : CacheKey) : M S (list (CacheKey * value)) :=
  run debugLog "Found a cached query related to this successful mutation, this Link will invoke the associated callback";
  do resultToWrite <- getUpdateAfterMutation operation result queryKey;
  match resultToWrite with
  | Some item => ret (items ++ [item])
  | None =>
      run debugLog "We did NOT receive anything new to write to the cache so we will not do anything";
      ret items
  end.

Definition updateQueriesAfterMutation (operation : Operation) (operationName : string)
    (result : value) : M S unit :=
  do cachedQueryToUpdateKeys <- getCachedQueryKeysToUpdate operationName;
  do itemsToWrite <-
    reduce (collectItem operation operationName result) cachedQueryToUpdateKeys [];
  performTransaction
    (forEach (λ data, write (debug cfg) (readOnly cfg) (fst data) (snd data)) itemsToWrite).

(** The body of the loop of [addOptimisticRequest]. *)
Definition snapshotOne (queryKey : CacheKey) : M S unit :=
  do currentCachedState <- read (debug cfg) queryKey;
  run inflight_set (ForKey queryKey) currentCachedState;
  debugLog "Added a cached optimistic query in case we need to revert it after an optimistic error".

Definition addOptimisticRequest (operationName : string) : M S unit :=
  do cachedQueryToUpdateKeys <- getCachedQueryKeysToUpdate operationName;
  forEach snapshotOne cachedQueryToUpdateKeys.

Definition clearOptimisticRequest (queryKey : SnapshotKey) : M S unit :=
  run inflight_set queryKey VNull;
  debugLog "Cleared a cached optimistic query".

(** The body of the loop of [revertOptimisticRequest]. *)
Definition revertOne (queryKey : CacheKey) : M S unit :=
  do previousCachedState <- getBeforeState (ForKey queryKey);
  run (if truthy previousCachedState then
         run write (debug cfg) (readOnly cfg) queryKey previousCachedState;
         debugLog "Reverted an optimistic request after an error"
       else ret tt);
  clearOptimisticRequest (ForKey queryKey).

Definition revertOptimisticRequest (operationName : string) : M S unit :=
  do cachedQueryToUpdateKeys <- getCachedQueryKeysToUpdate operationName;
  forEach revertOne cachedQueryToUpdateKeys.

(** [request], before the result of [forward(operation)] arrives
    (lines 146-154). *)
Definition requestStart (operation : Operation) : M S DefinitionNode :=
  do definition <- liftOutcome (getMainDefinition (operation_query operation));
  let operationName := definitionNameOrEmpty definition in
  let context := operation_context operation in
  run (if isOptimistic context && isWatched (mutationQueryResolverMap cfg) operationName
       then
         run addOptimisticRequest operationName;
         updateQueriesAfterMutation operation operationName
           (VObj [("data", optimisticResponse context)])
       else ret tt);
  ret definition.

(** The function mapped over the observable (lines 156-177). *)
Definition requestResult (operation : Operation) (definition : DefinitionNode)
    (result : FetchResult) : M S FetchResult :=
  let operationName := definitionNameOrEmpty definition in
  let context := operation_context operation in
  run (if isSuccessfulQuery (definitionOperation definition) result
          && isQueryRelated operationName
       then
         run debugLog "Found a successful query related to a watched mutation";
         addRelatedQuery operationName operation
       else if isSuccessfulMutation (definitionOperation definition) result
               && isWatched (mutationQueryResolverMap cfg) operationName
       then
         if isOptimistic context
         then clearOptimisticRequest (ForName operationName)
         else updateQueriesAfterMutation operation operationName (resultObject result)
       else if isFailedMutation (definitionOperation definition) result
               && isWatched (mutationQueryResolverMap cfg) operationName
               && isOptimistic context
       then revertOptimisticRequest operationName
       else ret tt);
  ret result.

(** An operation whose transport delivers the single result [result]. *)
Definition request (operation : Operation) (result : FetchResult) : M S FetchResult :=
  do definition <- requestStart operation;
  requestResult operation definition result.
End WatchedMutationLink.

(** ** The keys a mutation affects

    Whether the tracker returns an array for a name (it does unless the
    name is inherited from [Object.prototype] and not tracked), and the keys
    tracked under the query names registered for a mutation, in the order
    of the names: what [getCachedQueryKeysToUpdate] returns when it
    returns. *)
Definition tracksArray (queryName : string) (tracked : gmap string (list CacheKey)) : bool :=
  match getQueryKeysToUpdate queryName tracked with
  | KeyArray _ => true
  | PrototypeMember _ => false
  end.

Definition affectedKeys (cfg : Config) (mutationName : string)
    (tracked : gmap string (list CacheKey)) : list CacheKey :=
  let relevantQueryNames :=
    getRegisteredQueryNames (mutationQueryResolverMap cfg) mutationName in
  foldl (λ queryCacheKeyList queryName,
           queryCacheKeyList ++ trackedKeys queryName tracked)
        [] relevantQueryNames.

(** Every query name registered for the mutation gives an array. *)
Definition registeredTrackArrays (cfg : Config) (mutationName : string)
    (tracked : gmap string (list CacheKey)) : bool :=
  forallb (λ queryName, tracksArray queryName tracked)
          (getRegisteredQueryNames (mutationQueryResolverMap cfg) mutationName).

(** ** A simple store: query results by cache key, root fields by name

    The least store that meets the interface, used to run the link on
    concrete inputs. *)

Record SimpleStore := {
  entries : list (CacheKey * value);
  rootFields : list string;
  transactional : bool
}.

Fixpoint lookupEntry (key : CacheKey) (l : list (CacheKey * value)) : option value :=
  match l with
  | [] => None
  | (k, v) :: rest => if decide (k = key) then Some v else lookupEntry key rest
  end.

Definition simple_readQuery (key : CacheKey) (s : SimpleStore) : outcome value :=
  match lookupEntry key (entries s) with
  | Some v => Ok v
  | None => Throw (StoreFailure "no such query in the cache")
  end.

Definition simple_writeQuery (key : CacheKey) (data : value) (s : SimpleStore)
  : outcome unit * SimpleStore :=
  (Ok tt, {| entries := (key, data) :: entries s;
             rootFields := rootFields s; transactional := transactional s |}).

Definition simple_evict (fieldName : string) (s : SimpleStore) : outcome bool * SimpleStore :=
  if existsb (String.eqb fieldName) (rootFields s)
  then (Ok true,
        {| entries := entries s;
           rootFields := List.filter (λ f, negb (String.eqb fieldName f)) (rootFields s);
           transactional := transactional s |})
  else (Ok false, s).

#[global] Instance SimpleStore_CacheStore : CacheStore SimpleStore := {
  cache_readQuery := simple_readQuery;
  cache_writeQuery := simple_writeQuery;
  cache_evict := simple_evict;
  cache_gc := λ s, (Ok tt, s);
  cache_hasPerformTransaction := transactional;
  cache_rootQueryTypename := λ _, Ok "Query";
  cache_getStoreFieldName := λ _ fieldName _ _, Ok fieldName
}.

Definition initialState {S} (store : S) : State S :=
  {| cache := store; queriesToUpdate := ∅; inflightRequests := [];
     console := []; events := [] |}.

(** ** The AddItem / ListItems scenario *)

Definition listItemsDocument : DocumentNode :=
  {| definitions := [OperationDefinition OpQuery (Some "ListItems") [Field "items"]] |}.

Definition addItemDocument : DocumentNode :=
  {| definitions := [OperationDefinition OpMutation (Some "AddItem") [Field "addItem"]] |}.

Definition noContext : Context := {| optimistic := false; optimisticResponse := VUndefined |}.

Definition listItemsOperation : Operation :=
  {| operation_query := listItemsDocument; operation_variables := VObj [];
     operation_context := noContext |}.

Definition listItemsKey : CacheKey := createKey listItemsOperation.

(** The update function of the scenario: append [mutation.result.data.addItem]
    to [query.result.items]. *)
Definition appendItem : UpdateTransform :=
  λ args,
    match query_result args, mutation_result args with
    | VObj cached, VObj result =>
        match getProp "items" cached, getProp "data" result with
        | VArr items, VObj data =>
            Ok (VObj [("items", VArr (items ++ [getProp "addItem" data]))])
        | _, _ => Throw (TypeError "items is not iterable")
        end
    | _, _ => Throw (TypeError "Cannot read properties of undefined")
    end.

Definition scenarioConfig : Config :=
  {| debug := false; readOnly := false;
     mutationQueryResolverMap := [("AddItem", [("ListItems", appendItem)])] |}.

Definition itemsOf (l : list value) : value := VObj [("items", VArr l)].

Definition seededStore (A : value) : SimpleStore :=
  {| entries := [(listItemsKey, itemsOf [A])]; rootFields := ["items"];
     transactional := true |}.

(** AddItem, run optimistically with the predicted item [B]. *)
Definition addItemOptimistic (B : value) : Operation :=
  {| operation_query := addItemDocument; operation_variables := VObj [];
     operation_context :=
       {| optimistic := true; optimisticResponse := VObj [("addItem", B)] |} |}.

Definition succeededWith (item : value) : FetchResult :=
  {| isSuccess := true; resultObject := VObj [("data", VObj [("addItem", item)])] |}.

Definition failedResult : FetchResult :=
  {| isSuccess := false; resultObject := VObj [("errors", VArr [VStr "rejected"])] |}.

(** The state after ListItems has succeeded once on the seeded cache. *)
Definition afterListItems (A : value) : State SimpleStore :=
  snd (request scenarioConfig listItemsOperation
         {| isSuccess := true; resultObject := VObj [("data", itemsOf [A])] |}
         (initialState (seededStore A))).

(** ... and after the optimistic phase of AddItem. *)
Definition afterOptimisticAddItem (A B : value) : State SimpleStore :=
  snd (requestStart scenarioConfig (addItemOptimistic B) (afterListItems A)).

(** ... and after AddItem has then resolved with [result]. *)
Definition afterAddItemResolved (A B : value) (result : FetchResult) : State SimpleStore :=
  snd (request scenarioConfig (addItemOptimistic B) result (afterListItems A)).

Definition itemA : value := VStr "A".
Definition itemB : value := VStr "B".
Definition itemB' : value := VStr "B'".

(** ** Inputs for the cache manager's [evict] *)

Definition twoFieldDocument : DocumentNode :=
  {| definitions := [OperationDefinition OpQuery (Some "Dashboard") [Field "items"; Field "total"]] |}.

Definition twoFieldKey : CacheKey := {| query := twoFieldDocument; variables := VObj [] |}.

Definition twoFieldStore : SimpleStore :=
  {| entries := []; rootFields := ["items"; "total"]; transactional := true |}.

(** ** Vocabulary of the properties *)

(** What the cache manager's [read] returns on a store: the stored data,
    or undefined when the store throws. *)
Definition readValue {S} `{CacheStore S} (queryKey : CacheKey) (store : S) : value :=
  match cache_readQuery queryKey store with
  | Ok v => v
  | Throw _ => VUndefined
  end.

(** The state after a conditional [console.log]. *)
Definition logged {S} (flag : bool) (message : string) (st : State S) : State S :=
  if flag then withConsole (console st ++ [message]) st else st.

(** The store after the writes of a list of items, in order. *)
Definition writeAll {S} `{CacheStore S} (items : list (CacheKey * value)) (store : S) : S :=
  foldl (λ c item, snd (cache_writeQuery (fst item) (snd item) c)) store items.

(** [key], tracked under [queryName], is dropped by the update pass over
    [processed] on the store [store]: some processed key named [queryName]
    reads as absent and has the serialisation of [key]. *)
Definition namedAs (queryName : string) (queryKey : CacheKey) : bool :=
  match getQueryName (query queryKey) with
  | Ok n => String.eqb n queryName
  | Throw _ => false
  end.

Definition droppedBy {S} `{CacheStore S} (store : S) (queryName : string)
    (processed : list CacheKey) (key : CacheKey) : bool :=
  existsb (λ k, negb (truthy (readValue k store)) && namedAs queryName k
                && sameSerialisation key k) processed.

(** The invariant of the tracker: a key is tracked under the name of its
    own query, and no two keys tracked under a name share a serialisation. *)
Definition trackerWellFormed (tracked : gmap string (list CacheKey)) : Prop :=
  ∀ queryName keys, tracked !! queryName = Some keys →
    (∀ k, k ∈ keys → getQueryName (query k) = Ok queryName)
    ∧ NoDup (List.map JSON_stringify keys).

(** The same configuration, read-only or not. *)
Definition withReadOnly (flag : bool) (cfg : Config) : Config :=
  {| debug := debug cfg; readOnly := flag;
     mutationQueryResolverMap := mutationQueryResolverMap cfg |}.

(** Two states that differ at most by what was logged. *)
Definition sameButConsole {S} (a b : State S) : Prop :=
  cache b = cache a ∧ queriesToUpdate b = queriesToUpdate a
  ∧ inflightRequests b = inflightRequests a ∧ events b = events a.

(** A tracker that still holds the key of ListItems while the store holds
    nothing for it (the entry was invalidated outside the link). *)
Definition emptyStore : SimpleStore :=
  {| entries := []; rootFields := []; transactional := true |}.

Definition staleState : State SimpleStore :=
  {| cache := emptyStore; queriesToUpdate := {["ListItems" := [listItemsKey]]};
     inflightRequests := []; console := []; events := [] |}.

Definition addItemOperation : Operation :=
  {| operation_query := addItemDocument; operation_variables := VObj [];
     operation_context := noContext |}.

(** The update functions registered for a mutation never throw. *)
Definition updateFnsTotal (cfg : Config) (mutationName : string) : Prop :=
  ∀ queryName fn, getUpdateFn (mutationQueryResolverMap cfg) mutationName queryName = Ok fn →
    ∀ args, ∃ v, fn args = Ok v.

(** The snapshot store after the snapshots of [keys] have been taken on
    the store [store]. *)
Definition snapshotsOf {S} `{CacheStore S} (store : S) (keys : list CacheKey)
    (base : list (SnapshotKey * value)) : list (SnapshotKey * value) :=
  foldl (λ acc k, (ForKey k, readValue k store) :: acc) base keys.

(** Two states with the same tracker, the same snapshots and the same
    record of calls. *)
Definition sameBookkeeping {S} (a b : State S) : Prop :=
  queriesToUpdate a = queriesToUpdate b
  ∧ inflightRequests a = inflightRequests b
  ∧ events a = events b.

(** Every key tracked in [t'] was tracked, under the same name, in [t]. *)
Definition trackedWithin (t' t : gmap string (list CacheKey)) : Prop :=
  ∀ q k, k ∈ trackedKeys q t' → k ∈ trackedKeys q t.

(** An operation without a name. *)
Definition anonymousOperation : Operation :=
  {| operation_query := {| definitions := [OperationDefinition OpQuery None [Field "items"]] |};
     operation_variables := VObj [];
     operation_context := noContext |}.

(** A configuration that registers the empty name as a query name. *)
Definition emptyNameConfig : Config :=
  {| debug := false; readOnly := false;
     mutationQueryResolverMap := [("AddItem", [("", appendItem)])] |}.

(** The key [k] has been reverted: its snapshot is cleared and the store
    reads for it what the store [before] read. *)
Definition restored {S} `{CacheStore S} (before : S) (st : State S) (k : CacheKey) : Prop :=
  lookupSnapshot (ForKey k) (inflightRequests st) = VNull
  ∧ cache_readQuery k (cache st) = cache_readQuery k before.

(** What holds of the state all along the loop of [revertOptimisticRequest],
    [before] being the store when the snapshots of [keys] were taken: an
    entry that was absent is still as it was, an affected key has either its
    snapshot or has been reverted, and a read-only link has kept the store. *)
Definition revertInvariant {S} `{CacheStore S} (cfg : Config) (before : S)
    (keys : list CacheKey) (st : State S) : Prop :=
  (∀ k, truthy (readValue k before) = false →
        cache_readQuery k (cache st) = cache_readQuery k before)
  ∧ (∀ k, k ∈ keys →
        lookupSnapshot (ForKey k) (inflightRequests st) = readValue k before
        ∨ restored before st k)
  ∧ (readOnly cfg = true → cache st = before).

(** ** Vocabulary of the further properties *)

(** No two keys tracked under a name share a serialisation. *)
Definition serialisationsDistinct (tracked : gmap string (list CacheKey)) : Prop :=
  ∀ queryName keys, tracked !! queryName = Some keys → NoDup (List.map JSON_stringify keys).

(** A second set of variables for ListItems. *)
Definition filteredListItemsKey : CacheKey :=
  {| query := listItemsDocument; variables := VObj [("filter", VStr "x")] |}.

(** A key whose document is a mutation, not a query. *)
Definition addItemKey : CacheKey := {| query := addItemDocument; variables := VObj [] |}.

(** What the update pass queues for one key on the store [store]: the key
    with the value of its update function, when the key's data is present
    and the function returns a value that is neither null nor undefined. *)
Definition plannedUpdate {S} `{CacheStore S} (cfg : Config) (mutationOperation : Operation)
    (mutationData : value) (store : S) (queryKey : CacheKey) : option (CacheKey * value) :=
  match getQueryName (query queryKey), getQueryName (operation_query mutationOperation) with
  | Ok queryName, Ok mutationName =>
      if truthy (readValue queryKey store) then
        match getUpdateFn (mutationQueryResolverMap cfg) mutationName queryName with
        | Ok updateQueryCb =>
            match updateQueryCb
                    {| mutation_name := mutationName;
                       mutation_variables := operation_variables mutationOperation;
                       mutation_result := mutationData;
                       query_name := queryName;
                       query_variables := variables queryKey;
                       query_result := readValue queryKey store |} with
            | Ok updatedData =>
                if notNullish updatedData then Some (queryKey, updatedData) else None
            | Throw _ => None
            end
        | Throw _ => None
        end
      else None
  | _, _ => None
  end.

(** A state in which the cached data of ListItems has no [items]: the
    scenario's update function throws on it. *)
Definition malformedState : State SimpleStore :=
  {| cache := {| entries := [(listItemsKey, VObj [])]; rootFields := []; transactional := true |};
     queriesToUpdate := {["ListItems" := [listItemsKey]]};
     inflightRequests := []; console := []; events := [] |}.

(** The state of a link right after its constructor (lines 24-38): an
    empty tracker, no snapshot, and the construction message when debug is
    on.  [assertPreconditions] rejects a missing cache or a malformed map,
    which the types exclude here. *)
Definition constructLink {S} (cfg : Config) (store : S) : State S :=
  snd (debugLog cfg "Success --- Constructed our link" (initialState store)).

(** What a link goes through: an operation enters [request], or the result
    of an operation arrives (in any order across operations). *)
Inductive LinkStep :=
| Requested (operation : Operation)
| Resulted (operation : Operation) (result : FetchResult).

Definition linkStep {S} `{CacheStore S} (cfg : Config) (step : LinkStep) (st : State S)
  : State S :=
  match step with
  | Requested operation => snd (requestStart cfg operation st)
  | Resulted operation result =>
      match getMainDefinition (operation_query operation) with
      | Ok definition => snd (requestResult cfg operation definition result st)
      | Throw _ => st
      end
  end.

Definition linkSteps {S} `{CacheStore S} (cfg : Config) (steps : list LinkStep)
    (st : State S) : State S :=
  foldl (λ st step, linkStep cfg step st) st steps.

(** The same configuration with another debug flag. *)
Definition withDebug (flag : bool) (cfg : Config) : Config :=
  {| debug := flag; readOnly := readOnly cfg;
     mutationQueryResolverMap := mutationQueryResolverMap cfg |}.

(** Two computations that, started in states differing at most by what was
    logged, end with the same outcome in states differing at most by what
    was logged. *)
Definition agreeButConsole {S A} (m1 m2 : M S A) : Prop :=
  ∀ st1 st2, sameButConsole st1 st2 →
    fst (m1 st1) = fst (m2 st2) ∧ sameButConsole (snd (m1 st1)) (snd (m2 st2)).

(** The calls of update functions that a completed update pass makes over
    [keys] on the store [store]: one per key whose cached data is present,
    in the order of the keys. *)
Definition updateCalls {S} `{CacheStore S} (mutationOperation : Operation) (store : S)
    (keys : list CacheKey) : list Event :=
  List.flat_map (λ queryKey,
    match getQueryName (query queryKey), getQueryName (operation_query mutationOperation) with
    | Ok queryName, Ok mutationName =>
        if truthy (readValue queryKey store)
        then [UpdateFnCalled mutationName queryName queryKey] else []
    | _, _ => []
    end) keys.




(** A registry whose mutation AddItem updates a query named [constructor],
    a name every object inherits from [Object.prototype]. *)
Definition inheritedNameConfig : Config :=
  {| debug := false; readOnly := false;
     mutationQueryResolverMap := [("AddItem", [("constructor", appendItem)])] |}.

(** No tracked name is inherited from [Object.prototype]. *)
Definition ownNamesPlain (tracked : gmap string (list CacheKey)) : Prop :=
  ∀ queryName, is_Some (tracked !! queryName) → inheritedName queryName = false.

(** * Properties *)

(** ** The query-key tracker *)

Lemma sameSerialisation_refl (k : CacheKey) : sameSerialisation k k = true.
Proof. unfold sameSerialisation. apply String.eqb_refl. Qed.

Lemma sameSerialisation_right (k a b : CacheKey) :
  JSON_stringify a = JSON_stringify b → sameSerialisation k a = sameSerialisation k b.
Proof. unfold sameSerialisation. intros ->. reflexivity. Qed.

Lemma trackedKeys_insert (q : string) (l : list CacheKey)
    (t : gmap string (list CacheKey)) :
  trackedKeys q (<[q := l]> t) = l.
Proof. unfold trackedKeys. rewrite lookup_insert_eq. reflexivity. Qed.

Lemma trackedKeys_insert_ne (q q' : string) (l : list CacheKey)
    (t : gmap string (list CacheKey)) :
  q ≠ q' → trackedKeys q' (<[q := l]> t) = trackedKeys q' t.
Proof. intros Hne. unfold trackedKeys. rewrite lookup_insert_ne by done. reflexivity. Qed.

Lemma existsb_sameSerialisation (a b : CacheKey) (l : list CacheKey) :
  JSON_stringify a = JSON_stringify b →
  existsb (λ key, sameSerialisation key a) l = existsb (λ key, sameSerialisation key b) l.
Proof.
  intros Hab. induction l as [| x l IH]; simpl; [reflexivity |].
  rewrite IH, (sameSerialisation_right x a b Hab). reflexivity.
Qed.

(** The tracker returns the tracked keys, unless the name is inherited
    from [Object.prototype] and not tracked. *)
Lemma tracksArray_own (q : string) (t : gmap string (list CacheKey)) (l : list CacheKey) :
  t !! q = Some l → tracksArray q t = true.
Proof. unfold tracksArray, getQueryKeysToUpdate, lookupProperty. intros ->. reflexivity. Qed.

Lemma tracksArray_plain (q : string) (t : gmap string (list CacheKey)) :
  inheritedName q = false → tracksArray q t = true.
Proof.
  unfold tracksArray, getQueryKeysToUpdate, lookupProperty, inheritedName.
  destruct (t !! q); [reflexivity |]. destruct (inheritedMember q); [discriminate | reflexivity].
Qed.

Lemma tracksArray_false (q : string) (t : gmap string (list CacheKey)) :
  tracksArray q t = false → t !! q = None ∧ inheritedName q = true.
Proof.
  intros Hno. destruct (t !! q) as [l |] eqn:Hl.
  - rewrite (tracksArray_own q t l Hl) in Hno. discriminate.
  - split; [reflexivity |]. destruct (inheritedName q) eqn:Hin; [reflexivity |].
    rewrite (tracksArray_plain q t Hin) in Hno. discriminate.
Qed.

Lemma tracksArray_insert (q q' : string) (l : list CacheKey) (t : gmap string (list CacheKey)) :
  tracksArray q' t = true → tracksArray q' (<[q := l]> t) = true.
Proof.
  intros Hyes. destruct (decide (q = q')) as [-> | Hne].
  - apply (tracksArray_own _ _ l), lookup_insert_eq.
  - unfold tracksArray, getQueryKeysToUpdate, lookupProperty in *.
    rewrite lookup_insert_ne by done. exact Hyes.
Qed.

Lemma getQueryKeysToUpdate_array (q : string) (t : gmap string (list CacheKey)) :
  tracksArray q t = true → getQueryKeysToUpdate q t = KeyArray (trackedKeys q t).
Proof.
  unfold tracksArray, getQueryKeysToUpdate, lookupProperty, trackedKeys.
  destruct (t !! q); [reflexivity |]. destruct (inheritedMember q); [discriminate | reflexivity].
Qed.

Lemma getQueryKeysToUpdate_member (q : string) (t : gmap string (list CacheKey)) :
  tracksArray q t = false → ∃ length, getQueryKeysToUpdate q t = PrototypeMember length.
Proof.
  unfold tracksArray. destruct (getQueryKeysToUpdate q t) as [keys | length];
    [discriminate | eauto].
Qed.

(** What [addQuery] does to the state, in closed form. *)
Lemma addQuery_run {S} (debug : bool) (q : string) (k : CacheKey) (st : State S) :
  addQuery debug q k st =
  if tracksArray q (queriesToUpdate st) then
    if existsb (λ key, sameSerialisation key k) (trackedKeys q (queriesToUpdate st))
    then (Ok tt, st)
    else logWhen debug "Tracking a new QueryName + QueryCacheKey combination"
           (withQueriesToUpdate
              (<[q := trackedKeys q (queriesToUpdate st) ++ [k]]> (queriesToUpdate st)) st)
  else (Throw (TypeError "existingQueryKeys.some is not a function"), st).
Proof.
  unfold addQuery, bind, readQueryKeysToUpdate, assignQueryKeys, modify, ret. simpl.
  destruct (tracksArray q (queriesToUpdate st)) eqn:Harray.
  - rewrite (getQueryKeysToUpdate_array q _ Harray). simpl.
    destruct (existsb _ _); simpl; [reflexivity |].
    rewrite (getQueryKeysToUpdate_array q _ Harray). reflexivity.
  - destruct (getQueryKeysToUpdate_member q _ Harray) as [length ->]. reflexivity.
Qed.

Lemma logWhen_run {S} (flag : bool) (message : string) (st : State S) :
  logWhen flag message st = (Ok tt, logged flag message st).
Proof. destruct flag; reflexivity. Qed.

Lemma logged_cache {S} flag message (st : State S) :
  cache (logged flag message st) = cache st.
Proof. destruct flag; reflexivity. Qed.

Lemma logged_queriesToUpdate {S} flag message (st : State S) :
  queriesToUpdate (logged flag message st) = queriesToUpdate st.
Proof. destruct flag; reflexivity. Qed.

Lemma logged_inflightRequests {S} flag message (st : State S) :
  inflightRequests (logged flag message st) = inflightRequests st.
Proof. destruct flag; reflexivity. Qed.

Lemma logged_events {S} flag message (st : State S) :
  events (logged flag message st) = events st.
Proof. destruct flag; reflexivity. Qed.

(** A second registration with a key of the same serialisation. *)
Lemma addQuery_repeated {S} (debug : bool) (queryName : string)
    (queryKey again : CacheKey) (st : State S) :
  JSON_stringify again = JSON_stringify queryKey →
  addQuery debug queryName again (snd (addQuery debug queryName queryKey st))
  = (fst (addQuery debug queryName queryKey st), snd (addQuery debug queryName queryKey st)).
Proof.
  intros Hsame. rewrite (addQuery_run debug queryName queryKey st).
  destruct (tracksArray queryName (queriesToUpdate st)) eqn:Harray.
  2: { simpl. rewrite addQuery_run, Harray. reflexivity. }
  destruct (existsb _ (trackedKeys queryName (queriesToUpdate st))) eqn:Hfound.
  - simpl. rewrite addQuery_run, Harray.
    rewrite (existsb_sameSerialisation again queryKey _ Hsame), Hfound. reflexivity.
  - rewrite logWhen_run. simpl. rewrite addQuery_run.
    rewrite logged_queriesToUpdate. simpl.
    rewrite (tracksArray_insert _ _ _ _ Harray).
    rewrite trackedKeys_insert, existsb_app. simpl.
    rewrite (sameSerialisation_right queryKey again queryKey Hsame), sameSerialisation_refl.
    rewrite !orb_true_r. reflexivity.
Qed.




(** C3 (the code departs from the claim).  On a tracker that has never
    tracked [queryName], [removeQuery] throws a TypeError instead of being a
    no-op: it reads [length] of [queriesToUpdate[queryName]], which is
    undefined; and for a name inherited from [Object.prototype] it already
    calls [filter] on the inherited member, which has no such method. *)
Theorem removeQuery_untracked_throws {S} (debug : bool) (queryName : string)
    (queryKey : CacheKey) (store : S) :
  fst (removeQuery debug queryName queryKey (initialState store))
  = Throw (TypeError (if inheritedName queryName
                      then "getQueryKeysToUpdate(...).filter is not a function"
                      else "Cannot read properties of undefined (reading 'length')")).
Proof.
  unfold removeQuery, bind, readQueryKeysToUpdate, getState. simpl.
  unfold getQueryKeysToUpdate, lookupProperty, inheritedName. rewrite lookup_empty.
  destruct (inheritedMember queryName); reflexivity.
Qed.

(** ** Running the cache manager and the managers *)

Section Primitives.
Context {S : Type} `{CacheStore S}.

Lemma bind_run {A B} (m : M S A) (k : A → M S B) (st : State S) :
  bind m k st = match fst (m st) with
                | Ok a => k a (snd (m st))
                | Throw e => (Throw e, snd (m st))
                end.
Proof. unfold bind. destruct (m st) as [[a | e] st']; reflexivity. Qed.

Lemma sameButConsole_refl (st : State S) : sameButConsole st st.
Proof. repeat split. Qed.

Lemma sameButConsole_trans (a b c : State S) :
  sameButConsole a b → sameButConsole b c → sameButConsole a c.
Proof.
  intros (? & ? & ? & ?) (? & ? & ? & ?). repeat split; congruence.
Qed.

Lemma sameButConsole_logged flag message (st : State S) :
  sameButConsole st (logged flag message st).
Proof. destruct flag; repeat split. Qed.

Lemma performTransaction_run (writeFn : M S unit) (st : State S) :
  performTransaction writeFn st = writeFn st.
Proof.
  unfold performTransaction, bind, getState.
  destruct (cache_hasPerformTransaction (cache st)); reflexivity.
Qed.

Lemma read_run (d : bool) (queryKey : CacheKey) (st : State S) :
  ∃ st', read d queryKey st = (Ok (readValue queryKey (cache st)), st')
         ∧ sameButConsole st st'.
Proof.
  unfold read, tryCatch, storeRead, readValue.
  destruct (cache_readQuery queryKey (cache st)) as [v | e].
  - exists st. split; [reflexivity | apply sameButConsole_refl].
  - rewrite bind_run, logWhen_run. simpl. eexists. split; [reflexivity |].
    apply sameButConsole_logged.
Qed.

Lemma write_run (d ro : bool) (queryKey : CacheKey) (data : value) (st : State S) :
  ∃ st', write d ro queryKey data st = (Ok tt, st')
         ∧ cache st' = (if ro then cache st
                        else snd (cache_writeQuery queryKey data (cache st)))
         ∧ queriesToUpdate st' = queriesToUpdate st
         ∧ inflightRequests st' = inflightRequests st
         ∧ events st' = events st ++ [WriteCalled queryKey data].
Proof.
  unfold write. rewrite bind_run. simpl. destruct ro.
  - rewrite logWhen_run. eexists. split; [reflexivity |].
    rewrite logged_cache, logged_queriesToUpdate, logged_inflightRequests, logged_events.
    repeat split.
  - unfold tryCatch. rewrite bind_run. unfold storeCall. simpl.
    destruct (cache_writeQuery queryKey data (cache st)) as [[[] | e] c]; simpl;
      rewrite logWhen_run; (eexists; split; [reflexivity |]);
      rewrite logged_cache, logged_queriesToUpdate, logged_inflightRequests, logged_events;
      repeat split.
Qed.

Lemma forEach_write_run (d ro : bool) (items : list (CacheKey * value)) (st : State S) :
  ∃ st', forEach (λ data, write d ro (fst data) (snd data)) items st = (Ok tt, st')
         ∧ cache st' = (if ro then cache st else writeAll items (cache st))
         ∧ queriesToUpdate st' = queriesToUpdate st
         ∧ inflightRequests st' = inflightRequests st
         ∧ events st' = events st ++ List.map (λ it, WriteCalled (fst it) (snd it)) items.
Proof.
  revert st. induction items as [| [k v] items IH]; intros st; simpl.
  - exists st. rewrite app_nil_r. destruct ro; repeat split.
  - destruct (write_run d ro k v st) as (st1 & Hrun & Hc & Hq & Hi & He).
    destruct (IH st1) as (st2 & Hrun2 & Hc2 & Hq2 & Hi2 & He2).
    exists st2. rewrite bind_run, Hrun. simpl. split; [exact Hrun2 |].
    rewrite Hc2, Hq2, Hi2, He2, Hc, Hq, Hi, He, <- app_assoc. simpl.
    destruct ro; repeat split.
Qed.

(** Apart from the console, [read], [write] and [gc] do the same with
    debug enabled as with debug disabled. *)
Lemma read_debug_independent (d : bool) (queryKey : CacheKey) (st : State S) :
  fst (read d queryKey st) = fst (read false queryKey st)
  ∧ sameButConsole (snd (read false queryKey st)) (snd (read d queryKey st)).
Proof.
  destruct (read_run d queryKey st) as (st1 & -> & Hs1).
  destruct (read_run false queryKey st) as (st2 & -> & (Hc & Hq & Hi & He)).
  split; [reflexivity |]. destruct Hs1 as (Hc1 & Hq1 & Hi1 & He1).
  repeat split; simpl; congruence.
Qed.

Lemma write_debug_independent (d ro : bool) (queryKey : CacheKey) (data : value)
    (st : State S) :
  fst (write d ro queryKey data st) = fst (write false ro queryKey data st)
  ∧ sameButConsole (snd (write false ro queryKey data st)) (snd (write d ro queryKey data st)).
Proof.
  destruct (write_run d ro queryKey data st) as (st1 & -> & Hc1 & Hq1 & Hi1 & He1).
  destruct (write_run false ro queryKey data st) as (st2 & -> & Hc2 & Hq2 & Hi2 & He2).
  split; [reflexivity |]. repeat split; simpl; congruence.
Qed.

Lemma gc_debug_independent (d : bool) (st : State S) :
  fst (gc d st) = fst (gc false st)
  ∧ sameButConsole (snd (gc false st)) (snd (gc d st)).
Proof.
  unfold gc, tryCatch, storeCall. destruct (cache_gc (cache st)) as [[[] | e] c]; simpl.
  - split; [reflexivity | apply sameButConsole_refl].
  - rewrite logWhen_run. simpl. split; [reflexivity |]. apply sameButConsole_logged.
Qed.

End Primitives.

(** ** The cache manager's [evict] *)

(** C4 (the code departs from the claim).  For a key whose query selects the
    two root fields [items] and [total], both present in the store, [evict]
    returns true after evicting [items] only: [total] is still in the store,
    because [evicted ||= ...] stops calling the store once a field has been
    evicted. *)
Theorem evict_stops_after_first_eviction :
  fieldNames [Field "items"; Field "total"] = ["items"; "total"]
  ∧ fst (evict false false twoFieldKey (initialState twoFieldStore)) = Ok (Some true)
  ∧ rootFields (cache (snd (evict false false twoFieldKey (initialState twoFieldStore))))
    = ["total"].
Proof. repeat split; vm_compute; reflexivity. Qed.

(** C5 (the code departs from the claim).  With debug enabled (and the
    cache manager not read-only) [evict] throws a ReferenceError on every
    key and every store, because the logged payload reads the unbound
    identifier [queryName]; with debug disabled the same call on the
    two-field key returns true. *)
Theorem evict_with_debug_throws :
  (∀ (S : Type) (store : CacheStore S) (queryKey : CacheKey) (st : State S),
      fst (evict true false queryKey st) = Throw (ReferenceError "queryName"))
  ∧ fst (evict false false twoFieldKey (initialState twoFieldStore)) = Ok (Some true).
Proof.
  split; [| vm_compute; reflexivity].
  intros S store queryKey st. unfold evict, tryCatch.
  match goal with |- context [match ?body st with _ => _ end] =>
    destruct (body st) as [[r | e] st'] eqn:E end; [| reflexivity].
  exfalso. unfold bind in E.
  repeat match type of E with
         | context [match ?m ?s with _ => _ end] =>
             destruct (m s) as [[? | ?] ?]; try discriminate
         end.
Qed.

(** ** The update pass, one key at a time *)

Section UpdatePass.
Context {S : Type} `{CacheStore S}.

Lemma filter_same_length {A} (f : A → bool) (l : list A) :
  List.length (List.filter f l) = List.length l → List.filter f l = l.
Proof.
  intros Hlen. apply List.filter_length_forallb in Hlen.
  induction l as [| x l IH]; simpl in *; [reflexivity |].
  apply andb_prop in Hlen as [Hx Hl]. rewrite Hx, (IH Hl). reflexivity.
Qed.

Lemma filter_and {A} (f g : A → bool) (l : list A) :
  List.filter g (List.filter f l) = List.filter (λ x, f x && g x) l.
Proof.
  induction l as [| x l IH]; simpl; [reflexivity |].
  destruct (f x); simpl; [destruct (g x) |]; rewrite IH; reflexivity.
Qed.

Lemma removeQuery_run (d : bool) (q : string) (k : CacheKey) (st : State S) :
  match queriesToUpdate st !! q with
  | None =>
      removeQuery d q k st
      = (Throw (TypeError (if inheritedName q
                           then "getQueryKeysToUpdate(...).filter is not a function"
                           else "Cannot read properties of undefined (reading 'length')")), st)
  | Some l =>
      ∃ st', removeQuery d q k st = (Ok tt, st')
             ∧ queriesToUpdate st'
               = <[q := List.filter (λ key, negb (sameSerialisation key k)) l]> (queriesToUpdate st)
             ∧ cache st' = cache st
             ∧ inflightRequests st' = inflightRequests st
             ∧ events st' = events st
  end.
Proof.
  unfold removeQuery, bind, readQueryKeysToUpdate, getState, getQueryKeysToUpdate,
    lookupProperty, inheritedName. simpl.
  destruct (queriesToUpdate st !! q) as [l |] eqn:Hq;
    [| destruct (inheritedMember q); simpl; rewrite ?Hq; reflexivity].
  simpl. rewrite Hq. simpl.
  destruct (Nat.eqb_spec (List.length l)
              (List.length (List.filter (λ key, negb (sameSerialisation key k)) l))) as [Hlen | Hlen];
    simpl.
  - exists st. split; [reflexivity |]. symmetry in Hlen.
    rewrite (filter_same_length _ _ Hlen), insert_id by exact Hq. repeat split.
  - unfold assignQueryKeys, modify. simpl. rewrite logWhen_run. eexists. split; [reflexivity |].
    rewrite logged_cache, logged_queriesToUpdate, logged_inflightRequests, logged_events.
    repeat split.
Qed.

(** The part of the tracker the pass may change, key by key. *)
Lemma droppedBy_app (c : S) (q : string) (p1 p2 : list CacheKey) (key : CacheKey) :
  droppedBy c q (p1 ++ p2) key = droppedBy c q p1 key || droppedBy c q p2 key.
Proof. unfold droppedBy. apply existsb_app. Qed.

Lemma droppedBy_cons (c : S) (q : string) (k : CacheKey) (p : list CacheKey) (key : CacheKey) :
  droppedBy c q (k :: p) key = droppedBy c q [k] key || droppedBy c q p key.
Proof. unfold droppedBy. simpl. rewrite orb_false_r. reflexivity. Qed.

Lemma droppedBy_nil (c : S) (q : string) (key : CacheKey) : droppedBy c q [] key = false.
Proof. reflexivity. Qed.

Lemma getUpdateAfterMutation_step (cfg : Config) (op : Operation) (data : value)
    (k : CacheKey) (st : State S) (o : outcome (option (CacheKey * value))) (st' : State S) :
  getUpdateAfterMutation cfg op data k st = (o, st') →
  cache st' = cache st
  ∧ inflightRequests st' = inflightRequests st
  ∧ (∀ q, queriesToUpdate st' !! q
          = List.filter (λ key, negb (droppedBy (cache st) q [k] key))
              <$> (queriesToUpdate st !! q))
  ∧ (events st' = events st
     ∨ (truthy (readValue k (cache st)) = true
        ∧ ∃ m q, events st' = events st ++ [UpdateFnCalled m q k]))
  ∧ (∀ item, o = Ok (Some item) →
       truthy (readValue k (cache st)) = true ∧ ∃ v, item = (k, v)).
Proof.
  intros Hrun.
  assert (Hkeep : ∀ q : string, truthy (readValue k (cache st)) = true ∨ namedAs q k = false →
            queriesToUpdate st !! q
            = List.filter (λ key, negb (droppedBy (cache st) q [k] key))
                <$> (queriesToUpdate st !! q)).
  { intros q Hq. destruct (queriesToUpdate st !! q) as [l |]; [| reflexivity]. simpl.
    f_equal. rewrite <- (List.filter_true l) at 1. apply List.filter_ext. intros key.
    unfold droppedBy. simpl. destruct Hq as [-> | ->]; simpl; [reflexivity |].
    rewrite andb_false_r. reflexivity. }
  unfold getUpdateAfterMutation in Hrun. rewrite bind_run in Hrun. unfold liftOutcome in Hrun.
  simpl in Hrun. destruct (getQueryName (query k)) as [q |] eqn:Hname; simpl in Hrun.
  2: { injection Hrun as <- <-.
       refine (conj eq_refl (conj eq_refl (conj _ (conj (or_introl eq_refl) _))));
         [| discriminate].
       intros q. apply Hkeep. right. unfold namedAs. rewrite Hname. reflexivity. }
  destruct (read_run (debug cfg) k st) as (st1 & Hread & Hc1 & Hq1 & Hi1 & He1).
  rewrite bind_run, Hread in Hrun. simpl in Hrun.
  destruct (truthy (readValue k (cache st))) eqn:Htruthy; simpl in Hrun.
  - (* the cached data is present *)
    assert (Hsame : ∀ q', queriesToUpdate st1 !! q'
              = List.filter (λ key, negb (droppedBy (cache st) q' [k] key))
                  <$> (queriesToUpdate st !! q')).
    { intros q'. rewrite Hq1. apply Hkeep. left. reflexivity. }
    rewrite bind_run in Hrun. simpl in Hrun.
    destruct (getQueryName (operation_query op)) as [m |]; simpl in Hrun.
    2: { injection Hrun as <- <-.
         refine (conj Hc1 (conj Hi1 (conj Hsame (conj (or_introl He1) _)))). discriminate. }
    rewrite bind_run in Hrun. simpl in Hrun.
    destruct (getUpdateFn (mutationQueryResolverMap cfg) m q) as [fn |]; simpl in Hrun.
    2: { injection Hrun as <- <-.
         refine (conj Hc1 (conj Hi1 (conj Hsame (conj (or_introl He1) _)))). discriminate. }
    rewrite bind_run in Hrun. simpl in Hrun. rewrite bind_run in Hrun. simpl in Hrun.
    match type of Hrun with context [fn ?args] => destruct (fn args) as [v |] end; simpl in Hrun.
    2: { injection Hrun as <- <-. simpl.
         refine (conj Hc1 (conj Hi1 (conj Hsame (conj (or_intror (conj eq_refl _)) _))));
           [| discriminate].
         exists m, q. rewrite He1. reflexivity. }
    assert (Hev : events st' = events st ++ [UpdateFnCalled m q k]
                  ∧ cache st' = cache st ∧ inflightRequests st' = inflightRequests st
                  ∧ queriesToUpdate st' = queriesToUpdate st1).
    { destruct (notNullish v); injection Hrun as <- <-; simpl; rewrite He1;
        refine (conj eq_refl (conj Hc1 (conj Hi1 eq_refl))). }
    destruct Hev as (Hev & Hc & Hi & Hq).
    refine (conj Hc (conj Hi (conj _ (conj (or_intror (conj eq_refl _)) _)))).
    + intros q'. rewrite Hq. apply Hsame.
    + exists m, q. exact Hev.
    + destruct (notNullish v); injection Hrun as <- <-; intros item [= <-].
      split; [reflexivity | exists v; reflexivity].
  - (* the cached data is absent: the key is removed from the tracker *)
    rewrite bind_run in Hrun. unfold removeRelatedQuery in Hrun.
    pose proof (removeQuery_run queryManagerDebug q k st1) as Hrem. rewrite Hq1 in Hrem.
    assert (Hother : ∀ q', q' ≠ q → namedAs q' k = false).
    { intros q' Hne. unfold namedAs. rewrite Hname. apply String.eqb_neq. congruence. }
    destruct (queriesToUpdate st !! q) as [l |] eqn:Hl.
    + destruct Hrem as (st2 & Hrem & Hq2 & Hc2 & Hi2 & He2). rewrite Hrem in Hrun.
      simpl in Hrun. injection Hrun as <- <-.
      refine (conj _ (conj _ (conj _ (conj (or_introl _) _)))); try congruence.
      intros q'. rewrite Hq2. destruct (decide (q' = q)) as [-> | Hne].
      * rewrite lookup_insert_eq, Hl. simpl. f_equal. apply List.filter_ext. intros key.
        unfold droppedBy. simpl. unfold namedAs. rewrite Hname, String.eqb_refl, Htruthy.
        simpl. rewrite orb_false_r. reflexivity.
      * rewrite lookup_insert_ne by congruence. apply Hkeep. right. apply Hother, Hne.
    + rewrite Hrem in Hrun. simpl in Hrun. injection Hrun as <- <-.
      refine (conj _ (conj _ (conj _ (conj (or_introl _) _)))); try congruence.
      intros q'. rewrite Hq1. destruct (decide (q' = q)) as [-> | Hne].
      * rewrite Hl. reflexivity.
      * apply Hkeep. right. apply Hother, Hne.
Qed.

Lemma collectItem_step (cfg : Config) (op : Operation) (name : string) (data : value)
    (items : list (CacheKey * value)) (k : CacheKey) (st : State S)
    (o : outcome (list (CacheKey * value))) (st' : State S) :
  collectItem cfg op name data items k st = (o, st') →
  cache st' = cache st
  ∧ inflightRequests st' = inflightRequests st
  ∧ (∀ q, queriesToUpdate st' !! q
          = List.filter (λ key, negb (droppedBy (cache st) q [k] key))
              <$> (queriesToUpdate st !! q))
  ∧ (events st' = events st
     ∨ (truthy (readValue k (cache st)) = true
        ∧ ∃ m q, events st' = events st ++ [UpdateFnCalled m q k]))
  ∧ (∀ items', o = Ok items' →
       items' = items
       ∨ (truthy (readValue k (cache st)) = true ∧ ∃ v, items' = items ++ [(k, v)])).
Proof.
  unfold collectItem, debugLog. rewrite bind_run, logWhen_run. simpl. rewrite bind_run.
  destruct (getUpdateAfterMutation cfg op data k (logged _ _ st)) as [o1 st1] eqn:Hstep.
  apply getUpdateAfterMutation_step in Hstep.
  rewrite logged_cache, logged_inflightRequests, logged_queriesToUpdate, logged_events in Hstep.
  destruct Hstep as (Hc & Hi & Hq & He & Hitem). simpl.
  destruct o1 as [[item |] | e]; simpl.
  - intros [= <- <-]. refine (conj Hc (conj Hi (conj Hq (conj He _)))).
    intros items' [= <-]. right. destruct (Hitem item eq_refl) as (Ht & v & ->).
    split; [exact Ht | exists v; reflexivity].
  - rewrite bind_run, logWhen_run. simpl. intros [= <- <-].
    rewrite logged_cache, logged_inflightRequests, logged_queriesToUpdate, logged_events.
    refine (conj Hc (conj Hi (conj Hq (conj He _)))).
    intros items' [= <-]. left. reflexivity.
  - intros [= <- <-]. refine (conj Hc (conj Hi (conj Hq (conj He _)))). discriminate.
Qed.

(** The whole collection pass: the store and the snapshots are untouched,
    the tracker loses exactly the entries dropped by the keys that were
    processed, an update function is only called, and an item only queued,
    for a key whose cached data is present. *)
Lemma collect_run (cfg : Config) (op : Operation) (name : string) (data : value)
    (keys : list CacheKey) :
  ∀ (items : list (CacheKey * value)) (st : State S)
    (o : outcome (list (CacheKey * value))) (st' : State S),
  reduce (collectItem cfg op name data) keys items st = (o, st') →
  cache st' = cache st
  ∧ inflightRequests st' = inflightRequests st
  ∧ (∃ processed,
        (∀ k, k ∈ processed → k ∈ keys)
        ∧ ((∃ r, o = Ok r) → processed = keys)
        ∧ ∀ q, queriesToUpdate st' !! q
               = List.filter (λ key, negb (droppedBy (cache st) q processed key))
                   <$> (queriesToUpdate st !! q))
  ∧ (∃ new, events st' = events st ++ new
            ∧ Forall (λ e, ∃ m q k, e = UpdateFnCalled m q k ∧ k ∈ keys
                                    ∧ truthy (readValue k (cache st)) = true) new)
  ∧ (∀ items', o = Ok items' →
       ∃ more, items' = items ++ more
               ∧ Forall (λ it, fst it ∈ keys
                               ∧ truthy (readValue (fst it) (cache st)) = true) more).
Proof.
  induction keys as [| k keys IH]; intros items st o st'; simpl.
  - intros [= <- <-]. refine (conj eq_refl (conj eq_refl (conj _ (conj _ _)))).
    + exists []. refine (conj (λ k Hk, Hk) (conj (λ _, eq_refl) _)).
      intros q. destruct (queriesToUpdate st !! q) as [l |]; [| reflexivity]. simpl.
      rewrite List.filter_true. reflexivity.
    + exists []. rewrite app_nil_r. split; [reflexivity | constructor].
    + intros items' [= <-]. exists []. rewrite app_nil_r. split; [reflexivity | constructor].
  - rewrite bind_run.
    destruct (collectItem cfg op name data items k st) as [o1 st1] eqn:Hstep.
    apply collectItem_step in Hstep. destruct Hstep as (Hc & Hi & Hq & He & Hitems). simpl.
    assert (Hev1 : ∃ new, events st1 = events st ++ new
              ∧ Forall (λ e, ∃ m q k0, e = UpdateFnCalled m q k0 ∧ k0 ∈ k :: keys
                                       ∧ truthy (readValue k0 (cache st)) = true) new).
    { destruct He as [He | (Ht & m & q & He)].
      - exists []. rewrite app_nil_r. split; [exact He | constructor].
      - exists [UpdateFnCalled m q k]. split; [exact He |].
        constructor; [| constructor]. exists m, q, k. repeat split; [left | exact Ht]. }
    destruct o1 as [items1 | e].
    + intros Hrest. apply IH in Hrest.
      destruct Hrest as (Hc' & Hi' & (processed & Hsub & Hall & Hq') & (new' & He' & Hnew') & Hitems').
      rewrite Hc in *. refine (conj Hc' (conj _ (conj _ (conj _ _)))).
      * congruence.
      * exists (k :: processed). refine (conj _ (conj _ _)).
        -- intros k0 Hk0. apply elem_of_cons in Hk0 as [-> | Hk0]; [left | right; auto].
        -- intros Hok. rewrite (Hall Hok). reflexivity.
        -- intros q. rewrite Hq', Hq.
           destruct (queriesToUpdate st !! q) as [l |]; [| reflexivity]. simpl. f_equal.
           rewrite filter_and. apply List.filter_ext. intros key.
           rewrite orb_false_r, negb_orb. reflexivity.
      * destruct Hev1 as (new & Hnew & Hfa). exists (new ++ new'). split.
        -- rewrite He', Hnew, app_assoc. reflexivity.
        -- apply Forall_app. split; [exact Hfa |].
           eapply Forall_impl; [exact Hnew' |]. intros e (m & q & k0 & -> & Hin & Ht).
           exists m, q, k0. repeat split; [right; exact Hin | exact Ht].
      * intros items' Hok. destruct (Hitems' items' Hok) as (more & -> & Hmore).
        assert (Hmore' : Forall (λ it, fst it ∈ k :: keys
                                       ∧ truthy (readValue (fst it) (cache st)) = true) more).
        { eapply Forall_impl; [exact Hmore |]. intros it [Hin Ht]. split; [right; exact Hin | exact Ht]. }
        destruct (Hitems items1 eq_refl) as [-> | (Ht & v & ->)].
        -- exists more. split; [reflexivity | exact Hmore'].
        -- exists ((k, v) :: more). split; [rewrite <- app_assoc; reflexivity |].
           constructor; [split; [left | exact Ht] | exact Hmore'].
    + intros [= <- <-]. refine (conj Hc (conj Hi (conj _ (conj Hev1 _)))); [| discriminate].
      exists [k]. refine (conj _ (conj _ Hq)).
      * intros k0 Hk0. apply elem_of_cons in Hk0 as [-> | Hk0]; [left | inversion Hk0].
      * intros [r Hr]. discriminate.
Qed.

Lemma foldl_app_keys (f : string → list CacheKey) (names : list string) (init : list CacheKey) :
  foldl (λ acc q, acc ++ f q) init names = init ++ List.flat_map f names.
Proof.
  revert init. induction names as [| q names IH]; intros init; simpl.
  - rewrite app_nil_r. reflexivity.
  - rewrite IH, app_assoc. reflexivity.
Qed.

Lemma elem_of_affectedKeys (cfg : Config) (name : string)
    (tracked : gmap string (list CacheKey)) (k : CacheKey) :
  k ∈ affectedKeys cfg name tracked
  ↔ ∃ q keys, q ∈ getRegisteredQueryNames (mutationQueryResolverMap cfg) name
              ∧ tracked !! q = Some keys ∧ k ∈ keys.
Proof.
  unfold affectedKeys. rewrite foldl_app_keys. simpl.
  rewrite list_elem_of_In, List.in_flat_map. split.
  - intros (q & Hq & Hk). unfold trackedKeys in Hk.
    destruct (tracked !! q) as [keys |] eqn:Hl; [| destruct Hk].
    exists q, keys. rewrite !list_elem_of_In. auto.
  - intros (q & keys & Hq & Hl & Hk). exists q. unfold trackedKeys. rewrite Hl.
    rewrite <- !list_elem_of_In. auto.
Qed.

(** What [getCachedQueryKeysToUpdate] returns, in closed form. *)
Lemma getCachedQueryKeysToUpdate_run (cfg : Config) (name : string) (st : State S) :
  getCachedQueryKeysToUpdate cfg name st
  = (if registeredTrackArrays cfg name (queriesToUpdate st)
     then Ok (affectedKeys cfg name (queriesToUpdate st))
     else Throw (TypeError "relevantQueryCacheKeys is not iterable"), st).
Proof.
  unfold getCachedQueryKeysToUpdate, registeredTrackArrays, affectedKeys. simpl.
  generalize (@nil CacheKey) as init.
  induction (getRegisteredQueryNames (mutationQueryResolverMap cfg) name) as [| q names IH];
    intros init; simpl; [reflexivity |].
  rewrite bind_run, bind_run. unfold readQueryKeysToUpdate. simpl.
  destruct (tracksArray q (queriesToUpdate st)) eqn:Harray; simpl.
  - rewrite (getQueryKeysToUpdate_array q _ Harray). simpl. rewrite ?bind_run. simpl. apply IH.
  - destruct (getQueryKeysToUpdate_member q _ Harray) as [length ->]. reflexivity.
Qed.

Lemma filter_nothing_dropped (c : S) (q : string) (found : option (list CacheKey)) :
  found = List.filter (λ key, negb (droppedBy c q [] key)) <$> found.
Proof.
  destruct found as [l |]; [| reflexivity]. simpl. f_equal. symmetry.
  rewrite <- (List.filter_true l) at 2. apply List.filter_ext. intros key. reflexivity.
Qed.

(** The whole update pass of a mutation. *)
Lemma updateQueriesAfterMutation_run (cfg : Config) (op : Operation) (name : string)
    (data : value) (st : State S) (o : outcome unit) (st' : State S) :
  updateQueriesAfterMutation cfg op name data st = (o, st') →
  let keys := affectedKeys cfg name (queriesToUpdate st) in
  inflightRequests st' = inflightRequests st
  ∧ (∃ processed,
        (∀ k, k ∈ processed → k ∈ keys)
        ∧ (o = Ok tt → processed = keys)
        ∧ ∀ q, queriesToUpdate st' !! q
               = List.filter (λ key, negb (droppedBy (cache st) q processed key))
                   <$> (queriesToUpdate st !! q))
  ∧ (∃ items new,
        Forall (λ it, fst it ∈ keys ∧ truthy (readValue (fst it) (cache st)) = true) items
        ∧ Forall (λ e, ∃ m q k, e = UpdateFnCalled m q k ∧ k ∈ keys
                                ∧ truthy (readValue k (cache st)) = true) new
        ∧ cache st' = (if readOnly cfg then cache st else writeAll items (cache st))
        ∧ events st'
          = events st ++ new ++ List.map (λ it, WriteCalled (fst it) (snd it)) items).
Proof.
  unfold updateQueriesAfterMutation. rewrite bind_run, getCachedQueryKeysToUpdate_run.
  destruct (registeredTrackArrays cfg name (queriesToUpdate st)); simpl.
  2: { intros [= <- <-]. refine (conj eq_refl (conj _ _)).
       - exists []. refine (conj _ (conj _ _)); [intros k Hk; inversion Hk | discriminate |].
         intros q. apply filter_nothing_dropped.
       - exists [], []. refine (conj (Forall_nil_2 _) (conj (Forall_nil_2 _) (conj _ _))).
         + destruct (readOnly cfg); reflexivity.
         + simpl. rewrite app_nil_r. reflexivity. }
  rewrite bind_run.
  destruct (reduce _ _ _ st) as [o1 st1] eqn:Hcollect. apply collect_run in Hcollect.
  destruct Hcollect as (Hc & Hi & (processed & Hsub & Hall & Hq) & (new & He & Hnew) & Hitems).
  simpl. destruct o1 as [items | e].
  - rewrite performTransaction_run.
    destruct (forEach_write_run (debug cfg) (readOnly cfg) items st1)
      as (st2 & Hrun & Hc2 & Hq2 & Hi2 & He2).
    rewrite Hrun. intros [= <- <-]. destruct (Hitems items eq_refl) as (more & Hmore & Hfa).
    simpl in Hmore. subst more. refine (conj _ (conj _ _)).
    + congruence.
    + exists processed. refine (conj Hsub (conj _ _)).
      * intros _. apply Hall. eauto.
      * intros q. rewrite Hq2. apply Hq.
    + exists items, new. refine (conj Hfa (conj Hnew (conj _ _))).
      * rewrite Hc2, Hc. reflexivity.
      * rewrite He2, He, app_assoc. reflexivity.
  - intros [= <- <-]. refine (conj Hi (conj _ _)).
    + exists processed. refine (conj Hsub (conj _ Hq)). discriminate.
    + exists [], new. refine (conj (Forall_nil_2 _) (conj Hnew (conj _ _))).
      * rewrite Hc. destruct (readOnly cfg); reflexivity.
      * simpl. rewrite app_nil_r. exact He.
Qed.

End UpdatePass.

(** ** The update pass and absent cache entries *)

Section AbsentReads.
Context {S : Type} `{CacheStore S}.

Lemma NoDup_map_eq {A B} (f : A → B) (l : list A) (x y : A) :
  NoDup (List.map f l) → x ∈ l → y ∈ l → f x = f y → x = y.
Proof.
  induction l as [| a l IH]; simpl; intros Hnd Hx Hy Hf; [inversion Hx |].
  apply NoDup_cons in Hnd as [Ha Hnd].
  assert (Hin : ∀ z, z ∈ l → f z ∈ List.map f l).
  { intros z Hz. apply list_elem_of_In, List.in_map, list_elem_of_In, Hz. }
  apply elem_of_cons in Hx as [-> | Hx]; apply elem_of_cons in Hy as [-> | Hy].
  - reflexivity.
  - exfalso. apply Ha. rewrite Hf. apply Hin, Hy.
  - exfalso. apply Ha. rewrite <- Hf. apply Hin, Hx.
  - apply IH; assumption.
Qed.

Lemma elem_of_trackedKeys (q : string) (t : gmap string (list CacheKey)) (k : CacheKey) :
  k ∈ trackedKeys q t ↔ ∃ l, t !! q = Some l ∧ k ∈ l.
Proof.
  unfold trackedKeys. destruct (t !! q) as [l |].
  - split; [eauto | intros (l' & [= <-] & Hk); exact Hk].
  - split; [intros Hk; inversion Hk | intros (l' & [=] & _)].
Qed.

Lemma elem_of_filter_bool {A} (f : A → bool) (l : list A) (x : A) :
  x ∈ List.filter f l ↔ x ∈ l ∧ f x = true.
Proof. rewrite !list_elem_of_In. apply List.filter_In. Qed.

Lemma namedAs_true (q : string) (k : CacheKey) :
  namedAs q k = true ↔ getQueryName (query k) = Ok q.
Proof.
  unfold namedAs. destruct (getQueryName (query k)) as [n | e].
  - rewrite String.eqb_eq. split; congruence.
  - split; discriminate.
Qed.

(** A key of the pass that reads as absent drops itself. *)
Lemma droppedBy_self (c : S) (q : string) (keys : list CacheKey) (k : CacheKey) :
  k ∈ keys → truthy (readValue k c) = false → getQueryName (query k) = Ok q →
  droppedBy c q keys k = true.
Proof.
  intros Hk Ht Hq. unfold droppedBy. apply List.existsb_exists. exists k.
  rewrite <- list_elem_of_In. split; [exact Hk |].
  rewrite Ht, (proj2 (namedAs_true q k) Hq), sameSerialisation_refl. reflexivity.
Qed.

(** A key whose data is present is dropped by no key of the pass. *)
Lemma droppedBy_present (cfg : Config) (name : string) (t : gmap string (list CacheKey))
    (c : S) (q : string) (processed l : list CacheKey) (k : CacheKey) :
  trackerWellFormed t →
  (∀ k', k' ∈ processed → k' ∈ affectedKeys cfg name t) →
  t !! q = Some l → k ∈ l → truthy (readValue k c) = true →
  droppedBy c q processed k = false.
Proof.
  intros Hwf Hsub Hl Hk Ht. destruct (droppedBy c q processed k) eqn:Hd; [| reflexivity].
  exfalso. unfold droppedBy in Hd. apply List.existsb_exists in Hd as (k' & Hk' & Hcond).
  apply andb_prop in Hcond as [Hcond Hser]. apply andb_prop in Hcond as [Habsent Hnamed].
  apply namedAs_true in Hnamed. apply list_elem_of_In, Hsub in Hk'.
  apply elem_of_affectedKeys in Hk' as (q' & l' & _ & Hl' & Hin').
  destruct (Hwf q' l' Hl') as [Hnames _]. rewrite (Hnames k' Hin') in Hnamed.
  injection Hnamed as ->. rewrite Hl in Hl'. injection Hl' as <-.
  destruct (Hwf q l Hl) as [_ Hnd]. unfold sameSerialisation in Hser.
  apply String.eqb_eq in Hser. rewrite (NoDup_map_eq _ _ _ _ Hnd Hk Hin' Hser) in Ht.
  rewrite Ht in Habsent. discriminate.
Qed.

Lemma lookupName_registered {A} (q : string) (l : list (string * A)) :
  q ∈ List.map fst l → ∃ a, lookupName q l = Some a.
Proof.
  induction l as [| [n a] l IH]; simpl; intros Hq; [inversion Hq |].
  destruct (String.eqb_spec n q) as [-> | Hne]; [eauto |].
  apply elem_of_cons in Hq as [-> | Hq]; [congruence | auto].
Qed.

Lemma getUpdateFn_registered (cfg : Config) (m q : string) :
  q ∈ getRegisteredQueryNames (mutationQueryResolverMap cfg) m →
  ∃ fn, getUpdateFn (mutationQueryResolverMap cfg) m q = Ok fn.
Proof.
  unfold getRegisteredQueryNames, getUpdateFn.
  destruct (lookupName m (mutationQueryResolverMap cfg)) as [queries |];
    [| intros Hq; inversion Hq].
  intros Hq. destruct (lookupName_registered q queries Hq) as [fn ->]. eauto.
Qed.

Lemma getUpdateAfterMutation_total (cfg : Config) (op : Operation) (data : value)
    (k : CacheKey) (st : State S) (m q : string) :
  getQueryName (query k) = Ok q →
  is_Some (queriesToUpdate st !! q) →
  getQueryName (operation_query op) = Ok m →
  (∃ fn, getUpdateFn (mutationQueryResolverMap cfg) m q = Ok fn ∧ ∀ args, ∃ v, fn args = Ok v) →
  ∃ r, fst (getUpdateAfterMutation cfg op data k st) = Ok r.
Proof.
  intros Hq [l Hl] Hm (fn & Hfn & Htotal).
  unfold getUpdateAfterMutation. rewrite bind_run. unfold liftOutcome. simpl.
  rewrite Hq. simpl.
  destruct (read_run (debug cfg) k st) as (st1 & Hread & Hc1 & Hq1 & Hi1 & He1).
  rewrite bind_run, Hread. simpl.
  destruct (truthy (readValue k (cache st))); simpl.
  - rewrite bind_run. simpl. rewrite Hm. simpl. rewrite bind_run. simpl. rewrite Hfn. simpl.
    rewrite bind_run. simpl. rewrite bind_run. simpl.
    match goal with |- context [fn ?args] => destruct (Htotal args) as [v ->] end. simpl.
    destruct (notNullish v); eauto.
  - rewrite bind_run. unfold removeRelatedQuery.
    pose proof (removeQuery_run queryManagerDebug q k st1) as Hrem.
    rewrite Hq1, Hl in Hrem. destruct Hrem as (st2 & -> & _). simpl. eauto.
Qed.

Lemma collect_total (cfg : Config) (op : Operation) (name : string) (data : value)
    (m : string) (keys : list CacheKey) :
  getQueryName (operation_query op) = Ok m →
  ∀ (items : list (CacheKey * value)) (st : State S),
  (∀ k, k ∈ keys →
     ∃ q, getQueryName (query k) = Ok q ∧ is_Some (queriesToUpdate st !! q)
          ∧ ∃ fn, getUpdateFn (mutationQueryResolverMap cfg) m q = Ok fn
                  ∧ ∀ args, ∃ v, fn args = Ok v) →
  ∃ items', fst (reduce (collectItem cfg op name data) keys items st) = Ok items'.
Proof.
  intros Hm. induction keys as [| k keys IH]; intros items st Hkeys; simpl; [eauto |].
  rewrite bind_run.
  destruct (collectItem cfg op name data items k st) as [o1 st1] eqn:Hstep. simpl.
  assert (Hok : ∃ items1, o1 = Ok items1).
  { destruct (Hkeys k) as (q & Hq & Hsome & Hfn); [left |].
    revert Hstep. unfold collectItem, debugLog. rewrite bind_run, logWhen_run. simpl.
    rewrite bind_run.
    destruct (getUpdateAfterMutation_total cfg op data k (logged (debug cfg)
                "Found a cached query related to this successful mutation, this Link will invoke the associated callback" st) m q Hq) as [r Hr];
      [rewrite logged_queriesToUpdate; exact Hsome | exact Hm | exact Hfn |].
    rewrite Hr. destruct r as [item |]; simpl.
    - intros [= <- _]. eauto.
    - rewrite bind_run, logWhen_run. simpl. intros [= <- _]. eauto. }
  destruct Hok as [items1 ->]. apply collectItem_step in Hstep.
  destruct Hstep as (_ & _ & Hq & _). apply IH. intros k' Hk'.
  destruct (Hkeys k') as (q & Hname & Hsome & Hfn); [right; exact Hk' |].
  exists q. refine (conj Hname (conj _ Hfn)). rewrite Hq.
  destruct Hsome as [l ->]. simpl. eauto.
Qed.

Lemma updateQueriesAfterMutation_total (cfg : Config) (op : Operation) (name : string)
    (data : value) (st : State S) :
  trackerWellFormed (queriesToUpdate st) →
  getQueryName (operation_query op) = Ok name →
  updateFnsTotal cfg name →
  registeredTrackArrays cfg name (queriesToUpdate st) = true →
  fst (updateQueriesAfterMutation cfg op name data st) = Ok tt.
Proof.
  intros Hwf Hname Htotal Harrays. unfold updateQueriesAfterMutation.
  rewrite bind_run, getCachedQueryKeysToUpdate_run, Harrays. simpl. rewrite bind_run.
  destruct (collect_total cfg op name data name
              (affectedKeys cfg name (queriesToUpdate st)) Hname [] st) as [items Hitems].
  { intros k Hk. apply elem_of_affectedKeys in Hk as (q & l & Hq & Hl & Hk).
    exists q. destruct (Hwf q l Hl) as [Hnames _].
    refine (conj (Hnames k Hk) (conj _ _)); [rewrite Hl; eauto |].
    destruct (getUpdateFn_registered cfg name q Hq) as [fn Hfn].
    exists fn. split; [exact Hfn | apply (Htotal q fn Hfn)]. }
  rewrite Hitems. rewrite performTransaction_run.
  destruct (forEach_write_run (debug cfg) (readOnly cfg) items
              (snd (reduce (collectItem cfg op name data)
                      (affectedKeys cfg name (queriesToUpdate st)) [] st)))
    as (st2 & -> & _). reflexivity.
Qed.

(** C8.  In the update pass of a mutation over a well-formed tracker, take
    any affected key.  If its cached data reads as absent, no update function
    is invoked for it and the cache manager's [write] is not called for it,
    and once the pass has completed the key is tracked under no name.  If
    its cached data is present, it stays tracked wherever it was.  The pass
    completes whenever the update functions registered for the mutation do
    not throw and the tracker returns an array for every query name
    registered for it (as it does unless such a name is inherited from
    [Object.prototype] and was never tracked). *)
Theorem absent_read_untracks_key (cfg : Config) (op : Operation) (name : string)
    (data : value) (st : State S) :
  trackerWellFormed (queriesToUpdate st) →
  let keys := affectedKeys cfg name (queriesToUpdate st) in
  let o := fst (updateQueriesAfterMutation cfg op name data st) in
  let st' := snd (updateQueriesAfterMutation cfg op name data st) in
  (∃ new, events st' = events st ++ new
     ∧ ∀ k, k ∈ keys →
         (truthy (readValue k (cache st)) = false →
            (∀ m q, UpdateFnCalled m q k ∉ new)
            ∧ (∀ v, WriteCalled k v ∉ new)
            ∧ (o = Ok tt → ∀ q, k ∉ trackedKeys q (queriesToUpdate st')))
         ∧ (truthy (readValue k (cache st)) = true →
            ∀ q, k ∈ trackedKeys q (queriesToUpdate st) →
                 k ∈ trackedKeys q (queriesToUpdate st')))
  ∧ (getQueryName (operation_query op) = Ok name → updateFnsTotal cfg name →
     registeredTrackArrays cfg name (queriesToUpdate st) = true → o = Ok tt).
Proof.
  intros Hwf keys o st'. split.
  2: { intros Hname Htotal Harrays. apply updateQueriesAfterMutation_total; assumption. }
  subst o st'.
  destruct (updateQueriesAfterMutation cfg op name data st) as [o st'] eqn:Hrun.
  apply updateQueriesAfterMutation_run in Hrun. fold keys in Hrun. simpl.
  destruct Hrun as (_ & (processed & Hsub & Hall & Hq) & (items & new & Hitems & Hnew & _ & He)).
  exists (new ++ List.map (λ it, WriteCalled (fst it) (snd it)) items).
  split; [exact He |]. intros k Hk. split.
  - intros Habsent. refine (conj _ (conj _ _)).
    + intros m q Hin. apply elem_of_app in Hin as [Hin | Hin].
      * rewrite Forall_forall in Hnew. destruct (Hnew _ Hin) as (m' & q' & k' & [= _ _ <-] & _ & Ht).
        congruence.
      * apply list_elem_of_In, List.in_map_iff in Hin as (it & [=] & _).
    + intros v Hin. apply elem_of_app in Hin as [Hin | Hin].
      * rewrite Forall_forall in Hnew. destruct (Hnew _ Hin) as (m' & q' & k' & [=] & _).
      * apply list_elem_of_In, List.in_map_iff in Hin as (it & [= <- _] & Hit).
        rewrite Forall_forall in Hitems. apply list_elem_of_In in Hit.
        destruct (Hitems _ Hit) as [_ Ht]. congruence.
    + intros Hok q Htracked. rewrite (Hall Hok) in Hq.
      apply elem_of_trackedKeys in Htracked as (l' & Hl' & Hin').
      rewrite Hq in Hl'. destruct (queriesToUpdate st !! q) as [l |] eqn:Hl; [| discriminate].
      simpl in Hl'. injection Hl' as <-. apply elem_of_filter_bool in Hin' as [Hin Hkept].
      destruct (Hwf q l Hl) as [Hnames _].
      rewrite (droppedBy_self (cache st) q keys k Hk Habsent (Hnames k Hin)) in Hkept.
      discriminate.
  - intros Hpresent q Htracked.
    apply elem_of_trackedKeys in Htracked as (l & Hl & Hin).
    apply elem_of_trackedKeys. rewrite Hq, Hl. simpl. eexists. split; [reflexivity |].
    apply elem_of_filter_bool. split; [exact Hin |].
    rewrite (droppedBy_present cfg name (queriesToUpdate st) (cache st) q processed l k
               Hwf Hsub Hl Hin Hpresent). reflexivity.
Qed.

End AbsentReads.

Lemma staleState_wellFormed : trackerWellFormed (queriesToUpdate staleState).
Proof.
  intros q keys Hl. simpl in Hl. apply lookup_singleton_Some in Hl as [<- <-]. split.
  - intros k Hk. apply list_elem_of_singleton in Hk as ->. reflexivity.
  - simpl. apply NoDup_singleton.
Qed.

Lemma absent_read_untracks_key_witness :
  trackerWellFormed (queriesToUpdate staleState)
  ∧ listItemsKey ∈ affectedKeys scenarioConfig "AddItem" (queriesToUpdate staleState)
  ∧ truthy (readValue listItemsKey (cache staleState)) = false
  ∧ fst (updateQueriesAfterMutation scenarioConfig addItemOperation "AddItem"
           (resultObject (succeededWith itemB)) staleState) = Ok tt
  ∧ ∀ q, listItemsKey ∉ trackedKeys q
           (queriesToUpdate
              (snd (updateQueriesAfterMutation scenarioConfig addItemOperation "AddItem"
                      (resultObject (succeededWith itemB)) staleState))).
Proof.
  pose proof (absent_read_untracks_key scenarioConfig addItemOperation "AddItem"
                (resultObject (succeededWith itemB)) staleState staleState_wellFormed) as Hthm.
  simpl in Hthm. destruct Hthm as [(new & _ & Hkeys) _].
  assert (Hin : listItemsKey ∈ affectedKeys scenarioConfig "AddItem" (queriesToUpdate staleState)).
  { vm_compute. left. }
  refine (conj staleState_wellFormed (conj Hin (conj eq_refl (conj eq_refl _)))).
  destruct (Hkeys listItemsKey Hin) as [Habsent _].
  destruct (Habsent eq_refl) as (_ & _ & Hgone). apply Hgone. reflexivity.
Defined.

(** ** Snapshots: taking, clearing, reverting *)

Section Snapshots.
Context {S : Type} `{CacheStore S}.

Lemma snapshotOne_run (cfg : Config) (k : CacheKey) (st : State S) :
  ∃ st', snapshotOne cfg k st = (Ok tt, st')
         ∧ cache st' = cache st
         ∧ queriesToUpdate st' = queriesToUpdate st
         ∧ events st' = events st
         ∧ inflightRequests st' = (ForKey k, readValue k (cache st)) :: inflightRequests st.
Proof.
  unfold snapshotOne. destruct (read_run (debug cfg) k st) as (st1 & Hread & Hc & Hq & Hi & He).
  rewrite bind_run, Hread. simpl. rewrite bind_run. unfold inflight_set, modify. simpl.
  unfold debugLog. rewrite logWhen_run. eexists. split; [reflexivity |].
  rewrite logged_cache, logged_queriesToUpdate, logged_events, logged_inflightRequests. simpl.
  rewrite Hi. auto.
Qed.

Lemma forEach_snapshotOne_run (cfg : Config) (keys : list CacheKey) (st : State S) :
  ∃ st', forEach (snapshotOne cfg) keys st = (Ok tt, st')
         ∧ cache st' = cache st
         ∧ queriesToUpdate st' = queriesToUpdate st
         ∧ events st' = events st
         ∧ inflightRequests st' = snapshotsOf (cache st) keys (inflightRequests st).
Proof.
  revert st. induction keys as [| k keys IH]; intros st; simpl.
  - exists st. auto.
  - destruct (snapshotOne_run cfg k st) as (st1 & Hrun & Hc & Hq & He & Hi).
    destruct (IH st1) as (st2 & Hrun2 & Hc2 & Hq2 & He2 & Hi2).
    exists st2. rewrite bind_run, Hrun. simpl. split; [exact Hrun2 |].
    rewrite Hc2, Hq2, He2, Hi2, Hc, Hq, He, Hi. auto.
Qed.

Lemma addOptimisticRequest_run (cfg : Config) (name : string) (st : State S) :
  if registeredTrackArrays cfg name (queriesToUpdate st) then
    ∃ st', addOptimisticRequest cfg name st = (Ok tt, st')
           ∧ cache st' = cache st
           ∧ queriesToUpdate st' = queriesToUpdate st
           ∧ events st' = events st
           ∧ inflightRequests st'
             = snapshotsOf (cache st) (affectedKeys cfg name (queriesToUpdate st))
                 (inflightRequests st)
  else addOptimisticRequest cfg name st
       = (Throw (TypeError "relevantQueryCacheKeys is not iterable"), st).
Proof.
  unfold addOptimisticRequest. rewrite bind_run, getCachedQueryKeysToUpdate_run.
  destruct (registeredTrackArrays cfg name (queriesToUpdate st)); simpl; [| reflexivity].
  apply forEach_snapshotOne_run.
Qed.

Lemma lookupSnapshot_snapshotsOf_other (c : S) (keys : list CacheKey)
    (base : list (SnapshotKey * value)) (key : SnapshotKey) :
  (∀ k, k ∈ keys → key ≠ ForKey k) →
  lookupSnapshot key (snapshotsOf c keys base) = lookupSnapshot key base.
Proof.
  revert base. induction keys as [| k keys IH]; intros base Hother; simpl; [reflexivity |].
  unfold snapshotsOf in *. simpl. rewrite IH by (intros k' Hk'; apply Hother; right; exact Hk').
  simpl. destruct (decide (ForKey k = key)) as [<- | _]; [| reflexivity].
  exfalso. apply (Hother k); [left | reflexivity].
Qed.

Lemma lookupSnapshot_snapshotsOf (c : S) (keys : list CacheKey)
    (base : list (SnapshotKey * value)) (k : CacheKey) :
  k ∈ keys → lookupSnapshot (ForKey k) (snapshotsOf c keys base) = readValue k c.
Proof.
  revert base. induction keys as [| k1 keys IH]; intros base Hk; [inversion Hk |].
  unfold snapshotsOf in *. simpl. destruct (decide (k ∈ keys)) as [Hin | Hout].
  - apply IH, Hin.
  - apply elem_of_cons in Hk as [-> | Hk]; [| contradiction].
    fold (snapshotsOf c keys ((ForKey k1, readValue k1 c) :: base)).
    rewrite lookupSnapshot_snapshotsOf_other.
    + simpl. destruct (decide (ForKey k1 = ForKey k1)); [reflexivity | contradiction].
    + intros k' Hk' [= ->]. contradiction.
Qed.

Lemma clearOptimisticRequest_run (cfg : Config) (key : SnapshotKey) (st : State S) :
  ∃ st', clearOptimisticRequest cfg key st = (Ok tt, st')
         ∧ cache st' = cache st
         ∧ queriesToUpdate st' = queriesToUpdate st
         ∧ events st' = events st
         ∧ inflightRequests st' = (key, VNull) :: inflightRequests st.
Proof.
  unfold clearOptimisticRequest. rewrite bind_run. unfold inflight_set, modify, debugLog. simpl.
  rewrite logWhen_run. eexists. split; [reflexivity |].
  rewrite logged_cache, logged_queriesToUpdate, logged_events, logged_inflightRequests. auto.
Qed.

Lemma revertOne_run (cfg : Config) (k : CacheKey) (st : State S) :
  let prev := lookupSnapshot (ForKey k) (inflightRequests st) in
  ∃ st', revertOne cfg k st = (Ok tt, st')
         ∧ queriesToUpdate st' = queriesToUpdate st
         ∧ inflightRequests st' = (ForKey k, VNull) :: inflightRequests st
         ∧ cache st' = (if truthy prev && negb (readOnly cfg)
                        then snd (cache_writeQuery k prev (cache st))
                        else cache st)
         ∧ events st' = events st ++ (if truthy prev then [WriteCalled k prev] else []).
Proof.
  intros prev. unfold revertOne. rewrite bind_run. unfold getBeforeState. simpl. fold prev.
  rewrite bind_run. destruct (truthy prev) eqn:Ht; simpl.
  - destruct (write_run (debug cfg) (readOnly cfg) k prev st) as (st1 & Hw & Hc & Hq & Hi & He).
    rewrite bind_run, Hw. simpl. unfold debugLog. rewrite logWhen_run. simpl.
    destruct (clearOptimisticRequest_run cfg (ForKey k)
                (logged (debug cfg) "Reverted an optimistic request after an error" st1))
      as (st2 & Hclear & Hc2 & Hq2 & He2 & Hi2).
    exists st2. split; [exact Hclear |].
    rewrite Hq2, Hi2, Hc2, He2, logged_cache, logged_queriesToUpdate,
      logged_inflightRequests, logged_events, Hc, Hq, Hi, He.
    destruct (readOnly cfg); auto.
  - destruct (clearOptimisticRequest_run cfg (ForKey k) st) as (st2 & Hclear & Hc2 & Hq2 & He2 & Hi2).
    exists st2. split; [exact Hclear |]. rewrite Hq2, Hi2, Hc2, He2, app_nil_r. auto.
Qed.

End Snapshots.

(** ** Read-only mode *)

Section ReadOnly.
Context {S : Type} `{CacheStore S}.
Variable cfg : Config.

Local Abbreviation ro := (withReadOnly true cfg).
Local Abbreviation rw := (withReadOnly false cfg).

Lemma forEach_revertOne_readOnly (keys : list CacheKey) :
  ∀ st1 st2 : State S, sameBookkeeping st1 st2 →
    fst (forEach (revertOne ro) keys st1) = Ok tt
    ∧ fst (forEach (revertOne rw) keys st2) = Ok tt
    ∧ cache (snd (forEach (revertOne ro) keys st1)) = cache st1
    ∧ sameBookkeeping (snd (forEach (revertOne ro) keys st1))
                      (snd (forEach (revertOne rw) keys st2)).
Proof.
  induction keys as [| k keys IH]; intros st1 st2 Hsame; simpl; [auto |].
  destruct (revertOne_run ro k st1) as (st1' & Hrun1 & Hq1 & Hi1 & Hc1 & He1).
  destruct (revertOne_run rw k st2) as (st2' & Hrun2 & Hq2 & Hi2 & Hc2 & He2).
  rewrite !bind_run, Hrun1, Hrun2. simpl.
  destruct Hsame as (Hq & Hi & He).
  assert (Hsame' : sameBookkeeping st1' st2').
  { refine (conj _ (conj _ _)); [congruence | congruence |]. rewrite He1, He2, Hi, He. reflexivity. }
  destruct (IH st1' st2' Hsame') as (Hok1 & Hok2 & Hc & Hs).
  refine (conj Hok1 (conj Hok2 (conj _ Hs))). rewrite Hc, Hc1. simpl.
  rewrite andb_false_r. reflexivity.
Qed.

Lemma revertOptimisticRequest_readOnly (name : string) (st1 st2 : State S) :
  sameBookkeeping st1 st2 →
  fst (revertOptimisticRequest ro name st1) = fst (revertOptimisticRequest rw name st2)
  ∧ cache (snd (revertOptimisticRequest ro name st1)) = cache st1
  ∧ sameBookkeeping (snd (revertOptimisticRequest ro name st1))
                    (snd (revertOptimisticRequest rw name st2)).
Proof.
  intros Hsame. unfold revertOptimisticRequest.
  rewrite !bind_run, !getCachedQueryKeysToUpdate_run.
  pose proof Hsame as (Hq & Hi & He).
  change (affectedKeys rw name (queriesToUpdate st2))
    with (affectedKeys ro name (queriesToUpdate st2)).
  change (registeredTrackArrays rw name (queriesToUpdate st2))
    with (registeredTrackArrays ro name (queriesToUpdate st2)).
  rewrite <- Hq. destruct (registeredTrackArrays ro name (queriesToUpdate st1)); simpl.
  - destruct (forEach_revertOne_readOnly (affectedKeys ro name (queriesToUpdate st1))
                st1 st2 Hsame) as (Hok1 & Hok2 & Hc & Hs).
    rewrite Hok1, Hok2. auto.
  - auto.
Qed.

Lemma updateQueriesAfterMutation_readOnly (op : Operation) (name : string) (data : value)
    (st : State S) :
  fst (updateQueriesAfterMutation ro op name data st)
  = fst (updateQueriesAfterMutation rw op name data st)
  ∧ cache (snd (updateQueriesAfterMutation ro op name data st)) = cache st
  ∧ sameBookkeeping (snd (updateQueriesAfterMutation ro op name data st))
                    (snd (updateQueriesAfterMutation rw op name data st)).
Proof.
  unfold updateQueriesAfterMutation. rewrite !bind_run, !getCachedQueryKeysToUpdate_run.
  change (affectedKeys rw name (queriesToUpdate st))
    with (affectedKeys ro name (queriesToUpdate st)).
  change (registeredTrackArrays rw name (queriesToUpdate st))
    with (registeredTrackArrays ro name (queriesToUpdate st)).
  destruct (registeredTrackArrays ro name (queriesToUpdate st)); simpl;
    [| refine (conj eq_refl (conj eq_refl _)); repeat split].
  rewrite !bind_run.
  change (collectItem rw op name data) with (collectItem ro op name data).
  destruct (reduce (collectItem ro op name data)
              (affectedKeys ro name (queriesToUpdate st)) [] st) as [o1 st1] eqn:Hcollect.
  apply collect_run in Hcollect. destruct Hcollect as (Hc & _). simpl.
  destruct o1 as [items | e]; simpl.
  - rewrite !performTransaction_run.
    destruct (forEach_write_run (debug cfg) true items st1) as (sa & Ha & Hca & Hqa & Hia & Hea).
    destruct (forEach_write_run (debug cfg) false items st1) as (sb & Hb & Hcb & Hqb & Hib & Heb).
    change (debug ro) with (debug cfg). change (debug rw) with (debug cfg).
    change (readOnly ro) with true. change (readOnly rw) with false.
    rewrite Ha, Hb. simpl. refine (conj eq_refl (conj _ _)); [congruence |].
    repeat split; congruence.
  - refine (conj eq_refl (conj Hc _)). repeat split.
Qed.

Lemma then_ret_fst {A B} (m : M S A) (r : B) (st : State S) :
  fst (bind m (λ _, ret r) st)
  = match fst (m st) with Ok _ => Ok r | Throw e => Throw e end.
Proof. rewrite bind_run. destruct (fst (m st)); reflexivity. Qed.

Lemma then_ret_snd {A B} (m : M S A) (r : B) (st : State S) :
  snd (bind m (λ _, ret r) st) = snd (m st).
Proof. rewrite bind_run. destruct (fst (m st)); reflexivity. Qed.

Lemma addRelatedQuery_bookkeeping (name : string) (op : Operation) (st1 st2 : State S) :
  sameBookkeeping st1 st2 →
  fst (addRelatedQuery name op st1) = fst (addRelatedQuery name op st2)
  ∧ cache (snd (addRelatedQuery name op st1)) = cache st1
  ∧ sameBookkeeping (snd (addRelatedQuery name op st1)) (snd (addRelatedQuery name op st2)).
Proof.
  intros (Hq & Hi & He). unfold addRelatedQuery. rewrite !addQuery_run, <- Hq.
  unfold sameBookkeeping, queryManagerDebug.
  destruct (tracksArray _ _); [| simpl; repeat split; congruence].
  destruct (existsb _ _); simpl; repeat split; congruence.
Qed.

Lemma requestResult_readOnly (op : Operation) (definition : DefinitionNode)
    (result : FetchResult) (st1 st2 : State S) :
  sameBookkeeping st1 st2 →
  (isOptimistic (operation_context op) = false → st1 = st2) →
  fst (requestResult ro op definition result st1)
  = fst (requestResult rw op definition result st2)
  ∧ cache (snd (requestResult ro op definition result st1)) = cache st1
  ∧ sameBookkeeping (snd (requestResult ro op definition result st1))
                    (snd (requestResult rw op definition result st2)).
Proof.
  intros Hsame Hequal. unfold requestResult.
  rewrite !then_ret_fst, !then_ret_snd.
  change (isQueryRelated rw) with (isQueryRelated ro).
  change (mutationQueryResolverMap rw) with (mutationQueryResolverMap ro).
  destruct (isSuccessfulQuery _ result && isQueryRelated ro _).
  { unfold debugLog. rewrite !bind_run, !logWhen_run. simpl.
    destruct (addRelatedQuery_bookkeeping (definitionNameOrEmpty definition) op
                (logged (debug cfg) "Found a successful query related to a watched mutation" st1)
                (logged (debug cfg) "Found a successful query related to a watched mutation" st2))
      as (Hok & Hc & Hs).
    { destruct Hsame as (Hq & Hi & He).
      repeat split; rewrite ?logged_queriesToUpdate, ?logged_inflightRequests, ?logged_events;
        assumption. }
    change (debug ro) with (debug cfg). change (debug rw) with (debug cfg).
    rewrite Hok, Hc, logged_cache. auto. }
  destruct (isSuccessfulMutation _ result && isWatched _ _).
  { destruct (isOptimistic (operation_context op)) eqn:Hopt.
    - destruct (clearOptimisticRequest_run ro (ForName (definitionNameOrEmpty definition)) st1)
        as (sa & Ha & Hca & Hqa & Hea & Hia).
      destruct (clearOptimisticRequest_run rw (ForName (definitionNameOrEmpty definition)) st2)
        as (sb & Hb & Hcb & Hqb & Heb & Hib).
      rewrite Ha, Hb. simpl. destruct Hsame as (Hq & Hi & He).
      refine (conj eq_refl (conj Hca _)). repeat split; congruence.
    - rewrite <- (Hequal eq_refl).
      destruct (updateQueriesAfterMutation_readOnly op (definitionNameOrEmpty definition)
                  (resultObject result) st1) as (Ho & Hc & Hs). rewrite Ho. auto. }
  destruct (isFailedMutation _ result && isWatched _ _ && isOptimistic _).
  { destruct (revertOptimisticRequest_readOnly (definitionNameOrEmpty definition) st1 st2 Hsame)
      as (Hok & Hc & Hs).
    rewrite Hok. auto. }
  simpl. auto.
Qed.

Lemma requestStart_readOnly (op : Operation) (st : State S) :
  fst (requestStart ro op st) = fst (requestStart rw op st)
  ∧ cache (snd (requestStart ro op st)) = cache st
  ∧ sameBookkeeping (snd (requestStart ro op st)) (snd (requestStart rw op st))
  ∧ (isOptimistic (operation_context op) = false →
     snd (requestStart ro op st) = snd (requestStart rw op st)).
Proof.
  unfold requestStart. rewrite !bind_run. unfold liftOutcome. simpl.
  destruct (getMainDefinition (operation_query op)) as [definition | e]; simpl.
  2: { repeat split. }
  rewrite !then_ret_fst, !then_ret_snd.
  destruct (isOptimistic (operation_context op)); simpl.
  2: { repeat split. }
  destruct (isWatched (mutationQueryResolverMap cfg) (definitionNameOrEmpty definition)); simpl.
  2: { repeat split. }
  rewrite !bind_run.
  pose proof (addOptimisticRequest_run ro (definitionNameOrEmpty definition) st) as Hadd.
  change (addOptimisticRequest rw) with (addOptimisticRequest ro).
  destruct (registeredTrackArrays ro (definitionNameOrEmpty definition) (queriesToUpdate st)).
  2: { rewrite Hadd. simpl. refine (conj eq_refl (conj eq_refl (conj _ _))); repeat split. }
  destruct Hadd as (st1 & Hrun & Hc1 & _). rewrite Hrun. simpl.
  destruct (updateQueriesAfterMutation_readOnly op (definitionNameOrEmpty definition)
              (VObj [("data", optimisticResponse (operation_context op))]) st1) as (Ho & Hc & Hs). rewrite Ho.
  refine (conj eq_refl (conj _ (conj Hs _))); [congruence | discriminate].
Qed.

(** C9.  In read-only mode [write] succeeds and [evict] returns false, and
    neither changes the store; and a whole [request], run read-only, leaves
    the store as it was while returning the same outcome, the same tracker,
    the same snapshots and the same calls of update functions and of [write]
    as the same request run read-write from the same state. *)
Theorem readOnly_keeps_store_and_bookkeeping :
  (∀ (d : bool) (queryKey : CacheKey) (data : value) (st : State S),
      fst (write d true queryKey data st) = Ok tt
      ∧ cache (snd (write d true queryKey data st)) = cache st)
  ∧ (∀ (d : bool) (queryKey : CacheKey) (st : State S),
      fst (evict d true queryKey st) = Ok (Some false)
      ∧ cache (snd (evict d true queryKey st)) = cache st)
  ∧ (∀ (op : Operation) (result : FetchResult) (st : State S),
      cache (snd (request (withReadOnly true cfg) op result st)) = cache st
      ∧ fst (request (withReadOnly true cfg) op result st)
        = fst (request (withReadOnly false cfg) op result st)
      ∧ sameBookkeeping (snd (request (withReadOnly true cfg) op result st))
                        (snd (request (withReadOnly false cfg) op result st))).
Proof.
  refine (conj _ (conj _ _)).
  - intros d queryKey data st.
    destruct (write_run d true queryKey data st) as (st' & -> & Hc & _). auto.
  - intros d queryKey st. unfold evict. rewrite bind_run, logWhen_run. simpl.
    split; [reflexivity | apply logged_cache].
  - intros op result st. unfold request. rewrite !bind_run.
    destruct (requestStart_readOnly op st) as (Ho & Hc & Hs & Hequal). rewrite <- Ho.
    destruct (fst (requestStart ro op st)) as [definition | e]; [| auto].
    destruct (requestResult_readOnly op definition result _ _ Hs Hequal) as (Ho' & Hc' & Hs').
    rewrite Hc', Hc. auto.
Qed.

End ReadOnly.

(** ** Anonymous operations *)

Section Anonymous.
Context {S : Type} `{CacheStore S}.
Variable cfg : Config.

Lemma trackedWithin_refl t : trackedWithin t t.
Proof. intros q k Hk. exact Hk. Qed.

Lemma trackedWithin_trans t1 t2 t3 :
  trackedWithin t1 t2 → trackedWithin t2 t3 → trackedWithin t1 t3.
Proof. intros H12 H23 q k Hk. apply H23, H12, Hk. Qed.

Lemma updateQueriesAfterMutation_within (op : Operation) (name : string) (data : value)
    (st : State S) :
  trackedWithin (queriesToUpdate (snd (updateQueriesAfterMutation cfg op name data st)))
                (queriesToUpdate st).
Proof.
  destruct (updateQueriesAfterMutation cfg op name data st) as [o st'] eqn:Hrun.
  apply updateQueriesAfterMutation_run in Hrun.
  destruct Hrun as (_ & (processed & _ & _ & Hq) & _). simpl.
  intros q k Hk. apply elem_of_trackedKeys in Hk as (l' & Hl' & Hk).
  rewrite Hq in Hl'. apply elem_of_trackedKeys.
  destruct (queriesToUpdate st !! q) as [l |]; [| discriminate].
  simpl in Hl'. injection Hl' as <-. exists l. split; [reflexivity |].
  apply elem_of_filter_bool in Hk as [Hk _]. exact Hk.
Qed.

Lemma forEach_revertOne_tracker (keys : list CacheKey) (st : State S) :
  fst (forEach (revertOne cfg) keys st) = Ok tt
  ∧ queriesToUpdate (snd (forEach (revertOne cfg) keys st)) = queriesToUpdate st.
Proof.
  revert st. induction keys as [| k keys IH]; intros st; simpl; [auto |].
  destruct (revertOne_run cfg k st) as (st1 & Hrun & Hq & _).
  rewrite bind_run, Hrun. simpl. destruct (IH st1) as [Hok Hq']. rewrite Hok, Hq', Hq. auto.
Qed.

Lemma requestStart_definition (op : Operation) (st : State S) (d : DefinitionNode) :
  fst (requestStart cfg op st) = Ok d → getMainDefinition (operation_query op) = Ok d.
Proof.
  unfold requestStart. rewrite bind_run. unfold liftOutcome. simpl.
  destruct (getMainDefinition (operation_query op)) as [d' | e]; simpl; [| discriminate].
  rewrite then_ret_fst. destruct (fst _); [intros [= ->]; reflexivity | discriminate].
Qed.

Lemma requestStart_within (op : Operation) (st : State S) :
  trackedWithin (queriesToUpdate (snd (requestStart cfg op st))) (queriesToUpdate st).
Proof.
  unfold requestStart. rewrite bind_run. unfold liftOutcome. simpl.
  destruct (getMainDefinition (operation_query op)) as [d | e]; simpl;
    [| apply trackedWithin_refl].
  rewrite then_ret_snd.
  destruct (isOptimistic _ && isWatched _ _); [| apply trackedWithin_refl].
  rewrite bind_run.
  pose proof (addOptimisticRequest_run cfg (definitionNameOrEmpty d) st) as Hadd.
  destruct (registeredTrackArrays cfg (definitionNameOrEmpty d) (queriesToUpdate st));
    [| rewrite Hadd; apply trackedWithin_refl].
  destruct Hadd as (st1 & Hrun & _ & Hq & _).
  rewrite Hrun. simpl. rewrite <- Hq. apply updateQueriesAfterMutation_within.
Qed.

Lemma requestStart_idle (op : Operation) (st : State S) (d : DefinitionNode) :
  getMainDefinition (operation_query op) = Ok d →
  isOptimistic (operation_context op) && isWatched (mutationQueryResolverMap cfg)
                                           (definitionNameOrEmpty d) = false →
  requestStart cfg op st = (Ok d, st).
Proof.
  intros Hd Hidle. unfold requestStart. rewrite bind_run. unfold liftOutcome. simpl.
  rewrite Hd. simpl. rewrite Hidle. reflexivity.
Qed.

Lemma requestResult_unrelated_within (op : Operation) (d : DefinitionNode)
    (result : FetchResult) (st : State S) :
  isQueryRelated cfg (definitionNameOrEmpty d) = false →
  trackedWithin (queriesToUpdate (snd (requestResult cfg op d result st))) (queriesToUpdate st).
Proof.
  intros Hunrelated. unfold requestResult. rewrite then_ret_snd, Hunrelated, andb_false_r.
  destruct (isSuccessfulMutation _ result && isWatched _ _).
  { destruct (isOptimistic (operation_context op)).
    - destruct (clearOptimisticRequest_run cfg (ForName (definitionNameOrEmpty d)) st)
        as (st1 & -> & _ & Hq & _). simpl. rewrite Hq. apply trackedWithin_refl.
    - apply updateQueriesAfterMutation_within. }
  destruct (isFailedMutation _ result && isWatched _ _ && isOptimistic _).
  { unfold revertOptimisticRequest. rewrite bind_run, getCachedQueryKeysToUpdate_run.
    destruct (registeredTrackArrays cfg (definitionNameOrEmpty d) (queriesToUpdate st)); simpl;
      [| apply trackedWithin_refl].
    destruct (forEach_revertOne_tracker
                (affectedKeys cfg (definitionNameOrEmpty d) (queriesToUpdate st)) st)
      as [_ ->]. apply trackedWithin_refl. }
  apply trackedWithin_refl.
Qed.

Lemma requestResult_unwatched (op : Operation) (d : DefinitionNode)
    (result : FetchResult) (st : State S) :
  isWatched (mutationQueryResolverMap cfg) (definitionNameOrEmpty d) = false →
  inheritedName (definitionNameOrEmpty d) = false →
  fst (requestResult cfg op d result st) = Ok result
  ∧ cache (snd (requestResult cfg op d result st)) = cache st
  ∧ inflightRequests (snd (requestResult cfg op d result st)) = inflightRequests st
  ∧ events (snd (requestResult cfg op d result st)) = events st.
Proof.
  intros Hunwatched Hplain. unfold requestResult.
  rewrite then_ret_fst, then_ret_snd, Hunwatched, !andb_false_r. simpl.
  destruct (isSuccessfulQuery _ result && isQueryRelated cfg _); [| auto].
  unfold debugLog, addRelatedQuery. rewrite bind_run, logWhen_run. simpl.
  rewrite addQuery_run, (tracksArray_plain _ _ Hplain). unfold queryManagerDebug.
  destruct (existsb _ _); simpl;
    rewrite ?logged_cache, ?logged_inflightRequests, ?logged_events; auto.
Qed.

(** When an optimistic mutation succeeds, the result handler leaves the
    store and the tracker as they are and changes the snapshot of no cache
    key, whatever the registry and the result. *)
Lemma requestResult_optimistic_success (op : Operation) (d : DefinitionNode)
    (result : FetchResult) (st : State S) :
  isOptimistic (operation_context op) = true →
  definitionOperation d = Some OpMutation →
  isSuccess result = true →
  fst (requestResult cfg op d result st) = Ok result
  ∧ cache (snd (requestResult cfg op d result st)) = cache st
  ∧ queriesToUpdate (snd (requestResult cfg op d result st)) = queriesToUpdate st
  ∧ ∀ k, lookupSnapshot (ForKey k) (inflightRequests (snd (requestResult cfg op d result st)))
         = lookupSnapshot (ForKey k) (inflightRequests st).
Proof.
  intros Hopt Hkind Hsuccess. unfold requestResult. rewrite then_ret_fst, then_ret_snd.
  unfold isSuccessfulQuery, isSuccessfulMutation, isFailedMutation.
  rewrite Hkind, Hsuccess, Hopt. simpl.
  destruct (isWatched _ _); simpl; [| auto].
  destruct (clearOptimisticRequest_run cfg (ForName (definitionNameOrEmpty d)) st)
    as (st1 & -> & Hc & Hq & _ & Hi). simpl.
  refine (conj eq_refl (conj Hc (conj Hq _))). intros k. rewrite Hi. simpl.
  destruct (decide (ForName (definitionNameOrEmpty d) = ForKey k)); [discriminate | reflexivity].
Qed.

Lemma isQueryRelated_registered (n : string) :
  isQueryRelated cfg n = true ↔ n ∈ getAllRegisteredQueryNames (mutationQueryResolverMap cfg).
Proof.
  unfold isQueryRelated. rewrite List.existsb_exists, list_elem_of_In. split.
  - intros (q & Hq & Heq). rewrite orb_false_r in Heq. apply String.eqb_eq in Heq as <-. exact Hq.
  - intros Hn. exists n. rewrite orb_false_r, String.eqb_refl. auto.
Qed.

Lemma isWatched_registered (n : string) :
  isWatched (mutationQueryResolverMap cfg) n = true
  ↔ n ∈ getMutationNames (mutationQueryResolverMap cfg).
Proof.
  unfold isWatched, getMutationNames.
  induction (mutationQueryResolverMap cfg) as [| [m queries] l IH]; simpl.
  - split; [discriminate | intros Hn; inversion Hn].
  - destruct (String.eqb_spec m n) as [-> | Hne].
    + split; [intros _; left | reflexivity].
    + rewrite IH. split; [intros Hn; right; exact Hn |].
      intros Hn. apply elem_of_cons in Hn as [-> | Hn]; [contradiction | exact Hn].
Qed.

Lemma not_true_false (b : bool) : ¬ (b = true) → b = false.
Proof. destruct b; [intros Hb; exfalso; apply Hb; reflexivity | reflexivity]. Qed.

(** C10.  An operation whose main definition has no name is handled under
    the empty name.  If the empty name is neither a registered query name
    nor a watched mutation name, the request returns its result and leaves
    the whole state untouched.  If it is not a registered query name, the
    request tracks no key.  If it is not a watched mutation name, the
    request returns its result and leaves the store, the snapshots and the
    record of calls untouched.  If it is a registered query name, a
    successful anonymous query (not optimistic) is tracked under it. *)
Theorem anonymous_operation_uses_empty_name (op : Operation) (kind : OperationTypeNode)
    (selections : list SelectionNode) (result : FetchResult) (st : State S) :
  getMainDefinition (operation_query op) = Ok (OperationDefinition kind None selections) →
  let after := request cfg op result st in
  let queryNames := getAllRegisteredQueryNames (mutationQueryResolverMap cfg) in
  let mutationNames := getMutationNames (mutationQueryResolverMap cfg) in
  definitionNameOrEmpty (OperationDefinition kind None selections) = ""
  ∧ ("" ∉ queryNames → "" ∉ mutationNames → after = (Ok result, st))
  ∧ ("" ∉ queryNames → trackedWithin (queriesToUpdate (snd after)) (queriesToUpdate st))
  ∧ ("" ∉ mutationNames →
     fst after = Ok result ∧ cache (snd after) = cache st
     ∧ inflightRequests (snd after) = inflightRequests st ∧ events (snd after) = events st)
  ∧ ("" ∈ queryNames → kind = OpQuery → isSuccess result = true →
     isOptimistic (operation_context op) = false →
     fst after = Ok result
     ∧ ∃ k, k ∈ trackedKeys "" (queriesToUpdate (snd after))
            ∧ JSON_stringify k = JSON_stringify (createKey op)).
Proof.
  intros Hdef after queryNames mutationNames.
  set (d := OperationDefinition kind None selections) in *.
  assert (Hname : definitionNameOrEmpty d = "") by reflexivity.
  assert (Hq : "" ∉ queryNames → isQueryRelated cfg "" = false).
  { intros Hout. apply not_true_false. rewrite isQueryRelated_registered. exact Hout. }
  assert (Hm : "" ∉ mutationNames → isWatched (mutationQueryResolverMap cfg) "" = false).
  { intros Hout. apply not_true_false. rewrite isWatched_registered. exact Hout. }
  refine (conj Hname (conj _ (conj _ (conj _ _)))).
  - intros Hunrelated%Hq Hunwatched%Hm. subst after. unfold request. rewrite bind_run.
    rewrite (requestStart_idle op st d Hdef)
      by (rewrite Hname, Hunwatched; apply andb_false_r).
    simpl. unfold requestResult. rewrite Hname, Hunrelated, Hunwatched, !andb_false_r.
    reflexivity.
  - intros Hunrelated%Hq. subst after. unfold request. rewrite bind_run.
    destruct (fst (requestStart cfg op st)) as [d' | e] eqn:Hstart.
    + apply requestStart_definition in Hstart. rewrite Hdef in Hstart. injection Hstart as <-.
      eapply trackedWithin_trans; [| apply requestStart_within].
      apply requestResult_unrelated_within. rewrite Hname. exact Hunrelated.
    + apply requestStart_within.
  - intros Hunwatched%Hm. subst after. unfold request. rewrite bind_run.
    rewrite (requestStart_idle op st d Hdef)
      by (rewrite Hname, Hunwatched; apply andb_false_r).
    simpl. apply requestResult_unwatched; rewrite Hname; [exact Hunwatched | reflexivity].
  - intros Hrelated%isQueryRelated_registered -> Hsuccess Hplain.
    subst after. unfold request. rewrite bind_run.
    rewrite (requestStart_idle op st d Hdef) by (rewrite Hplain; reflexivity).
    simpl. unfold requestResult. rewrite then_ret_fst, then_ret_snd, Hname, Hrelated.
    unfold isSuccessfulQuery. simpl. rewrite Hsuccess. simpl.
    unfold debugLog, addRelatedQuery. rewrite bind_run, logWhen_run. simpl.
    rewrite addQuery_run, logged_queriesToUpdate. unfold queryManagerDebug.
    rewrite (tracksArray_plain "" _ eq_refl).
    destruct (existsb _ _) eqn:Hfound; simpl.
    + split; [reflexivity |]. apply List.existsb_exists in Hfound as (k & Hk & Hser).
      exists k. rewrite ?logged_queriesToUpdate. split; [apply list_elem_of_In, Hk |].
      apply String.eqb_eq, Hser.
    + split; [reflexivity |]. exists (createKey op). split; [| reflexivity].
      rewrite ?logged_queriesToUpdate, trackedKeys_insert.
      apply elem_of_app. right. left.
Qed.

End Anonymous.

Lemma anonymous_operation_uses_empty_name_witness :
  getMainDefinition (operation_query anonymousOperation)
  = Ok (OperationDefinition OpQuery None [Field "items"])
  ∧ request scenarioConfig anonymousOperation (succeededWith itemA)
      (initialState (seededStore itemA))
    = (Ok (succeededWith itemA), initialState (seededStore itemA))
  ∧ ∃ k, k ∈ trackedKeys ""
             (queriesToUpdate (snd (request emptyNameConfig anonymousOperation
                                      (succeededWith itemA) (initialState (seededStore itemA)))))
         ∧ JSON_stringify k = JSON_stringify (createKey anonymousOperation).
Proof.
  refine (conj eq_refl (conj _ _)).
  - apply (anonymous_operation_uses_empty_name scenarioConfig anonymousOperation OpQuery
             [Field "items"] (succeededWith itemA) (initialState (seededStore itemA)) eq_refl);
      vm_compute; intros Hin; repeat (inversion Hin as [| ? ? ? Hin']; clear Hin; rename Hin' into Hin).
  - apply (anonymous_operation_uses_empty_name emptyNameConfig anonymousOperation OpQuery
             [Field "items"] (succeededWith itemA) (initialState (seededStore itemA)) eq_refl);
      try reflexivity.
    vm_compute. left.
Defined.

(** ** Reverting a failed optimistic mutation *)

#[global] Instance SimpleStore_laws : CacheStoreLaws SimpleStore.
Proof.
  constructor. intros k v s. eexists. split; [reflexivity |]. split.
  - unfold cache_readQuery. simpl. unfold simple_readQuery. simpl.
    destruct (decide (k = k)); [reflexivity | contradiction].
  - intros k' Hne. unfold cache_readQuery. simpl. unfold simple_readQuery. simpl.
    destruct (decide (k = k')); [congruence | reflexivity].
Qed.

Section Revert.
Context {S : Type} `{CacheStoreLaws S}.
Variable cfg : Config.

Lemma write_read_same (k : CacheKey) (v : value) (s : S) :
  cache_readQuery k (snd (cache_writeQuery k v s)) = Ok v.
Proof. destruct (write_then_read k v s) as (s' & -> & Hsame & _). exact Hsame. Qed.

Lemma write_read_other (k k' : CacheKey) (v : value) (s : S) :
  k' ≠ k → cache_readQuery k' (snd (cache_writeQuery k v s)) = cache_readQuery k' s.
Proof. intros Hne. destruct (write_then_read k v s) as (s' & -> & _ & Hother). auto. Qed.

Lemma readValue_present (k : CacheKey) (s : S) :
  truthy (readValue k s) = true → cache_readQuery k s = Ok (readValue k s).
Proof.
  unfold readValue. destruct (cache_readQuery k s) as [v | e]; [reflexivity | discriminate].
Qed.

Lemma writeAll_other (items : list (CacheKey * value)) (s : S) (k : CacheKey) :
  (∀ it, it ∈ items → fst it ≠ k) →
  cache_readQuery k (writeAll items s) = cache_readQuery k s.
Proof.
  revert s. induction items as [| [k1 v1] items IH]; intros s Hother; [reflexivity |].
  unfold writeAll in *. simpl. rewrite IH by (intros it Hit; apply Hother; right; exact Hit).
  apply write_read_other. intros ->. apply (Hother (k1, v1)); [left | reflexivity].
Qed.

Lemma revertOne_invariant (before : S) (keys : list CacheKey) (k1 : CacheKey) (st : State S) :
  revertInvariant cfg before keys st → k1 ∈ keys →
  fst (revertOne cfg k1 st) = Ok tt
  ∧ revertInvariant cfg before keys (snd (revertOne cfg k1 st))
  ∧ restored before (snd (revertOne cfg k1 st)) k1
  ∧ ∀ k, restored before st k → restored before (snd (revertOne cfg k1 st)) k.
Proof.
  intros (Habsent & Hsnap & Hro) Hk1.
  destruct (revertOne_run cfg k1 st) as (st' & Hrun & _ & Hi & Hc & _). rewrite Hrun. simpl.
  set (prev := lookupSnapshot (ForKey k1) (inflightRequests st)) in *.
  assert (Hlookup : ∀ k, lookupSnapshot (ForKey k) (inflightRequests st')
                         = if decide (k1 = k) then VNull
                           else lookupSnapshot (ForKey k) (inflightRequests st)).
  { intros k. rewrite Hi. simpl. destruct (decide (k1 = k)) as [-> | Hne].
    - destruct (decide (ForKey k = ForKey k)); [reflexivity | contradiction].
    - destruct (decide (ForKey k1 = ForKey k)) as [[= ->] | _]; [contradiction | reflexivity]. }
  assert (Hother : ∀ k, k ≠ k1 → cache_readQuery k (cache st') = cache_readQuery k (cache st)).
  { intros k Hne. rewrite Hc. destruct (truthy prev && negb (readOnly cfg)); [| reflexivity].
    apply write_read_other, Hne. }
  assert (Hself : cache_readQuery k1 (cache st') = cache_readQuery k1 before).
  { rewrite Hc. destruct (Hsnap k1 Hk1) as [Hprev | [Hnull Hread]].
    - fold prev in Hprev. destruct (truthy prev) eqn:Ht; simpl.
      + destruct (readOnly cfg) eqn:Hmode; simpl.
        * rewrite (Hro eq_refl). reflexivity.
        * rewrite write_read_same. rewrite Hprev in Ht |- *. symmetry.
          apply readValue_present, Ht.
      + apply Habsent. rewrite <- Hprev. exact Ht.
    - fold prev in Hnull. rewrite Hnull. simpl. exact Hread. }
  assert (Hkeep : ∀ k, restored before st k → restored before st' k).
  { intros k [Hnull Hread]. split.
    - rewrite Hlookup. destruct (decide (k1 = k)); [reflexivity | exact Hnull].
    - destruct (decide (k = k1)) as [-> | Hne]; [exact Hself |].
      rewrite (Hother k Hne). exact Hread. }
  assert (Hdone : restored before st' k1).
  { split; [| exact Hself]. rewrite Hlookup. destruct (decide (k1 = k1)); [reflexivity | contradiction]. }
  refine (conj eq_refl (conj (conj _ (conj _ _)) (conj Hdone Hkeep))).
  - intros k Ht. destruct (decide (k = k1)) as [-> | Hne]; [exact Hself |].
    rewrite (Hother k Hne). apply Habsent, Ht.
  - intros k Hk. destruct (decide (k = k1)) as [-> | Hne]; [right; exact Hdone |].
    destruct (Hsnap k Hk) as [Hprev | Hrestored]; [left | right; apply Hkeep, Hrestored].
    rewrite Hlookup. destruct (decide (k1 = k)); [congruence | exact Hprev].
  - intros Hmode. rewrite Hc, Hmode, andb_false_r. apply Hro, Hmode.
Qed.

Lemma forEach_revertOne_invariant (before : S) (keys : list CacheKey) (visited : list CacheKey) :
  ∀ st : State S,
  revertInvariant cfg before keys st → (∀ k, k ∈ visited → k ∈ keys) →
  fst (forEach (revertOne cfg) visited st) = Ok tt
  ∧ revertInvariant cfg before keys (snd (forEach (revertOne cfg) visited st))
  ∧ ∀ k, k ∈ visited ∨ restored before st k →
         restored before (snd (forEach (revertOne cfg) visited st)) k.
Proof.
  induction visited as [| k1 visited IH]; intros st Hinv Hsub; simpl.
  - refine (conj eq_refl (conj Hinv _)). intros k [Hk | Hk]; [inversion Hk | exact Hk].
  - destruct (revertOne_invariant before keys k1 st Hinv) as (Hok & Hinv1 & Hdone & Hkeep);
      [apply Hsub; left |].
    rewrite bind_run, Hok.
    destruct (IH (snd (revertOne cfg k1 st)) Hinv1) as (Hok' & Hinv' & Hall);
      [intros k Hk; apply Hsub; right; exact Hk |].
    refine (conj Hok' (conj Hinv' _)). intros k Hk. apply Hall.
    destruct Hk as [Hk | Hk]; [| right; apply Hkeep, Hk].
    apply elem_of_cons in Hk as [-> | Hk]; [right; exact Hdone | left; exact Hk].
Qed.

Lemma getQueryName_of_definition (document : DocumentNode) (d : DefinitionNode) :
  getMainDefinition document = Ok d → getQueryName document = Ok (definitionNameOrEmpty d).
Proof. intros Hd. unfold getQueryName. rewrite Hd. reflexivity. Qed.

(** Dropping keys from the tracked arrays does not change which names give
    an array. *)
Lemma tracksArray_filtered (t t' : gmap string (list CacheKey))
    (p : string → CacheKey → bool) (q : string) :
  (∀ q, t' !! q = List.filter (p q) <$> (t !! q)) →
  tracksArray q t' = tracksArray q t.
Proof.
  intros Hq. unfold tracksArray, getQueryKeysToUpdate, lookupProperty. rewrite Hq.
  destruct (t !! q); reflexivity.
Qed.

Lemma registeredTrackArrays_filtered (name : string) (t t' : gmap string (list CacheKey))
    (p : string → CacheKey → bool) :
  (∀ q, t' !! q = List.filter (p q) <$> (t !! q)) →
  registeredTrackArrays cfg name t' = registeredTrackArrays cfg name t.
Proof.
  intros Hq. unfold registeredTrackArrays.
  induction (getRegisteredQueryNames (mutationQueryResolverMap cfg) name) as [| q names IH];
    simpl; [reflexivity |].
  rewrite IH, (tracksArray_filtered t t' p q Hq). reflexivity.
Qed.

(** The state in which the result of a watched optimistic mutation arrives. *)
Lemma requestStart_optimistic (op : Operation) (d : DefinitionNode) (st : State S) :
  trackerWellFormed (queriesToUpdate st) →
  getMainDefinition (operation_query op) = Ok d →
  isWatched (mutationQueryResolverMap cfg) (definitionNameOrEmpty d) = true →
  isOptimistic (operation_context op) = true →
  let name := definitionNameOrEmpty d in
  let keys := affectedKeys cfg name (queriesToUpdate st) in
  (updateFnsTotal cfg name → registeredTrackArrays cfg name (queriesToUpdate st) = true →
   fst (requestStart cfg op st) = Ok d)
  ∧ (fst (requestStart cfg op st) = Ok d →
     revertInvariant cfg (cache st) keys (snd (requestStart cfg op st))
     ∧ (∀ k, k ∈ keys → truthy (readValue k (cache st)) = true →
             k ∈ affectedKeys cfg name (queriesToUpdate (snd (requestStart cfg op st))))
     ∧ (∀ k, k ∈ affectedKeys cfg name (queriesToUpdate (snd (requestStart cfg op st))) →
             k ∈ keys)
     ∧ registeredTrackArrays cfg name (queriesToUpdate (snd (requestStart cfg op st))) = true).
Proof.
  intros Hwf Hd Hwatched Hopt name keys.
  unfold requestStart. rewrite bind_run. unfold liftOutcome. simpl. rewrite Hd. simpl.
  rewrite then_ret_fst, then_ret_snd, Hopt, Hwatched. simpl. fold name. rewrite bind_run.
  pose proof (addOptimisticRequest_run cfg name st) as Hadd.
  destruct (registeredTrackArrays cfg name (queriesToUpdate st)) eqn:Harrays.
  2: { rewrite Hadd. simpl. split; discriminate. }
  destruct Hadd as (st1 & Hrun & Hc1 & Hq1 & He1 & Hi1).
  rewrite Hrun. simpl. split.
  - intros Htotal _.
    rewrite updateQueriesAfterMutation_total; [reflexivity | | | exact Htotal |].
    + rewrite Hq1. exact Hwf.
    + apply getQueryName_of_definition, Hd.
    + rewrite Hq1. exact Harrays.
  - destruct (updateQueriesAfterMutation cfg op name
                (VObj [("data", optimisticResponse (operation_context op))]) st1)
      as [o st2] eqn:Hupdate.
    simpl. intros Hok. assert (o = Ok tt) as -> by (destruct o as [[] |]; [reflexivity | discriminate]).
    apply updateQueriesAfterMutation_run in Hupdate. rewrite Hq1, Hc1 in Hupdate. fold keys in Hupdate.
    destruct Hupdate as (Hi2 & (processed & Hsub & Hall & Hq2) & (items & new & Hitems & _ & Hc2 & _)).
    rewrite (Hall eq_refl) in Hq2. clear Hall Hsub processed.
    rewrite Forall_forall in Hitems.
    refine (conj (conj _ (conj _ _)) (conj _ (conj _ _)));
      [| | | | | rewrite (registeredTrackArrays_filtered name _ _ _ Hq2); exact Harrays].
    + intros k Habsent. rewrite Hc2. destruct (readOnly cfg); [reflexivity |].
      apply writeAll_other. intros it Hit Heq. destruct (Hitems it Hit) as [_ Ht].
      rewrite Heq in Ht. congruence.
    + intros k Hk. left. rewrite Hi2, Hi1. apply lookupSnapshot_snapshotsOf, Hk.
    + intros Hmode. rewrite Hc2, Hmode. reflexivity.
    + intros k Hk Hpresent. apply elem_of_affectedKeys in Hk as (q & l & Hq & Hl & Hin).
      apply elem_of_affectedKeys. exists q. eexists. split; [exact Hq |].
      rewrite Hq2, Hl. simpl. split; [reflexivity |]. apply elem_of_filter_bool.
      split; [exact Hin |].
      rewrite (droppedBy_present cfg name (queriesToUpdate st) (cache st) q keys l k);
        auto.
    + intros k Hk. apply elem_of_affectedKeys in Hk as (q & l' & Hq & Hl' & Hin).
      apply elem_of_affectedKeys. exists q. rewrite Hq2 in Hl'.
      destruct (queriesToUpdate st !! q) as [l |]; [| discriminate]. simpl in Hl'.
      injection Hl' as <-. exists l. refine (conj Hq (conj eq_refl _)).
      apply elem_of_filter_bool in Hin as [Hin _]. exact Hin.
Qed.

(** C6.  Take a watched mutation run optimistically on a well-formed
    tracker and a store that reads back what is written.  Its optimistic
    phase completes whenever the update functions registered for it do not
    throw and the tracker returns an array for every query name registered
    for it (as it does unless such a name is inherited from
    [Object.prototype] and was never tracked).  When it has completed and the mutation then fails, the request
    returns the failure and, for every affected key, the store reads exactly
    what it read before the mutation, and the snapshot store answers an
    absent (falsy) value, which is null when there was data to restore. *)
Theorem failed_optimistic_mutation_is_reverted (op : Operation) (d : DefinitionNode)
    (result : FetchResult) (st : State S) :
  trackerWellFormed (queriesToUpdate st) →
  getMainDefinition (operation_query op) = Ok d →
  definitionOperation d = Some OpMutation →
  isWatched (mutationQueryResolverMap cfg) (definitionNameOrEmpty d) = true →
  isOptimistic (operation_context op) = true →
  isSuccess result = false →
  let name := definitionNameOrEmpty d in
  let keys := affectedKeys cfg name (queriesToUpdate st) in
  let after := snd (request cfg op result st) in
  (updateFnsTotal cfg name → registeredTrackArrays cfg name (queriesToUpdate st) = true →
   fst (requestStart cfg op st) = Ok d)
  ∧ (fst (requestStart cfg op st) = Ok d →
     fst (request cfg op result st) = Ok result
     ∧ ∀ k, k ∈ keys →
         cache_readQuery k (cache after) = cache_readQuery k (cache st)
         ∧ ∃ v, fst (getBeforeState (ForKey k) after) = Ok v
                ∧ truthy v = false
                ∧ (truthy (readValue k (cache st)) = true → v = VNull)).
Proof.
  intros Hwf Hd Hmutation Hwatched Hopt Hfailed name keys after.
  destruct (requestStart_optimistic op d st Hwf Hd Hwatched Hopt) as [Htotal Hstarted].
  split; [exact Htotal |]. intros Hstart.
  destruct (Hstarted Hstart) as (Hinv & Hkept & Hsub & Harrays). clear Hstarted Htotal.
  subst after. unfold request. rewrite bind_run, Hstart.
  set (st2 := snd (requestStart cfg op st)) in *.
  unfold requestResult. rewrite then_ret_fst, then_ret_snd.
  unfold isSuccessfulQuery, isSuccessfulMutation, isFailedMutation.
  rewrite Hmutation, Hfailed, Hopt, Hwatched. simpl. fold name.
  unfold revertOptimisticRequest. rewrite bind_run, getCachedQueryKeysToUpdate_run.
  change (registeredTrackArrays cfg name (queriesToUpdate st2))
    with (registeredTrackArrays cfg (definitionNameOrEmpty d) (queriesToUpdate st2)).
  rewrite Harrays. simpl.
  destruct (forEach_revertOne_invariant (cache st) keys
              (affectedKeys cfg name (queriesToUpdate st2)) st2 Hinv Hsub)
    as (Hok & (Habsent & Hsnap & _) & Hrestored).
  rewrite Hok. split; [reflexivity |]. intros k Hk.
  destruct (truthy (readValue k (cache st))) eqn:Hpresent.
  - destruct (Hrestored k (or_introl (Hkept k Hk Hpresent))) as [Hnull Hread].
    split; [exact Hread |]. exists VNull. unfold getBeforeState. simpl. rewrite Hnull. auto.
  - split; [apply Habsent, Hpresent |]. unfold getBeforeState. simpl.
    destruct (Hsnap k Hk) as [Hprev | [Hnull _]].
    + eexists. split; [reflexivity |]. rewrite Hprev. split; [exact Hpresent | discriminate].
    + eexists. split; [reflexivity |]. rewrite Hnull. split; [reflexivity | discriminate].
Qed.

End Revert.

(** ** The tracker invariant is kept by the link *)

Section TrackerInvariant.
Context {S : Type} `{CacheStore S}.
Variable cfg : Config.

Lemma trackerWellFormed_empty : trackerWellFormed ∅.
Proof. intros q keys Hl. rewrite lookup_empty in Hl. discriminate. Qed.

Lemma NoDup_map_filter {A B} (f : A → B) (p : A → bool) (l : list A) :
  NoDup (List.map f l) → NoDup (List.map f (List.filter p l)).
Proof.
  induction l as [| a l IH]; simpl; intros Hnd; [constructor |].
  apply NoDup_cons in Hnd as [Ha Hnd]. destruct (p a); simpl; [| auto].
  apply NoDup_cons. split; [| auto]. intros Hin. apply Ha.
  apply list_elem_of_In, List.in_map_iff in Hin as (x & Hx & Hin).
  apply List.filter_In in Hin as [Hin _]. rewrite <- Hx.
  apply list_elem_of_In, List.in_map, Hin.
Qed.

Lemma trackerWellFormed_filtered (t t' : gmap string (list CacheKey))
    (p : string → CacheKey → bool) :
  trackerWellFormed t →
  (∀ q, t' !! q = List.filter (p q) <$> (t !! q)) →
  trackerWellFormed t'.
Proof.
  intros Hwf Hq q keys' Hl'. rewrite Hq in Hl'.
  destruct (t !! q) as [keys |] eqn:Hl; [| discriminate]. simpl in Hl'. injection Hl' as <-.
  destruct (Hwf q keys Hl) as [Hnames Hnd]. split.
  - intros k Hk. apply elem_of_filter_bool in Hk as [Hk _]. auto.
  - apply NoDup_map_filter, Hnd.
Qed.

Lemma addQuery_wellFormed (name : string) (k : CacheKey) (st : State S) :
  trackerWellFormed (queriesToUpdate st) →
  getQueryName (query k) = Ok name →
  trackerWellFormed (queriesToUpdate (snd (addQuery queryManagerDebug name k st))).
Proof.
  intros Hwf Hname. rewrite addQuery_run.
  destruct (tracksArray _ _); [| exact Hwf].
  destruct (existsb _ _) eqn:Hfound; [exact Hwf |].
  rewrite logWhen_run. simpl. intros q keys Hl.
  destruct (decide (q = name)) as [-> | Hne].
  2: { rewrite lookup_insert_ne in Hl by congruence. apply (Hwf q keys Hl). }
  rewrite lookup_insert_eq in Hl. injection Hl as <-.
  assert (Hold : (∀ k', k' ∈ trackedKeys name (queriesToUpdate st) →
                        getQueryName (query k') = Ok name)
                 ∧ NoDup (List.map JSON_stringify
                            (trackedKeys name (queriesToUpdate st)))).
  { unfold trackedKeys. destruct (queriesToUpdate st !! name) as [l |] eqn:Hl.
    - apply (Hwf name l Hl).
    - split; [intros k' Hk'; inversion Hk' | constructor]. }
  destruct Hold as [Hnames Hnd]. split.
  - intros k' Hk'. apply elem_of_app in Hk' as [Hk' | Hk']; [auto |].
    apply list_elem_of_singleton in Hk' as ->. exact Hname.
  - rewrite List.map_app. simpl. apply NoDup_app. refine (conj Hnd (conj _ _)).
    + intros s Hs Hs'. apply list_elem_of_singleton in Hs' as ->.
      apply list_elem_of_In, List.in_map_iff in Hs as (k' & Hser & Hk').
      assert (Hex : existsb (λ key, sameSerialisation key k)
                      (trackedKeys name (queriesToUpdate st)) = true).
      { apply List.existsb_exists. exists k'. split; [exact Hk' |].
        unfold sameSerialisation. rewrite Hser. apply String.eqb_refl. }
      rewrite Hex in Hfound. discriminate.
    + apply NoDup_singleton.
Qed.

Lemma updateQueriesAfterMutation_wellFormed (op : Operation) (name : string) (data : value)
    (st : State S) :
  trackerWellFormed (queriesToUpdate st) →
  trackerWellFormed (queriesToUpdate (snd (updateQueriesAfterMutation cfg op name data st))).
Proof.
  intros Hwf. destruct (updateQueriesAfterMutation cfg op name data st) as [o st'] eqn:Hrun.
  apply updateQueriesAfterMutation_run in Hrun.
  destruct Hrun as (_ & (processed & _ & _ & Hq) & _). simpl.
  eapply (trackerWellFormed_filtered _ _
            (λ q key, negb (droppedBy (cache st) q processed key))); [exact Hwf | exact Hq].
Qed.

(** A request keeps the tracker well formed; the tracker of a new link is
    empty, hence well formed, so every tracker a link reaches is. *)
Lemma request_wellFormed (op : Operation) (result : FetchResult) (st : State S) :
  trackerWellFormed (queriesToUpdate st) →
  trackerWellFormed (queriesToUpdate (snd (request cfg op result st))).
Proof.
  intros Hwf. unfold request. rewrite bind_run.
  assert (Hstart : trackerWellFormed (queriesToUpdate (snd (requestStart cfg op st)))).
  { unfold requestStart. rewrite bind_run. unfold liftOutcome. simpl.
    destruct (getMainDefinition (operation_query op)) as [d | e]; simpl; [| exact Hwf].
    rewrite then_ret_snd. destruct (isOptimistic _ && isWatched _ _); [| exact Hwf].
    rewrite bind_run.
    pose proof (addOptimisticRequest_run cfg (definitionNameOrEmpty d) st) as Hadd.
    destruct (registeredTrackArrays cfg (definitionNameOrEmpty d) (queriesToUpdate st));
      [| rewrite Hadd; exact Hwf].
    destruct Hadd as (st1 & Hrun & _ & Hq & _).
    rewrite Hrun. simpl. apply updateQueriesAfterMutation_wellFormed. rewrite Hq. exact Hwf. }
  destruct (fst (requestStart cfg op st)) as [d | e] eqn:Hd; [| exact Hstart].
  apply requestStart_definition in Hd.
  set (st1 := snd (requestStart cfg op st)) in *.
  unfold requestResult. rewrite then_ret_snd.
  destruct (isSuccessfulQuery _ result && isQueryRelated cfg _).
  { unfold debugLog, addRelatedQuery. rewrite bind_run, logWhen_run. simpl.
    apply addQuery_wellFormed.
    - rewrite logged_queriesToUpdate. exact Hstart.
    - simpl. apply getQueryName_of_definition, Hd. }
  destruct (isSuccessfulMutation _ result && isWatched _ _).
  { destruct (isOptimistic (operation_context op)).
    - destruct (clearOptimisticRequest_run cfg (ForName (definitionNameOrEmpty d)) st1)
        as (st2 & -> & _ & Hq & _). simpl. rewrite Hq. exact Hstart.
    - apply updateQueriesAfterMutation_wellFormed, Hstart. }
  destruct (isFailedMutation _ result && isWatched _ _ && isOptimistic _); [| exact Hstart].
  unfold revertOptimisticRequest. rewrite bind_run, getCachedQueryKeysToUpdate_run.
  destruct (registeredTrackArrays cfg (definitionNameOrEmpty d) (queriesToUpdate st1)); simpl;
    [| exact Hstart].
  destruct (forEach_revertOne_tracker cfg
              (affectedKeys cfg (definitionNameOrEmpty d) (queriesToUpdate st1)) st1)
    as [_ ->]. exact Hstart.
Qed.

End TrackerInvariant.

Lemma afterListItems_wellFormed (A : value) :
  trackerWellFormed (queriesToUpdate (afterListItems A)).
Proof. apply request_wellFormed, trackerWellFormed_empty. Qed.

Lemma failed_optimistic_mutation_is_reverted_witness :
  trackerWellFormed (queriesToUpdate (afterListItems itemA))
  ∧ listItemsKey ∈ affectedKeys scenarioConfig "AddItem" (queriesToUpdate (afterListItems itemA))
  ∧ cache_readQuery listItemsKey (cache (afterOptimisticAddItem itemA itemB))
    = Ok (itemsOf [itemA; itemB])
  ∧ fst (request scenarioConfig (addItemOptimistic itemB) failedResult (afterListItems itemA))
    = Ok failedResult
  ∧ cache_readQuery listItemsKey (cache (afterAddItemResolved itemA itemB failedResult))
    = cache_readQuery listItemsKey (cache (afterListItems itemA))
  ∧ ∃ v, fst (getBeforeState (ForKey listItemsKey)
                (afterAddItemResolved itemA itemB failedResult)) = Ok v
         ∧ truthy v = false.
Proof.
  pose proof (failed_optimistic_mutation_is_reverted scenarioConfig (addItemOptimistic itemB)
                (OperationDefinition OpMutation (Some "AddItem") [Field "addItem"])
                failedResult (afterListItems itemA) (afterListItems_wellFormed itemA)
                eq_refl eq_refl eq_refl eq_refl eq_refl) as [_ Hreverted].
  assert (Hin : listItemsKey ∈ affectedKeys scenarioConfig "AddItem"
                                 (queriesToUpdate (afterListItems itemA))).
  { vm_compute. left. }
  destruct (Hreverted eq_refl) as [Hok Hkeys].
  destruct (Hkeys listItemsKey Hin) as [Hread (v & Hv & Habsent & _)].
  refine (conj (afterListItems_wellFormed itemA) (conj Hin (conj eq_refl (conj Hok (conj Hread _))))).
  exists v. split; [exact Hv | exact Habsent].
Defined.

(** ** The scenario, and the resolution of an optimistic mutation *)

(** C1 (the code departs from the claim).  In the AddItem / ListItems
    scenario the optimistic AddItem affects the key of ListItems, whose
    snapshot is the seeded data.  After AddItem has resolved successfully the
    snapshot of that key is still the seeded data, not the absent marker:
    the success path clears the entry named by the operation name
    ([clearOptimisticRequest(operationName)]) instead of the entries of the
    affected keys. *)
Theorem optimistic_success_keeps_snapshot (A B B' : value) :
  affectedKeys scenarioConfig "AddItem" (queriesToUpdate (afterListItems A))
    = [listItemsKey]
  ∧ fst (getBeforeState (ForKey listItemsKey)
           (afterAddItemResolved A B (succeededWith B'))) = Ok (itemsOf [A])
  ∧ truthy (itemsOf [A]) = true
  ∧ fst (getBeforeState (ForName "AddItem")
           (afterAddItemResolved A B (succeededWith B'))) = Ok VNull.
Proof. repeat split; vm_compute; reflexivity. Qed.

(** C2, as stated, fails: with A, B, B' three distinct items, the cached
    entry of ListItems after the confirmed success is not [{items:[A,B']}]. *)
Lemma scenario_entry_is_not_server_item :
  cache_readQuery listItemsKey
    (cache (afterAddItemResolved itemA itemB (succeededWith itemB')))
  ≠ Ok (itemsOf [itemA; itemB']).
Proof. vm_compute. discriminate. Qed.

(** C2 (amended).  In the scenario the optimistic run makes the cached entry
    of ListItems [{items:[A,B]}], and after the mutation has resolved
    successfully with the server's item B' the entry is still
    [{items:[A,B]}]: the success path of an optimistic mutation clears a
    snapshot and writes nothing. *)
Theorem scenario_entry_after_confirmation (A B B' : value) :
  cache_readQuery listItemsKey (cache (afterListItems A)) = Ok (itemsOf [A])
  ∧ cache_readQuery listItemsKey (cache (afterOptimisticAddItem A B)) = Ok (itemsOf [A; B])
  ∧ fst (request scenarioConfig (addItemOptimistic B) (succeededWith B') (afterListItems A))
      = Ok (succeededWith B')
  ∧ cache_readQuery listItemsKey (cache (afterAddItemResolved A B (succeededWith B')))
      = Ok (itemsOf [A; B]).
Proof. repeat split; vm_compute; reflexivity. Qed.

(** * Further properties *)

(** ** The tracker: removal, round trips, invariant *)

Section TrackerMore.
Context {S : Type}.

Lemma filter_unmatched (k : CacheKey) (l : list CacheKey) :
  existsb (λ key, sameSerialisation key k) l = false →
  List.filter (λ key, negb (sameSerialisation key k)) l = l.
Proof.
  induction l as [| x l IH]; simpl; [reflexivity |].
  intros Hnone. apply orb_false_elim in Hnone as [Hx Hl]. rewrite Hx, (IH Hl). reflexivity.
Qed.

Lemma existsb_filter_unmatched (k : CacheKey) (l : list CacheKey) :
  existsb (λ key, sameSerialisation key k)
    (List.filter (λ key, negb (sameSerialisation key k)) l) = false.
Proof.
  induction l as [| x l IH]; simpl; [reflexivity |].
  destruct (sameSerialisation x k) eqn:Hx; simpl; [exact IH |]. rewrite Hx, IH. reflexivity.
Qed.

(** After a successful [addQuery] some tracked key has the serialisation of
    the key. *)
Lemma addQuery_tracks (d : bool) (q : string) (k : CacheKey) (st : State S) :
  tracksArray q (queriesToUpdate st) = true →
  fst (addQuery d q k st) = Ok tt
  ∧ tracksArray q (queriesToUpdate (snd (addQuery d q k st))) = true
  ∧ existsb (λ key, sameSerialisation key k)
      (trackedKeys q (queriesToUpdate (snd (addQuery d q k st)))) = true.
Proof.
  intros Harray. rewrite addQuery_run, Harray.
  destruct (existsb _ (trackedKeys q (queriesToUpdate st))) eqn:Hfound; [auto |].
  rewrite logWhen_run. simpl. rewrite logged_queriesToUpdate. simpl.
  rewrite (tracksArray_insert _ _ _ _ Harray), trackedKeys_insert, existsb_app. simpl.
  rewrite sameSerialisation_refl, !orb_true_r. auto.
Qed.

Lemma hasQueryToUpdate_run (q : string) (st : State S) :
  hasQueryToUpdate q st
  = (Ok (match valueLength (getQueryKeysToUpdate q (queriesToUpdate st)) with
         | Some length => (0 <? length)%nat
         | None => false
         end), st).
Proof. reflexivity. Qed.

Lemma removeQuery_unmatched_is_noop_aux (d : bool) (q : string) (k : CacheKey)
    (st : State S) (l : list CacheKey) :
  queriesToUpdate st !! q = Some l →
  existsb (λ key, sameSerialisation key k) l = false →
  removeQuery d q k st = (Ok tt, st).
Proof.
  intros Hl Hnone.
  unfold removeQuery, bind, readQueryKeysToUpdate, getState, getQueryKeysToUpdate,
    lookupProperty. simpl.
  rewrite Hl. simpl. rewrite Hl. simpl.
  rewrite (filter_unmatched k l Hnone), Nat.eqb_refl. reflexivity.
Qed.

(** X1.  On a tracked name, removing a key whose serialisation no tracked
    key has succeeds and leaves the whole state as it was: nothing is
    assigned and nothing is logged. *)
Theorem removeQuery_unmatched_is_noop (d : bool) (q : string) (k : CacheKey)
    (st : State S) (l : list CacheKey) :
  queriesToUpdate st !! q = Some l →
  existsb (λ key, sameSerialisation key k) l = false →
  removeQuery d q k st = (Ok tt, st).
Proof. apply removeQuery_unmatched_is_noop_aux. Qed.

(** X2.  On a name for which the tracker returns an array (a tracked
    name, or one that is not inherited from [Object.prototype]), adding a
    key that is new for the name and removing it again succeeds and gives
    back, for every name, the keys tracked before. *)
Theorem addQuery_then_removeQuery_restores (d : bool) (q : string) (k : CacheKey)
    (st : State S) :
  tracksArray q (queriesToUpdate st) = true →
  existsb (λ key, sameSerialisation key k) (trackedKeys q (queriesToUpdate st)) = false →
  fst (addQuery d q k st) = Ok tt
  ∧ fst (removeQuery d q k (snd (addQuery d q k st))) = Ok tt
  ∧ ∀ q', trackedKeys q'
            (queriesToUpdate (snd (removeQuery d q k (snd (addQuery d q k st)))))
          = trackedKeys q' (queriesToUpdate st).
Proof.
  intros Harray Hnew. rewrite addQuery_run, Harray, Hnew, logWhen_run. simpl.
  split; [reflexivity |].
  set (l := trackedKeys q (queriesToUpdate st)) in *.
  set (st1 := logged d _ _).
  pose proof (removeQuery_run d q k st1) as Hrem.
  assert (Hq1 : queriesToUpdate st1 = <[q := l ++ [k]]> (queriesToUpdate st))
    by (unfold st1; rewrite logged_queriesToUpdate; reflexivity).
  rewrite Hq1, lookup_insert_eq in Hrem. destruct Hrem as (st2 & -> & Hq2 & _). simpl.
  split; [reflexivity |]. intros q'. rewrite Hq2, List.filter_app. simpl.
  rewrite sameSerialisation_refl. simpl. rewrite app_nil_r, (filter_unmatched k l Hnew).
  destruct (decide (q = q')) as [<- | Hne].
  - rewrite trackedKeys_insert. reflexivity.
  - rewrite !trackedKeys_insert_ne by exact Hne. reflexivity.
Qed.

(** X3.  On a tracked name [removeQuery] succeeds, drops every key that has
    the serialisation of the given key and keeps the others in their order;
    the keys of the other names are untouched, and removing the same key
    once more changes nothing. *)
Theorem removeQuery_removes_every_match (d : bool) (q : string) (k : CacheKey)
    (st : State S) (l : list CacheKey) :
  queriesToUpdate st !! q = Some l →
  fst (removeQuery d q k st) = Ok tt
  ∧ trackedKeys q (queriesToUpdate (snd (removeQuery d q k st)))
    = List.filter (λ key, negb (sameSerialisation key k)) l
  ∧ existsb (λ key, sameSerialisation key k)
      (trackedKeys q (queriesToUpdate (snd (removeQuery d q k st)))) = false
  ∧ (∀ q', q' ≠ q →
       trackedKeys q' (queriesToUpdate (snd (removeQuery d q k st)))
       = trackedKeys q' (queriesToUpdate st))
  ∧ removeQuery d q k (snd (removeQuery d q k st)) = (Ok tt, snd (removeQuery d q k st)).
Proof.
  intros Hl. pose proof (removeQuery_run d q k st) as Hrem. rewrite Hl in Hrem.
  destruct Hrem as (st1 & -> & Hq1 & _). simpl.
  assert (Hkeys : trackedKeys q (queriesToUpdate st1)
                  = List.filter (λ key, negb (sameSerialisation key k)) l)
    by (rewrite Hq1; apply trackedKeys_insert).
  refine (conj eq_refl (conj Hkeys (conj _ (conj _ _)))).
  - rewrite Hkeys. apply existsb_filter_unmatched.
  - intros q' Hne. rewrite Hq1. apply trackedKeys_insert_ne. congruence.
  - eapply removeQuery_unmatched_is_noop_aux.
    + rewrite Hq1. apply lookup_insert_eq.
    + apply existsb_filter_unmatched.
Qed.

(** X4.  [addQuery] and [removeQuery] keep the serialisations of the keys
    tracked under each name distinct. *)
Theorem tracker_serialisations_stay_distinct (d : bool) (q : string) (k : CacheKey)
    (st : State S) :
  serialisationsDistinct (queriesToUpdate st) →
  serialisationsDistinct (queriesToUpdate (snd (addQuery d q k st)))
  ∧ serialisationsDistinct (queriesToUpdate (snd (removeQuery d q k st))).
Proof.
  intros Hdistinct. split.
  - rewrite addQuery_run. destruct (tracksArray _ _); [| exact Hdistinct].
    destruct (existsb _ (trackedKeys q (queriesToUpdate st))) eqn:Hfound;
      [exact Hdistinct |].
    rewrite logWhen_run. simpl. rewrite logged_queriesToUpdate. simpl. intros q' keys Hl.
    destruct (decide (q' = q)) as [-> | Hne].
    2: { rewrite lookup_insert_ne in Hl by congruence. apply (Hdistinct q' keys Hl). }
    rewrite lookup_insert_eq in Hl. injection Hl as <-.
    rewrite List.map_app. simpl. apply NoDup_app. refine (conj _ (conj _ _)).
    + unfold trackedKeys. destruct (queriesToUpdate st !! q) as [l |] eqn:Hl.
      * apply (Hdistinct q l Hl).
      * constructor.
    + intros s Hs Hs'. apply list_elem_of_singleton in Hs' as ->.
      apply list_elem_of_In, List.in_map_iff in Hs as (k' & Hser & Hk').
      assert (Hex : existsb (λ key, sameSerialisation key k)
                      (trackedKeys q (queriesToUpdate st)) = true).
      { apply List.existsb_exists. exists k'. split; [exact Hk' |].
        unfold sameSerialisation. rewrite Hser. apply String.eqb_refl. }
      rewrite Hex in Hfound. discriminate.
    + apply NoDup_singleton.
  - pose proof (removeQuery_run d q k st) as Hrem.
    destruct (queriesToUpdate st !! q) as [l |] eqn:Hl.
    + destruct Hrem as (st1 & -> & Hq1 & _). simpl. rewrite Hq1. intros q' keys Hl'.
      destruct (decide (q' = q)) as [-> | Hne].
      * rewrite lookup_insert_eq in Hl'. injection Hl' as <-.
        apply NoDup_map_filter, (Hdistinct q l Hl).
      * rewrite lookup_insert_ne in Hl' by congruence. apply (Hdistinct q' keys Hl').
    + rewrite Hrem. exact Hdistinct.
Qed.

(** X5.  The debug flag of the tracker only adds console output: with it
    [addQuery] and [removeQuery] return the same outcome and leave the same
    tracker (and everything else but the console) as without it. *)
Theorem tracker_debug_only_logs (d : bool) (q : string) (k : CacheKey) (st : State S) :
  fst (addQuery d q k st) = fst (addQuery false q k st)
  ∧ sameButConsole (snd (addQuery false q k st)) (snd (addQuery d q k st))
  ∧ fst (removeQuery d q k st) = fst (removeQuery false q k st)
  ∧ sameButConsole (snd (removeQuery false q k st)) (snd (removeQuery d q k st)).
Proof.
  refine (conj _ (conj _ _)).
  - rewrite !addQuery_run. destruct (tracksArray _ _); [| reflexivity].
    destruct (existsb _ _); [reflexivity |].
    rewrite !logWhen_run. reflexivity.
  - rewrite !addQuery_run. destruct (tracksArray _ _); [| repeat split].
    destruct (existsb _ _); [repeat split |].
    rewrite !logWhen_run. simpl. destruct d; repeat split.
  - pose proof (removeQuery_run d q k st) as Hd.
    pose proof (removeQuery_run false q k st) as Hf.
    destruct (queriesToUpdate st !! q) as [l |].
    + destruct Hd as (sd & -> & Hqd & Hcd & Hid & Hed).
      destruct Hf as (sf & -> & Hqf & Hcf & Hif & Hef).
      split; [reflexivity |]. repeat split; simpl; congruence.
    + rewrite Hd, Hf. split; [reflexivity |]. repeat split.
Qed.

(** X6.  The tracker compares keys through [JSON.stringify], which drops a
    property whose value is undefined: a key that differs from a tracked key
    only by a variable whose value is undefined is a different key, yet
    registering it after the other ends as registering the other did and
    changes nothing; and registering the other succeeds on every name for
    which the tracker returns an array. *)
Theorem addQuery_ignores_undefined_variables (d : bool) (q : string)
    (document : DocumentNode) (name : string) (others : list (string * value))
    (st : State S) :
  let tracked := {| query := document; variables := VObj others |} in
  let again := {| query := document; variables := VObj ((name, VUndefined) :: others) |} in
  tracked ≠ again
  ∧ addQuery d q again (snd (addQuery d q tracked st))
    = (fst (addQuery d q tracked st), snd (addQuery d q tracked st))
  ∧ (tracksArray q (queriesToUpdate st) = true → fst (addQuery d q tracked st) = Ok tt).
Proof.
  intros tracked again. refine (conj _ (conj _ _)).
  - intros Heq. injection Heq as Heq. apply (f_equal (@List.length _)) in Heq.
    simpl in Heq. lia.
  - apply addQuery_repeated. reflexivity.
  - intros Harray. apply addQuery_tracks, Harray.
Qed.

(** X7.  On a name for which the tracker returns an array (a tracked name,
    or one that is not inherited from [Object.prototype]): after [addQuery]
    the name has a query to update; and when the name was never tracked,
    after a key has been added and removed again the name has none. *)
Theorem hasQueryToUpdate_follows_the_keys (d : bool) (q : string) (k : CacheKey)
    (st : State S) :
  tracksArray q (queriesToUpdate st) = true →
  hasQueryToUpdate q (snd (addQuery d q k st)) = (Ok true, snd (addQuery d q k st))
  ∧ (queriesToUpdate st !! q = None →
     fst (hasQueryToUpdate q (snd (removeQuery d q k (snd (addQuery d q k st))))) = Ok false).
Proof.
  intros Harray. split.
  - destruct (addQuery_tracks d q k st Harray) as (_ & Harray' & Htracked).
    rewrite hasQueryToUpdate_run, (getQueryKeysToUpdate_array _ _ Harray'). simpl.
    destruct (trackedKeys q (queriesToUpdate (snd (addQuery d q k st))));
      [discriminate | reflexivity].
  - intros Hnew.
    assert (Hfresh : existsb (λ key, sameSerialisation key k)
                       (trackedKeys q (queriesToUpdate st)) = false)
      by (unfold trackedKeys; rewrite Hnew; reflexivity).
    rewrite addQuery_run, Harray, Hfresh, logWhen_run. cbn [snd].
    set (st1 := logged d _ _).
    pose proof (removeQuery_run d q k st1) as Hrem.
    assert (Hq1 : queriesToUpdate st1 !! q = Some ([] ++ [k])).
    { unfold st1. rewrite logged_queriesToUpdate. simpl.
      unfold trackedKeys. rewrite Hnew. apply lookup_insert_eq. }
    rewrite Hq1 in Hrem. destruct Hrem as (st2 & -> & Hq2 & _). cbn [snd].
    rewrite hasQueryToUpdate_run. cbn [fst].
    rewrite (getQueryKeysToUpdate_array q (queriesToUpdate st2))
      by (apply (tracksArray_own _ _ (List.filter (λ key, negb (sameSerialisation key k))
                                        ([] ++ [k])));
          rewrite Hq2; apply lookup_insert_eq).
    rewrite Hq2, trackedKeys_insert. simpl.
    rewrite sameSerialisation_refl. reflexivity.
Qed.

End TrackerMore.

Lemma afterListItems_tracked (A : value) :
  queriesToUpdate (afterListItems A) !! "ListItems" = Some [listItemsKey].
Proof. reflexivity. Qed.

Lemma removeQuery_unmatched_is_noop_witness :
  removeQuery true "ListItems" filteredListItemsKey (afterListItems itemA)
  = (Ok tt, afterListItems itemA).
Proof.
  apply (removeQuery_unmatched_is_noop true "ListItems" filteredListItemsKey
           (afterListItems itemA) [listItemsKey]); reflexivity.
Defined.

Lemma addQuery_then_removeQuery_restores_witness :
  fst (removeQuery false "ListItems" filteredListItemsKey
         (snd (addQuery false "ListItems" filteredListItemsKey (afterListItems itemA)))) = Ok tt
  ∧ trackedKeys "ListItems"
      (queriesToUpdate
         (snd (removeQuery false "ListItems" filteredListItemsKey
                 (snd (addQuery false "ListItems" filteredListItemsKey (afterListItems itemA))))))
    = [listItemsKey].
Proof.
  destruct (addQuery_then_removeQuery_restores false "ListItems" filteredListItemsKey
              (afterListItems itemA) eq_refl eq_refl) as (_ & Hok & Hkeys).
  split; [exact Hok | apply (Hkeys "ListItems")].
Defined.

Lemma removeQuery_removes_every_match_witness :
  fst (removeQuery false "ListItems" listItemsKey (afterListItems itemA)) = Ok tt
  ∧ trackedKeys "ListItems"
      (queriesToUpdate (snd (removeQuery false "ListItems" listItemsKey (afterListItems itemA))))
    = [].
Proof.
  destruct (removeQuery_removes_every_match false "ListItems" listItemsKey
              (afterListItems itemA) [listItemsKey] eq_refl) as (Hok & Hkeys & _).
  split; [exact Hok | exact Hkeys].
Defined.

Lemma serialisationsDistinct_empty : serialisationsDistinct ∅.
Proof. intros q keys Hl. rewrite lookup_empty in Hl. discriminate. Qed.

Lemma tracker_serialisations_stay_distinct_witness :
  serialisationsDistinct (queriesToUpdate (initialState emptyStore))
  ∧ serialisationsDistinct
      (queriesToUpdate (snd (addQuery false "ListItems" listItemsKey (initialState emptyStore)))).
Proof.
  split; [apply serialisationsDistinct_empty |].
  apply (tracker_serialisations_stay_distinct false "ListItems" listItemsKey
           (initialState emptyStore) serialisationsDistinct_empty).
Defined.

Lemma hasQueryToUpdate_follows_the_keys_witness :
  queriesToUpdate (initialState emptyStore) !! "ListItems" = None
  ∧ fst (hasQueryToUpdate "ListItems"
           (snd (addQuery false "ListItems" listItemsKey (initialState emptyStore)))) = Ok true
  ∧ fst (hasQueryToUpdate "ListItems"
           (snd (removeQuery false "ListItems" listItemsKey
                   (snd (addQuery false "ListItems" listItemsKey (initialState emptyStore))))))
    = Ok false.
Proof.
  destruct (hasQueryToUpdate_follows_the_keys false "ListItems" listItemsKey
              (initialState emptyStore) eq_refl) as [Hadded Hremoved].
  refine (conj eq_refl (conj _ (Hremoved eq_refl))). rewrite Hadded. reflexivity.
Defined.

(** ** The cache manager: fault tolerance and round trip *)

Section CacheManagerMore.
Context {S : Type} `{CacheStore S}.

(** X8.  [read] never throws: it returns what the store returns, or
    undefined when the store throws, and apart from the console it leaves
    the state as it was; without debug it leaves the state exactly as it
    was. *)
Theorem read_never_throws (d : bool) (queryKey : CacheKey) (st : State S) :
  fst (read d queryKey st) = Ok (readValue queryKey (cache st))
  ∧ sameButConsole st (snd (read d queryKey st))
  ∧ snd (read false queryKey st) = st
  ∧ (∀ v, cache_readQuery queryKey (cache st) = Ok v → read d queryKey st = (Ok v, st))
  ∧ (∀ e, cache_readQuery queryKey (cache st) = Throw e →
          fst (read d queryKey st) = Ok VUndefined).
Proof.
  destruct (read_run d queryKey st) as (st1 & Hrun & Hsame). rewrite Hrun. simpl.
  refine (conj eq_refl (conj Hsame (conj _ (conj _ _)))).
  - unfold read, tryCatch, storeRead.
    destruct (cache_readQuery queryKey (cache st)); reflexivity.
  - intros v Hv. rewrite <- Hrun. unfold read, tryCatch, storeRead. rewrite Hv. reflexivity.
  - intros e He. unfold readValue. rewrite He. reflexivity.
Qed.

(** X9.  [write] never throws, not even when the store does; it changes
    neither the tracker nor the snapshots, and when the store throws the
    link's store is the one the failed call left. *)
Theorem write_never_throws (d ro : bool) (queryKey : CacheKey) (data : value) (st : State S) :
  fst (write d ro queryKey data st) = Ok tt
  ∧ queriesToUpdate (snd (write d ro queryKey data st)) = queriesToUpdate st
  ∧ inflightRequests (snd (write d ro queryKey data st)) = inflightRequests st
  ∧ cache (snd (write d ro queryKey data st))
    = (if ro then cache st else snd (cache_writeQuery queryKey data (cache st))).
Proof.
  destruct (write_run d ro queryKey data st) as (st1 & -> & Hc & Hq & Hi & _). simpl. auto.
Qed.

(** Looking up the store's field names leaves the state as it is. *)
Lemma mapM_storeRead_snd {A B} (g : A → S → outcome B) (l : list A) (st : State S) :
  snd (mapM (λ x, storeRead (g x)) l st) = st.
Proof.
  induction l as [| x l IH]; simpl; [reflexivity |].
  unfold bind at 1. unfold storeRead at 1. simpl.
  destruct (g x (cache st)) as [y | e]; [| reflexivity].
  unfold bind at 1. destruct (mapM _ l st) as [[ys | e] st'] eqn:Hrest;
    simpl in *; exact IH.
Qed.

Lemma mapM_storeRead_throws {A B} (g : A → S → outcome B) (l : list A) (st : State S)
    (x : A) (e : exn) :
  x ∈ l → g x (cache st) = Throw e →
  ∃ e', fst (mapM (λ x, storeRead (g x)) l st) = Throw e'.
Proof.
  induction l as [| y l IH]; intros Hx Hthrow; [inversion Hx |]. simpl.
  unfold bind at 1. unfold storeRead at 1. simpl.
  destruct (g y (cache st)) as [b | e1] eqn:Hy; [| eauto].
  apply elem_of_cons in Hx as [-> | Hx]; [congruence |].
  destruct (IH Hx Hthrow) as [e' He']. unfold bind at 1.
  destruct (mapM _ l st) as [[ys | e2] st'] eqn:Hrest; simpl in *; [discriminate | eauto].
Qed.

(** What [evict] does without debug, in closed form. *)
Lemma evict_quiet_run (queryKey : CacheKey) (st : State S) :
  evict false false queryKey st
  = match getQueryDefinition (query queryKey) with
    | Throw _ => (Ok None, st)
    | Ok selections =>
        match cache_rootQueryTypename (cache st) with
        | Throw _ => (Ok None, st)
        | Ok queryTypename =>
            match fst (mapM (λ fieldName,
                              storeRead (cache_getStoreFieldName queryTypename fieldName
                                           (variables queryKey)))
                         (fieldNames selections) st) with
            | Throw _ => (Ok None, st)
            | Ok cacheIds =>
                match reduce evictStep cacheIds false st with
                | (Ok evicted, st') => (Ok (Some evicted), st')
                | (Throw _, st') => (Ok None, st')
                end
            end
        end
    end.
Proof.
  unfold evict, tryCatch. rewrite bind_run. unfold liftOutcome. simpl.
  destruct (getQueryDefinition (query queryKey)) as [selections | e]; simpl; [| reflexivity].
  rewrite bind_run. unfold storeRead at 1 2. simpl.
  destruct (cache_rootQueryTypename (cache st)) as [queryTypename | e]; simpl; [| reflexivity].
  rewrite bind_run.
  pose proof (mapM_storeRead_snd
                (λ fieldName, cache_getStoreFieldName queryTypename fieldName
                                (variables queryKey))
                (fieldNames selections) st) as Hsame.
  unfold storeRead in Hsame |- *. cbv beta in Hsame. rewrite Hsame.
  destruct (fst (mapM _ (fieldNames selections) st)) as [cacheIds | e]; [| reflexivity].
  rewrite bind_run.
  destruct (reduce evictStep cacheIds false st) as [[evicted | e] st']; reflexivity.
Qed.

(** X11.  Without debug [evict] never throws, whatever the store and the
    key.  In read-only mode it returns false.  Otherwise an exception of the
    document utilities, of the store's policies (the root typename, the name
    of a field) or of the store's [evict] ends in the result undefined, and
    a boolean is returned only when none of them threw. *)
Theorem evict_quiet_never_throws (ro : bool) (queryKey : CacheKey) (st : State S) :
  let fieldIds (queryTypename : string) (selections : list SelectionNode) :=
    fst (mapM (λ fieldName,
                 storeRead (cache_getStoreFieldName queryTypename fieldName
                              (variables queryKey)))
              (fieldNames selections) st) in
  (∃ r, fst (evict false ro queryKey st) = Ok r)
  ∧ evict false true queryKey st = (Ok (Some false), st)
  ∧ (∀ e, getQueryDefinition (query queryKey) = Throw e →
          evict false false queryKey st = (Ok None, st))
  ∧ (∀ e, cache_rootQueryTypename (cache st) = Throw e →
          evict false false queryKey st = (Ok None, st))
  ∧ (∀ selections queryTypename fieldName e,
        getQueryDefinition (query queryKey) = Ok selections →
        cache_rootQueryTypename (cache st) = Ok queryTypename →
        fieldName ∈ fieldNames selections →
        cache_getStoreFieldName queryTypename fieldName (variables queryKey) (cache st)
        = Throw e →
        evict false false queryKey st = (Ok None, st))
  ∧ (∀ selections queryTypename cacheIds e,
        getQueryDefinition (query queryKey) = Ok selections →
        cache_rootQueryTypename (cache st) = Ok queryTypename →
        fieldIds queryTypename selections = Ok cacheIds →
        fst (reduce evictStep cacheIds false st) = Throw e →
        fst (evict false false queryKey st) = Ok None)
  ∧ (∀ evicted, fst (evict false false queryKey st) = Ok (Some evicted) →
        ∃ selections queryTypename cacheIds,
          getQueryDefinition (query queryKey) = Ok selections
          ∧ cache_rootQueryTypename (cache st) = Ok queryTypename
          ∧ fieldIds queryTypename selections = Ok cacheIds
          ∧ fst (reduce evictStep cacheIds false st) = Ok evicted).
Proof.
  intros fieldIds. refine (conj _ (conj eq_refl (conj _ (conj _ (conj _ (conj _ _)))))).
  - destruct ro; [eexists; reflexivity |]. rewrite evict_quiet_run.
    destruct (getQueryDefinition _); [| eauto].
    destruct (cache_rootQueryTypename _); [| eauto].
    destruct (fst (mapM _ _ st)); [| eauto].
    destruct (reduce evictStep _ false st) as [[evicted | e] st']; eauto.
  - intros e Hdoc. rewrite evict_quiet_run, Hdoc. reflexivity.
  - intros e Hroot. rewrite evict_quiet_run, Hroot.
    destruct (getQueryDefinition _); reflexivity.
  - intros selections queryTypename fieldName e Hdoc Hroot Hfield Hthrow.
    rewrite evict_quiet_run, Hdoc, Hroot.
    destruct (mapM_storeRead_throws
                (λ fieldName, cache_getStoreFieldName queryTypename fieldName
                                (variables queryKey))
                (fieldNames selections) st fieldName e Hfield Hthrow) as [e' ->].
    reflexivity.
  - intros selections queryTypename cacheIds e Hdoc Hroot Hids Hthrow.
    rewrite evict_quiet_run, Hdoc, Hroot. unfold fieldIds in Hids. rewrite Hids.
    destruct (reduce evictStep cacheIds false st) as [[evicted | e'] st'];
      [discriminate | reflexivity].
  - intros evicted. rewrite evict_quiet_run.
    destruct (getQueryDefinition _) as [selections | e]; [| discriminate].
    destruct (cache_rootQueryTypename _) as [queryTypename | e]; [| discriminate].
    destruct (fst (mapM _ _ st)) as [cacheIds | e] eqn:Hids; [| discriminate].
    destruct (reduce evictStep cacheIds false st) as [[b | e] st'] eqn:Hloop;
      [| discriminate].
    simpl. intros [= ->]. exists selections, queryTypename, cacheIds.
    unfold fieldIds. rewrite Hids, Hloop. auto.
Qed.

(** X12.  [evict] of a key whose document is not a query (read-write,
    without debug) returns undefined, not false, and leaves the state as it
    was: the store is not called. *)
Theorem evict_non_query_document (queryKey : CacheKey) (st : State S) (e : exn) :
  getQueryDefinition (query queryKey) = Throw e →
  evict false false queryKey st = (Ok None, st).
Proof.
  intros Hdoc. unfold evict, tryCatch. rewrite bind_run. unfold liftOutcome. simpl.
  rewrite Hdoc. reflexivity.
Qed.

(** X13.  [gc] never throws; it changes neither the tracker, nor the
    snapshots, nor the record of calls, and the link's store is the one the
    store's [gc] left. *)
Theorem gc_never_throws (d : bool) (st : State S) :
  fst (gc d st) = Ok tt
  ∧ cache (snd (gc d st)) = snd (cache_gc (cache st))
  ∧ queriesToUpdate (snd (gc d st)) = queriesToUpdate st
  ∧ inflightRequests (snd (gc d st)) = inflightRequests st
  ∧ events (snd (gc d st)) = events st.
Proof.
  unfold gc, tryCatch, storeCall. destruct (cache_gc (cache st)) as [[[] | e] c]; simpl.
  - auto.
  - rewrite logWhen_run. simpl.
    rewrite logged_cache, logged_queriesToUpdate, logged_inflightRequests, logged_events. auto.
Qed.

End CacheManagerMore.

Section WriteReadRoundTrip.
Context {S : Type} `{CacheStoreLaws S}.

(** X10.  On a store that reads back what is written, a read-write [write]
    followed by [read] of the same key returns the data written, and [read]
    of any other key returns what it returned before the write. *)
Theorem write_then_read_round_trip (d d' : bool) (queryKey other : CacheKey) (data : value)
    (st : State S) :
  other ≠ queryKey →
  fst (read d' queryKey (snd (write d false queryKey data st))) = Ok data
  ∧ fst (read d' other (snd (write d false queryKey data st))) = fst (read d' other st).
Proof.
  intros Hother.
  destruct (write_run d false queryKey data st) as (st1 & -> & Hc & _). simpl in *.
  destruct (read_run d' queryKey st1) as (s1 & -> & _).
  destruct (read_run d' other st1) as (s2 & -> & _).
  destruct (read_run d' other st) as (s3 & -> & _). simpl.
  unfold readValue. rewrite Hc, write_read_same, (write_read_other queryKey other) by exact Hother.
  auto.
Qed.

End WriteReadRoundTrip.

Lemma write_then_read_round_trip_witness :
  filteredListItemsKey ≠ listItemsKey
  ∧ fst (read false listItemsKey
           (snd (write false false listItemsKey (itemsOf [itemB])
                   (initialState (seededStore itemA))))) = Ok (itemsOf [itemB])
  ∧ fst (read false filteredListItemsKey
           (snd (write false false listItemsKey (itemsOf [itemB])
                   (initialState (seededStore itemA)))))
    = fst (read false filteredListItemsKey (initialState (seededStore itemA))).
Proof.
  assert (Hne : filteredListItemsKey ≠ listItemsKey) by discriminate.
  split; [exact Hne |].
  apply (write_then_read_round_trip false false listItemsKey filteredListItemsKey
           (itemsOf [itemB]) (initialState (seededStore itemA)) Hne).
Defined.

Lemma evict_non_query_document_witness :
  getQueryDefinition (query addItemKey) = Throw (InvariantError "Must contain a query definition.")
  ∧ evict false false addItemKey (initialState twoFieldStore)
    = (Ok None, initialState twoFieldStore).
Proof.
  split; [reflexivity |].
  apply (evict_non_query_document addItemKey (initialState twoFieldStore)
           (InvariantError "Must contain a query definition.")).
  reflexivity.
Defined.

(** ** Committing a successful mutation *)

Section Commit.
Context {S : Type} `{CacheStore S}.
Variable cfg : Config.

Lemma plannedUpdate_key (op : Operation) (data : value) (c : S) (k : CacheKey)
    (item : CacheKey * value) :
  plannedUpdate cfg op data c k = Some item → fst item = k.
Proof.
  unfold plannedUpdate.
  destruct (getQueryName (query k)); [| discriminate].
  destruct (getQueryName (operation_query op)); [| discriminate].
  destruct (truthy (readValue k c)); [| discriminate].
  destruct (getUpdateFn _ _ _) as [fn |]; [| discriminate].
  match goal with |- context [fn ?args] => destruct (fn args) as [v |] end; [| discriminate].
  destruct (notNullish v); [| discriminate]. intros [= <-]. reflexivity.
Qed.

Lemma getUpdateAfterMutation_planned (op : Operation) (data : value) (k : CacheKey)
    (st : State S) (r : option (CacheKey * value)) (st' : State S) :
  getUpdateAfterMutation cfg op data k st = (Ok r, st') →
  r = plannedUpdate cfg op data (cache st) k.
Proof.
  unfold getUpdateAfterMutation, plannedUpdate. rewrite bind_run. unfold liftOutcome. simpl.
  destruct (getQueryName (query k)) as [q |]; simpl; [| discriminate].
  destruct (read_run (debug cfg) k st) as (st1 & Hread & Hc1 & Hq1 & _).
  rewrite bind_run, Hread. simpl.
  destruct (truthy (readValue k (cache st))); simpl.
  - rewrite bind_run. simpl.
    destruct (getQueryName (operation_query op)) as [m |]; simpl; [| discriminate].
    rewrite bind_run. simpl.
    destruct (getUpdateFn (mutationQueryResolverMap cfg) m q) as [fn |]; simpl; [| discriminate].
    rewrite bind_run. simpl. rewrite bind_run. simpl.
    match goal with |- context [fn ?args] => destruct (fn args) as [v |] end; simpl;
      [| discriminate].
    destruct (notNullish v); intros [= <- _]; reflexivity.
  - rewrite bind_run.
    destruct (removeRelatedQuery q k st1) as [[[] | e] st2]; simpl; [| discriminate].
    intros [= <- _]. destruct (getQueryName (operation_query op)); reflexivity.
Qed.

Lemma collect_planned (op : Operation) (name : string) (data : value) (keys : list CacheKey) :
  ∀ (items items' : list (CacheKey * value)) (st st' : State S),
  reduce (collectItem cfg op name data) keys items st = (Ok items', st') →
  items' = items ++ omap (plannedUpdate cfg op data (cache st)) keys.
Proof.
  induction keys as [| k keys IH]; intros items items' st st'; simpl.
  - intros [= <- _]. rewrite app_nil_r. reflexivity.
  - rewrite bind_run.
    destruct (collectItem cfg op name data items k st) as [o1 st1] eqn:Hstep. simpl.
    destruct o1 as [items1 | e]; [| discriminate].
    pose proof (collectItem_step cfg op name data items k st _ _ Hstep) as (Hc & _).
    intros Hrest. apply IH in Hrest. rewrite Hc in Hrest. subst items'.
    revert Hstep. unfold collectItem, debugLog. rewrite bind_run, logWhen_run. simpl.
    rewrite bind_run.
    destruct (getUpdateAfterMutation cfg op data k (logged _ _ st)) as [o2 st2] eqn:Hget.
    simpl. destruct o2 as [r | e]; simpl; [| discriminate].
    apply getUpdateAfterMutation_planned in Hget. rewrite logged_cache in Hget. subst r.
    destruct (plannedUpdate cfg op data (cache st) k) as [item |]; simpl.
    + intros [= <- _]. rewrite <- app_assoc. reflexivity.
    + rewrite bind_run, logWhen_run. simpl. intros [= <- _]. reflexivity.
Qed.

(** When the pass completes, the store has received exactly the planned
    writes, in the order of the affected keys. *)
Lemma updateQueriesAfterMutation_commits (op : Operation) (name : string) (data : value)
    (st : State S) :
  fst (updateQueriesAfterMutation cfg op name data st) = Ok tt →
  cache (snd (updateQueriesAfterMutation cfg op name data st))
  = (if readOnly cfg then cache st
     else writeAll (omap (plannedUpdate cfg op data (cache st))
                      (affectedKeys cfg name (queriesToUpdate st))) (cache st)).
Proof.
  unfold updateQueriesAfterMutation. rewrite bind_run, getCachedQueryKeysToUpdate_run.
  destruct (registeredTrackArrays cfg name (queriesToUpdate st)); simpl; [| discriminate].
  rewrite bind_run.
  destruct (reduce _ _ _ st) as [o1 st1] eqn:Hcollect. simpl.
  destruct o1 as [items | e]; [| discriminate].
  pose proof (collect_planned _ _ _ _ _ _ _ _ Hcollect) as Hitems. simpl in Hitems.
  apply collect_run in Hcollect. destruct Hcollect as (Hc & _).
  rewrite performTransaction_run.
  destruct (forEach_write_run (debug cfg) (readOnly cfg) items st1) as (st2 & -> & Hc2 & _).
  simpl. intros _. rewrite Hc2, Hc, Hitems. reflexivity.
Qed.

(** X19.  When the update pass throws (an update function threw, or a
    lookup did), nothing has been written: the store and the snapshots are
    as they were and the cache manager's [write] has not been called. *)
Theorem update_failure_writes_nothing (op : Operation) (name : string) (data : value)
    (st : State S) (e : exn) :
  fst (updateQueriesAfterMutation cfg op name data st) = Throw e →
  cache (snd (updateQueriesAfterMutation cfg op name data st)) = cache st
  ∧ inflightRequests (snd (updateQueriesAfterMutation cfg op name data st)) = inflightRequests st
  ∧ ∃ new, events (snd (updateQueriesAfterMutation cfg op name data st)) = events st ++ new
           ∧ ∀ k v, WriteCalled k v ∉ new.
Proof.
  unfold updateQueriesAfterMutation. rewrite bind_run, getCachedQueryKeysToUpdate_run.
  destruct (registeredTrackArrays cfg name (queriesToUpdate st)); simpl.
  2: { intros _. refine (conj eq_refl (conj eq_refl _)). exists [].
       split; [symmetry; apply app_nil_r | intros k v Hin; inversion Hin]. }
  rewrite bind_run.
  destruct (reduce _ _ _ st) as [o1 st1] eqn:Hcollect. simpl.
  apply collect_run in Hcollect.
  destruct Hcollect as (Hc & Hi & _ & (new & He & Hnew) & _).
  destruct o1 as [items | e1]; simpl.
  - rewrite performTransaction_run.
    destruct (forEach_write_run (debug cfg) (readOnly cfg) items st1) as (st2 & -> & _).
    discriminate.
  - intros _. refine (conj Hc (conj Hi _)). exists new. split; [exact He |].
    intros k v Hin. rewrite Forall_forall in Hnew.
    destruct (Hnew _ Hin) as (m & q & k' & [=] & _).
Qed.

End Commit.

Section CommitOnStore.
Context {S : Type} `{CacheStoreLaws S}.
Variable cfg : Config.

Lemma writeAll_app (a b : list (CacheKey * value)) (c : S) :
  writeAll (a ++ b) c = writeAll b (writeAll a c).
Proof. unfold writeAll. apply foldl_app. Qed.

Lemma writeAll_last_wins (f : CacheKey → option (CacheKey * value)) (keys : list CacheKey)
    (c : S) (k : CacheKey) (v : value) :
  (∀ k' item, f k' = Some item → fst item = k') →
  k ∈ keys → f k = Some (k, v) →
  cache_readQuery k (writeAll (omap f keys) c) = Ok v.
Proof.
  intros Hkey. induction keys as [| k1 keys IH] using rev_ind; intros Hin Hf; [inversion Hin |].
  rewrite omap_app, writeAll_app. simpl.
  destruct (decide (k1 = k)) as [-> | Hne].
  - rewrite Hf. simpl. unfold writeAll. simpl. apply write_read_same.
  - apply elem_of_app in Hin as [Hin | Hin];
      [| apply list_elem_of_singleton in Hin; congruence].
    destruct (f k1) as [[k1' v1] |] eqn:Hf1; simpl; [| apply IH; assumption].
    unfold writeAll at 1. simpl. pose proof (Hkey k1 _ Hf1) as Hk1. simpl in Hk1. subst k1'.
    rewrite write_read_other by congruence. apply IH; assumption.
Qed.

Lemma writeAll_unplanned (f : CacheKey → option (CacheKey * value)) (keys : list CacheKey)
    (c : S) (k : CacheKey) :
  (∀ k' item, f k' = Some item → fst item = k') →
  f k = None →
  cache_readQuery k (writeAll (omap f keys) c) = cache_readQuery k c.
Proof.
  intros Hkey Hnone. apply writeAll_other. intros item Hitem Heq.
  apply list_elem_of_omap in Hitem as (k' & _ & Hf).
  rewrite (Hkey k' item Hf) in Heq. subst k'. congruence.
Qed.

(** The entries of the affected keys once the update pass has completed. *)
Lemma updateQueriesAfterMutation_entries (op : Operation) (name : string) (data : value)
    (st : State S) :
  readOnly cfg = false →
  trackerWellFormed (queriesToUpdate st) →
  getQueryName (operation_query op) = Ok name →
  fst (updateQueriesAfterMutation cfg op name data st) = Ok tt →
  ∀ q k, q ∈ getRegisteredQueryNames (mutationQueryResolverMap cfg) name →
         k ∈ trackedKeys q (queriesToUpdate st) →
    (truthy (readValue k (cache st)) = false →
       cache_readQuery k (cache (snd (updateQueriesAfterMutation cfg op name data st)))
       = cache_readQuery k (cache st))
    ∧ ∀ fn v,
        truthy (readValue k (cache st)) = true →
        getUpdateFn (mutationQueryResolverMap cfg) name q = Ok fn →
        fn {| mutation_name := name;
              mutation_variables := operation_variables op;
              mutation_result := data;
              query_name := q;
              query_variables := variables k;
              query_result := readValue k (cache st) |} = Ok v →
        cache_readQuery k (cache (snd (updateQueriesAfterMutation cfg op name data st)))
        = (if notNullish v then Ok v else cache_readQuery k (cache st)).
Proof.
  intros Hrw Hwf Hmutation Hcompleted q k Hq Hk.
  rewrite (updateQueriesAfterMutation_commits cfg op name data st Hcompleted), Hrw.
  apply elem_of_trackedKeys in Hk as (l & Hl & Hin).
  destruct (Hwf q l Hl) as [Hnames _]. pose proof (Hnames k Hin) as Hname.
  assert (Haffected : k ∈ affectedKeys cfg name (queriesToUpdate st))
    by (apply elem_of_affectedKeys; eauto).
  split.
  - intros Habsent. apply writeAll_unplanned; [apply plannedUpdate_key |].
    unfold plannedUpdate. rewrite Hname, Hmutation, Habsent. reflexivity.
  - intros fn v Hpresent Hfn Hv.
    assert (Hplanned : plannedUpdate cfg op data (cache st) k
                       = if notNullish v then Some (k, v) else None).
    { unfold plannedUpdate. rewrite Hname, Hmutation, Hpresent, Hfn, Hv. reflexivity. }
    destruct (notNullish v).
    + apply writeAll_last_wins; [apply plannedUpdate_key | exact Haffected | exact Hplanned].
    + apply writeAll_unplanned; [apply plannedUpdate_key | exact Hplanned].
Qed.

(** X18.  A watched mutation that is not optimistic and succeeds, on a
    read-write link with a well-formed tracker and a store that reads back
    what is written: once the request has returned, a key tracked under a
    registered query name whose cached data was present holds the value its
    update function returned for that data, or still holds that data when
    the function returned null or undefined; a key whose cached data was
    absent reads as before. *)
Theorem successful_mutation_commits (op : Operation) (d : DefinitionNode)
    (result : FetchResult) (st : State S) :
  readOnly cfg = false →
  trackerWellFormed (queriesToUpdate st) →
  getMainDefinition (operation_query op) = Ok d →
  definitionOperation d = Some OpMutation →
  isWatched (mutationQueryResolverMap cfg) (definitionNameOrEmpty d) = true →
  isOptimistic (operation_context op) = false →
  isSuccess result = true →
  fst (request cfg op result st) = Ok result →
  let name := definitionNameOrEmpty d in
  let after := snd (request cfg op result st) in
  ∀ q k, q ∈ getRegisteredQueryNames (mutationQueryResolverMap cfg) name →
         k ∈ trackedKeys q (queriesToUpdate st) →
    (truthy (readValue k (cache st)) = false →
       cache_readQuery k (cache after) = cache_readQuery k (cache st))
    ∧ ∀ fn v,
        truthy (readValue k (cache st)) = true →
        getUpdateFn (mutationQueryResolverMap cfg) name q = Ok fn →
        fn {| mutation_name := name;
              mutation_variables := operation_variables op;
              mutation_result := resultObject result;
              query_name := q;
              query_variables := variables k;
              query_result := readValue k (cache st) |} = Ok v →
        cache_readQuery k (cache after)
        = (if notNullish v then Ok v else cache_readQuery k (cache st)).
Proof.
  intros Hrw Hwf Hd Hkind Hwatched Hplain Hsuccess Hok name after.
  assert (Hrun : request cfg op result st
                 = (match fst (updateQueriesAfterMutation cfg op name (resultObject result) st) with
                    | Ok _ => Ok result | Throw e => Throw e end,
                    snd (updateQueriesAfterMutation cfg op name (resultObject result) st))).
  { unfold request. rewrite bind_run.
    rewrite (requestStart_idle cfg op st d Hd) by (rewrite Hplain; reflexivity). simpl.
    unfold requestResult, isSuccessfulQuery, isSuccessfulMutation.
    rewrite Hkind, Hsuccess, Hwatched, Hplain. simpl. fold name.
    rewrite bind_run. destruct (updateQueriesAfterMutation cfg op name _ st) as [[[] |] ?];
      reflexivity. }
  subst after. rewrite Hrun in Hok |- *. simpl in Hok |- *.
  apply updateQueriesAfterMutation_entries; [exact Hrw | exact Hwf | |].
  - apply getQueryName_of_definition, Hd.
  - destruct (fst (updateQueriesAfterMutation cfg op name (resultObject result) st)) as [[] |];
      [reflexivity | discriminate].
Qed.

(** X24.  The optimistic phase of a watched mutation, on a read-write link
    with a well-formed tracker and a store that reads back what is written:
    once it has completed, the snapshot of every affected key is the data
    the key had before, and the key holds the value its update function
    returned for that data and the predicted response
    [{ data: optimisticResponse }] (or still that data when the function
    returned null or undefined, or when the data was absent). *)
Theorem optimistic_phase_applies_prediction (op : Operation) (d : DefinitionNode)
    (st : State S) :
  readOnly cfg = false →
  trackerWellFormed (queriesToUpdate st) →
  getMainDefinition (operation_query op) = Ok d →
  isWatched (mutationQueryResolverMap cfg) (definitionNameOrEmpty d) = true →
  isOptimistic (operation_context op) = true →
  fst (requestStart cfg op st) = Ok d →
  let name := definitionNameOrEmpty d in
  let after := snd (requestStart cfg op st) in
  ∀ q k, q ∈ getRegisteredQueryNames (mutationQueryResolverMap cfg) name →
         k ∈ trackedKeys q (queriesToUpdate st) →
    fst (getBeforeState (ForKey k) after) = Ok (readValue k (cache st))
    ∧ (truthy (readValue k (cache st)) = false →
       cache_readQuery k (cache after) = cache_readQuery k (cache st))
    ∧ ∀ fn v,
        truthy (readValue k (cache st)) = true →
        getUpdateFn (mutationQueryResolverMap cfg) name q = Ok fn →
        fn {| mutation_name := name;
              mutation_variables := operation_variables op;
              mutation_result := VObj [("data", optimisticResponse (operation_context op))];
              query_name := q;
              query_variables := variables k;
              query_result := readValue k (cache st) |} = Ok v →
        cache_readQuery k (cache after)
        = (if notNullish v then Ok v else cache_readQuery k (cache st)).
Proof.
  intros Hrw Hwf Hd Hwatched Hopt Hok name after q k Hq Hk. subst after. revert Hok.
  unfold requestStart. rewrite bind_run. unfold liftOutcome. simpl. rewrite Hd. simpl.
  rewrite then_ret_fst, then_ret_snd, Hopt, Hwatched. simpl. fold name. rewrite bind_run.
  pose proof (addOptimisticRequest_run cfg name st) as Hadd.
  destruct (registeredTrackArrays cfg name (queriesToUpdate st));
    [| rewrite Hadd; discriminate].
  destruct Hadd as (st1 & Hrun & Hc1 & Hq1 & He1 & Hi1).
  rewrite Hrun. simpl. intros Hok.
  set (data := VObj [("data", optimisticResponse (operation_context op))]) in *.
  assert (Hcompleted : fst (updateQueriesAfterMutation cfg op name data st1) = Ok tt).
  { destruct (fst (updateQueriesAfterMutation cfg op name data st1)) as [[] |];
      [reflexivity | discriminate]. }
  assert (Haffected : k ∈ affectedKeys cfg name (queriesToUpdate st)).
  { apply elem_of_trackedKeys in Hk as (l & Hl & Hin).
    apply elem_of_affectedKeys. eauto. }
  split.
  - destruct (updateQueriesAfterMutation cfg op name data st1) as [o st2] eqn:Hupdate.
    apply updateQueriesAfterMutation_run in Hupdate. destruct Hupdate as (Hi2 & _).
    unfold getBeforeState. simpl. rewrite Hi2, Hi1.
    rewrite (lookupSnapshot_snapshotsOf _ _ _ k Haffected). reflexivity.
  - rewrite <- Hc1.
    apply (updateQueriesAfterMutation_entries op name data st1); try assumption.
    + rewrite Hq1. exact Hwf.
    + apply getQueryName_of_definition, Hd.
    + rewrite Hq1. exact Hk.
Qed.

End CommitOnStore.

Lemma successful_mutation_commits_witness :
  fst (request scenarioConfig addItemOperation (succeededWith itemB) (afterListItems itemA))
  = Ok (succeededWith itemB)
  ∧ cache_readQuery listItemsKey
      (cache (snd (request scenarioConfig addItemOperation (succeededWith itemB)
                     (afterListItems itemA))))
    = Ok (itemsOf [itemA; itemB]).
Proof.
  split; [reflexivity |].
  pose proof (successful_mutation_commits scenarioConfig addItemOperation
                (OperationDefinition OpMutation (Some "AddItem") [Field "addItem"])
                (succeededWith itemB) (afterListItems itemA) eq_refl
                (afterListItems_wellFormed itemA) eq_refl eq_refl eq_refl eq_refl eq_refl eq_refl
                "ListItems" listItemsKey) as Hcommit.
  simpl in Hcommit. destruct Hcommit as [_ Hpresent].
  - left.
  - left.
  - apply (Hpresent appendItem (itemsOf [itemA; itemB])); reflexivity.
Defined.

Lemma update_failure_writes_nothing_witness :
  fst (updateQueriesAfterMutation scenarioConfig addItemOperation "AddItem"
         (resultObject (succeededWith itemB)) malformedState)
  = Throw (TypeError "items is not iterable")
  ∧ cache (snd (updateQueriesAfterMutation scenarioConfig addItemOperation "AddItem"
                  (resultObject (succeededWith itemB)) malformedState))
    = cache malformedState.
Proof.
  split; [reflexivity |].
  apply (update_failure_writes_nothing scenarioConfig addItemOperation "AddItem"
           (resultObject (succeededWith itemB)) malformedState
           (TypeError "items is not iterable")).
  reflexivity.
Defined.

(** ** Requests that only pass through, and queries *)

Section RequestMore.
Context {S : Type} `{CacheStore S}.
Variable cfg : Config.

(** X14.  Whenever [request] returns, it returns the result the transport
    delivered, unchanged. *)
Theorem request_returns_forwarded_result (op : Operation) (result r : FetchResult)
    (st : State S) :
  fst (request cfg op result st) = Ok r → r = result.
Proof.
  unfold request. rewrite bind_run.
  destruct (fst (requestStart cfg op st)) as [d | e]; [| discriminate].
  unfold requestResult. rewrite then_ret_fst.
  destruct (fst _); [intros [= <-]; reflexivity | discriminate].
Qed.

Lemma isOperationType_other (expected : OperationTypeNode) (o : option OperationTypeNode) :
  o ≠ Some expected → isOperationType expected o = false.
Proof.
  destruct o as [o |]; simpl; [| reflexivity]. intros Hne.
  apply bool_decide_eq_false. congruence.
Qed.

Lemma updateQueriesAfterMutation_no_keys (op : Operation) (name : string) (data : value)
    (st : State S) :
  fst (getCachedQueryKeysToUpdate cfg name st) = Ok [] →
  updateQueriesAfterMutation cfg op name data st = (Ok tt, st).
Proof.
  unfold updateQueriesAfterMutation. rewrite bind_run, getCachedQueryKeysToUpdate_run.
  destruct (registeredTrackArrays cfg name (queriesToUpdate st)); simpl; [| discriminate].
  intros [= ->]. simpl. apply performTransaction_run.
Qed.

Lemma addQuery_outcome (q : string) (k : CacheKey) (st : State S) :
  fst (addQuery queryManagerDebug q k st)
  = if tracksArray q (queriesToUpdate st) then Ok tt
    else Throw (TypeError "existingQueryKeys.some is not a function").
Proof.
  rewrite addQuery_run. destruct (tracksArray _ _); [| reflexivity].
  destruct (existsb _ _); reflexivity.
Qed.

(** What [request] does for a query that is not optimistic. *)
Lemma request_query_run (op : Operation) (d : DefinitionNode) (result : FetchResult)
    (st : State S) :
  getMainDefinition (operation_query op) = Ok d →
  definitionOperation d = Some OpQuery →
  isOptimistic (operation_context op) = false →
  request cfg op result st
  = if isSuccess result && isQueryRelated cfg (definitionNameOrEmpty d)
    then (if tracksArray (definitionNameOrEmpty d) (queriesToUpdate st) then Ok result
          else Throw (TypeError "existingQueryKeys.some is not a function"),
          snd (addQuery queryManagerDebug (definitionNameOrEmpty d) (createKey op)
                 (logged (debug cfg) "Found a successful query related to a watched mutation"
                    st)))
    else (Ok result, st).
Proof.
  intros Hd Hkind Hplain. unfold request. rewrite bind_run.
  rewrite (requestStart_idle cfg op st d Hd) by (rewrite Hplain; reflexivity). simpl.
  unfold requestResult, isSuccessfulQuery, isSuccessfulMutation, isFailedMutation.
  rewrite Hkind, Hplain. simpl.
  destruct (isSuccess result && isQueryRelated cfg (definitionNameOrEmpty d)); [| reflexivity].
  unfold debugLog, addRelatedQuery. rewrite bind_run, bind_run, logWhen_run. simpl.
  rewrite addQuery_run, logged_queriesToUpdate.
  destruct (tracksArray _ _); [| reflexivity]. destruct (existsb _ _); reflexivity.
Qed.

(** X15.  A query that is not optimistic never touches the store, the
    snapshots or the update functions.  [request] returns its result,
    unless the query succeeded, is related to a watched mutation and bears a
    name inherited from [Object.prototype] that is not tracked: then the
    tracker throws a TypeError.  Every key tracked before is still tracked
    under its name, and at most the key of the operation is tracked besides,
    last under the name of the operation. *)
Theorem request_query_touches_only_tracker (op : Operation) (d : DefinitionNode)
    (result : FetchResult) (st : State S) :
  getMainDefinition (operation_query op) = Ok d →
  definitionOperation d = Some OpQuery →
  isOptimistic (operation_context op) = false →
  let name := definitionNameOrEmpty d in
  let after := snd (request cfg op result st) in
  fst (request cfg op result st)
  = (if isSuccess result && isQueryRelated cfg name
        && negb (tracksArray name (queriesToUpdate st))
     then Throw (TypeError "existingQueryKeys.some is not a function")
     else Ok result)
  ∧ cache after = cache st
  ∧ inflightRequests after = inflightRequests st
  ∧ events after = events st
  ∧ trackedWithin (queriesToUpdate st) (queriesToUpdate after)
  ∧ ∀ q, trackedKeys q (queriesToUpdate after) = trackedKeys q (queriesToUpdate st)
         ∨ (q = name
            ∧ trackedKeys q (queriesToUpdate after)
              = trackedKeys q (queriesToUpdate st) ++ [createKey op]).
Proof.
  intros Hd Hkind Hplain name after. subst after.
  rewrite (request_query_run op d result st Hd Hkind Hplain). fold name.
  destruct (isSuccess result && isQueryRelated cfg name); simpl.
  2: { refine (conj eq_refl (conj eq_refl (conj eq_refl (conj eq_refl (conj _ _))))).
       - intros q k Hk. exact Hk.
       - intros q. left. reflexivity. }
  rewrite addQuery_run, logged_queriesToUpdate. unfold queryManagerDebug.
  destruct (tracksArray name (queriesToUpdate st)); simpl.
  2: { rewrite logged_cache, logged_inflightRequests, logged_events, logged_queriesToUpdate.
       refine (conj eq_refl (conj eq_refl (conj eq_refl (conj eq_refl (conj _ _))))).
       - intros q k Hk. exact Hk.
       - intros q. left. reflexivity. }
  destruct (existsb _ _); simpl;
    rewrite ?logged_cache, ?logged_inflightRequests, ?logged_events, ?logged_queriesToUpdate;
    refine (conj eq_refl (conj eq_refl (conj eq_refl (conj eq_refl (conj _ _))))).
  - intros q k Hk. exact Hk.
  - intros q. left. reflexivity.
  - intros q k Hk. destruct (decide (q = name)) as [-> | Hne].
    + rewrite trackedKeys_insert. apply elem_of_app. left. exact Hk.
    + rewrite trackedKeys_insert_ne by congruence. exact Hk.
  - intros q. destruct (decide (q = name)) as [-> | Hne].
    + right. split; [reflexivity |]. apply trackedKeys_insert.
    + left. apply trackedKeys_insert_ne. congruence.
Qed.

(** X16.  An operation that is not a query passes through without any
    effect on the state when its name is not a watched mutation, or when it
    is not optimistic and is not a mutation, or has failed, or affects no
    tracked key ([getCachedQueryKeysToUpdate] returns the empty array). *)
Theorem request_inert_operations (op : Operation) (d : DefinitionNode)
    (result : FetchResult) (st : State S) :
  getMainDefinition (operation_query op) = Ok d →
  definitionOperation d ≠ Some OpQuery →
  isWatched (mutationQueryResolverMap cfg) (definitionNameOrEmpty d) = false
  ∨ (isOptimistic (operation_context op) = false
     ∧ (definitionOperation d ≠ Some OpMutation
        ∨ isSuccess result = false
        ∨ fst (getCachedQueryKeysToUpdate cfg (definitionNameOrEmpty d) st) = Ok [])) →
  request cfg op result st = (Ok result, st).
Proof.
  intros Hd Hkind Hinert. unfold request. rewrite bind_run.
  rewrite (requestStart_idle cfg op st d Hd).
  2: { destruct Hinert as [-> | [-> _]]; [apply andb_false_r | reflexivity]. }
  simpl. unfold requestResult, isSuccessfulQuery, isSuccessfulMutation, isFailedMutation.
  rewrite (isOperationType_other OpQuery _ Hkind). simpl.
  destruct Hinert as [-> | [-> [Hother | [-> | Hnone]]]].
  - rewrite ?andb_false_r. reflexivity.
  - rewrite (isOperationType_other OpMutation _ Hother). reflexivity.
  - rewrite ?andb_false_r. simpl. rewrite ?andb_false_r. reflexivity.
  - rewrite ?andb_false_r.
    destruct (isOperationType OpMutation (definitionOperation d) && isSuccess result
              && isWatched (mutationQueryResolverMap cfg) (definitionNameOrEmpty d));
      [| reflexivity].
    rewrite bind_run, (updateQueriesAfterMutation_no_keys op _ _ st Hnone). reflexivity.
Qed.

(** X17.  Once a query that is not optimistic has succeeded through the
    link and its request has returned, running it again, whatever its new
    result, returns that result and changes nothing but the console: the
    key is not tracked twice. *)
Theorem request_query_rerun (op : Operation) (d : DefinitionNode)
    (first again : FetchResult) (st : State S) :
  getMainDefinition (operation_query op) = Ok d →
  definitionOperation d = Some OpQuery →
  isOptimistic (operation_context op) = false →
  isSuccess first = true →
  fst (request cfg op first st) = Ok first →
  fst (request cfg op again (snd (request cfg op first st))) = Ok again
  ∧ sameButConsole (snd (request cfg op first st))
                   (snd (request cfg op again (snd (request cfg op first st)))).
Proof.
  intros Hd Hkind Hplain Hsuccess Hreturned.
  rewrite (request_query_run op d again _ Hd Hkind Hplain).
  destruct (isSuccess again && isQueryRelated cfg (definitionNameOrEmpty d)) eqn:Hagain;
    [| split; [reflexivity | apply sameButConsole_refl]].
  apply andb_prop in Hagain as [_ Hrelated].
  revert Hreturned.
  rewrite (request_query_run op d first st Hd Hkind Hplain), Hsuccess, Hrelated. simpl.
  destruct (tracksArray (definitionNameOrEmpty d) (queriesToUpdate st)) eqn:Harray;
    [intros _ | discriminate].
  set (st1 := logged (debug cfg) "Found a successful query related to a watched mutation" st).
  assert (Harray1 : tracksArray (definitionNameOrEmpty d) (queriesToUpdate st1) = true)
    by (unfold st1; rewrite logged_queriesToUpdate; exact Harray).
  destruct (addQuery_tracks queryManagerDebug (definitionNameOrEmpty d) (createKey op) st1
              Harray1) as (_ & Harray2 & Htracked).
  rewrite Harray2. split; [reflexivity |].
  rewrite (addQuery_run queryManagerDebug _ _ (logged _ _ (snd (addQuery _ _ _ _)))).
  rewrite logged_queriesToUpdate, Harray2, Htracked. apply sameButConsole_logged.
Qed.

End RequestMore.

Lemma request_returns_forwarded_result_witness :
  fst (request scenarioConfig (addItemOptimistic itemB) failedResult (afterListItems itemA))
  = Ok failedResult.
Proof.
  assert (Hran : ∃ r, fst (request scenarioConfig (addItemOptimistic itemB) failedResult
                             (afterListItems itemA)) = Ok r) by (eexists; reflexivity).
  destruct Hran as [r Hr]. rewrite Hr. f_equal.
  apply (request_returns_forwarded_result scenarioConfig (addItemOptimistic itemB)
           failedResult r (afterListItems itemA) Hr).
Defined.

Lemma request_query_touches_only_tracker_witness :
  fst (request scenarioConfig listItemsOperation (succeededWith itemA)
         (initialState (seededStore itemA))) = Ok (succeededWith itemA)
  ∧ cache (snd (request scenarioConfig listItemsOperation (succeededWith itemA)
                  (initialState (seededStore itemA)))) = seededStore itemA.
Proof.
  destruct (request_query_touches_only_tracker scenarioConfig listItemsOperation
              (OperationDefinition OpQuery (Some "ListItems") [Field "items"])
              (succeededWith itemA) (initialState (seededStore itemA)) eq_refl eq_refl eq_refl)
    as (Hok & Hcache & _).
  split; [exact Hok | exact Hcache].
Defined.

Lemma request_inert_operations_witness :
  request scenarioConfig addItemOperation failedResult (afterListItems itemA)
  = (Ok failedResult, afterListItems itemA).
Proof.
  apply (request_inert_operations scenarioConfig addItemOperation
           (OperationDefinition OpMutation (Some "AddItem") [Field "addItem"])
           failedResult (afterListItems itemA) eq_refl).
  - discriminate.
  - right. split; [reflexivity |]. right. left. reflexivity.
Defined.

Lemma request_query_rerun_witness :
  fst (request scenarioConfig listItemsOperation failedResult (afterListItems itemA))
  = Ok failedResult
  ∧ queriesToUpdate (snd (request scenarioConfig listItemsOperation failedResult
                            (afterListItems itemA)))
    = queriesToUpdate (afterListItems itemA).
Proof.
  destruct (request_query_rerun scenarioConfig listItemsOperation
              (OperationDefinition OpQuery (Some "ListItems") [Field "items"])
              {| isSuccess := true; resultObject := VObj [("data", itemsOf [itemA])] |}
              failedResult (initialState (seededStore itemA)) eq_refl eq_refl eq_refl eq_refl
              eq_refl)
    as (Hok & _ & Hq & _).
  split; [exact Hok | exact Hq].
Defined.

(** ** Snapshots: what is recorded, and reverting twice *)

Section SnapshotsMore.
Context {S : Type} `{CacheStore S}.
Variable cfg : Config.

(** X20.  [addOptimisticRequest] changes neither the store, nor the
    tracker, nor the record of calls.  When the tracker returns an array for
    every query name registered for the mutation, it does not throw, and
    afterwards the snapshot of every affected key is what [read] returns for
    it on the store (its data, or undefined when the store throws), and the
    snapshot of any other key is what it was.  Otherwise (a registered query
    name is inherited from [Object.prototype] and not tracked) it throws a
    TypeError and leaves the state as it was. *)
Theorem addOptimisticRequest_records_current_data (name : string) (st : State S) :
  let after := snd (addOptimisticRequest cfg name st) in
  cache after = cache st
  ∧ queriesToUpdate after = queriesToUpdate st
  ∧ events after = events st
  ∧ (registeredTrackArrays cfg name (queriesToUpdate st) = true →
     fst (addOptimisticRequest cfg name st) = Ok tt
     ∧ (∀ k, k ∈ affectedKeys cfg name (queriesToUpdate st) →
             fst (getBeforeState (ForKey k) after) = Ok (readValue k (cache st)))
     ∧ (∀ key, (∀ k, k ∈ affectedKeys cfg name (queriesToUpdate st) → key ≠ ForKey k) →
               fst (getBeforeState key after) = fst (getBeforeState key st)))
  ∧ (registeredTrackArrays cfg name (queriesToUpdate st) = false →
     addOptimisticRequest cfg name st
     = (Throw (TypeError "relevantQueryCacheKeys is not iterable"), st)).
Proof.
  intros after. subst after.
  pose proof (addOptimisticRequest_run cfg name st) as Hadd.
  destruct (registeredTrackArrays cfg name (queriesToUpdate st)).
  - destruct Hadd as (st1 & -> & Hc & Hq & He & Hi). simpl.
    refine (conj Hc (conj Hq (conj He (conj _ _)))); [intros _ | discriminate].
    refine (conj eq_refl (conj _ _)).
    + intros k Hk. rewrite Hi, (lookupSnapshot_snapshotsOf _ _ _ k Hk). reflexivity.
    + intros key Hother. rewrite Hi, (lookupSnapshot_snapshotsOf_other _ _ _ key Hother).
      reflexivity.
  - rewrite Hadd. simpl.
    refine (conj eq_refl (conj eq_refl (conj eq_refl (conj _ _)))); [discriminate | auto].
Qed.

Lemma forEach_revertOne_clears (keys : list CacheKey) :
  ∀ (st : State S) (k : CacheKey),
    k ∈ keys ∨ lookupSnapshot (ForKey k) (inflightRequests st) = VNull →
    lookupSnapshot (ForKey k) (inflightRequests (snd (forEach (revertOne cfg) keys st))) = VNull.
Proof.
  induction keys as [| k1 keys IH]; intros st k Hk; simpl.
  - destruct Hk as [Hk | Hk]; [inversion Hk | exact Hk].
  - destruct (revertOne_run cfg k1 st) as (st1 & Hrun & _ & Hi & _).
    rewrite bind_run, Hrun. simpl. apply IH.
    destruct (decide (k1 = k)) as [-> | Hne].
    + right. rewrite Hi. simpl. destruct (decide (ForKey k = ForKey k)); [reflexivity | contradiction].
    + destruct Hk as [Hk | Hk].
      * apply elem_of_cons in Hk as [-> | Hk]; [contradiction | left; exact Hk].
      * right. rewrite Hi. simpl.
        destruct (decide (ForKey k1 = ForKey k)) as [[= ->] | _]; [contradiction | exact Hk].
Qed.

Lemma forEach_revertOne_nothing_to_restore (keys : list CacheKey) :
  ∀ st : State S,
    (∀ k, k ∈ keys → truthy (lookupSnapshot (ForKey k) (inflightRequests st)) = false) →
    cache (snd (forEach (revertOne cfg) keys st)) = cache st
    ∧ events (snd (forEach (revertOne cfg) keys st)) = events st.
Proof.
  induction keys as [| k1 keys IH]; intros st Hnone; simpl; [auto |].
  destruct (revertOne_run cfg k1 st) as (st1 & Hrun & _ & Hi & Hc & He).
  rewrite bind_run, Hrun. simpl.
  rewrite (Hnone k1) in Hc, He by left. simpl in Hc, He. rewrite app_nil_r in He.
  destruct (IH st1) as [Hc' He'].
  - intros k Hk. rewrite Hi. simpl. destruct (decide (ForKey k1 = ForKey k)); [reflexivity |].
    apply Hnone. right. exact Hk.
  - rewrite Hc', He', Hc, He. auto.
Qed.

(** X21.  [revertOptimisticRequest] does not change the tracker.  When the
    tracker returns an array for every query name registered for the
    mutation, it does not throw, and afterwards the snapshot of every
    affected key is null, so that reverting once more writes nothing: the
    store and the record of calls stay as the first revert left them.
    Otherwise (a registered query name is inherited from [Object.prototype]
    and not tracked) it throws a TypeError and leaves the state as it
    was. *)
Theorem revert_twice_writes_nothing (name : string) (st : State S) :
  let once := snd (revertOptimisticRequest cfg name st) in
  queriesToUpdate once = queriesToUpdate st
  ∧ (registeredTrackArrays cfg name (queriesToUpdate st) = true →
     fst (revertOptimisticRequest cfg name st) = Ok tt
     ∧ (∀ k, k ∈ affectedKeys cfg name (queriesToUpdate st) →
             fst (getBeforeState (ForKey k) once) = Ok VNull)
     ∧ fst (revertOptimisticRequest cfg name once) = Ok tt
     ∧ cache (snd (revertOptimisticRequest cfg name once)) = cache once
     ∧ events (snd (revertOptimisticRequest cfg name once)) = events once)
  ∧ (registeredTrackArrays cfg name (queriesToUpdate st) = false →
     revertOptimisticRequest cfg name st
     = (Throw (TypeError "relevantQueryCacheKeys is not iterable"), st)).
Proof.
  intros once. subst once. unfold revertOptimisticRequest.
  rewrite !bind_run, getCachedQueryKeysToUpdate_run.
  destruct (registeredTrackArrays cfg name (queriesToUpdate st)) eqn:Harrays; simpl.
  2: { refine (conj eq_refl (conj _ _)); [discriminate | auto]. }
  set (keys := affectedKeys cfg name (queriesToUpdate st)).
  destruct (forEach_revertOne_tracker cfg keys st) as [Hok Hq].
  assert (Hnull : ∀ k, k ∈ keys →
            lookupSnapshot (ForKey k) (inflightRequests (snd (forEach (revertOne cfg) keys st)))
            = VNull)
    by (intros k Hk; apply forEach_revertOne_clears; left; exact Hk).
  refine (conj Hq (conj _ _)); [intros _ | discriminate].
  refine (conj Hok (conj _ _)).
  - intros k Hk. unfold getBeforeState. simpl. rewrite (Hnull k Hk). reflexivity.
  - rewrite getCachedQueryKeysToUpdate_run, Hq, Harrays. simpl. fold keys.
    destruct (forEach_revertOne_tracker cfg keys (snd (forEach (revertOne cfg) keys st)))
      as [Hok' _].
    refine (conj Hok' _). apply forEach_revertOne_nothing_to_restore.
    intros k Hk. rewrite (Hnull k Hk). reflexivity.
Qed.

End SnapshotsMore.

(** ** What a link keeps over any interleaving of requests and results *)

Section LinkInvariants.
Context {S : Type} `{CacheStore S}.
Variable cfg : Config.

(** Every tracked name is a registered query name. *)
Lemma updateQueriesAfterMutation_domain (op : Operation) (name : string) (data : value)
    (st : State S) (q : string) :
  is_Some (queriesToUpdate (snd (updateQueriesAfterMutation cfg op name data st)) !! q) →
  is_Some (queriesToUpdate st !! q).
Proof.
  destruct (updateQueriesAfterMutation cfg op name data st) as [o st'] eqn:Hrun.
  apply updateQueriesAfterMutation_run in Hrun.
  destruct Hrun as (_ & (processed & _ & _ & Hq) & _). simpl. rewrite Hq.
  destruct (queriesToUpdate st !! q); [eauto | intros [x Hx]; discriminate].
Qed.

Lemma requestStart_invariants (op : Operation) (st : State S) :
  trackerWellFormed (queriesToUpdate st) →
  trackerWellFormed (queriesToUpdate (snd (requestStart cfg op st)))
  ∧ ∀ q, is_Some (queriesToUpdate (snd (requestStart cfg op st)) !! q) →
         is_Some (queriesToUpdate st !! q).
Proof.
  intros Hwf. unfold requestStart. rewrite bind_run. unfold liftOutcome. simpl.
  destruct (getMainDefinition (operation_query op)) as [d | e]; simpl; [| auto].
  rewrite then_ret_snd. destruct (isOptimistic _ && isWatched _ _); [| auto].
  rewrite bind_run.
  pose proof (addOptimisticRequest_run cfg (definitionNameOrEmpty d) st) as Hadd.
  destruct (registeredTrackArrays cfg (definitionNameOrEmpty d) (queriesToUpdate st));
    [| rewrite Hadd; auto].
  destruct Hadd as (st1 & Hrun & _ & Hq & _).
  rewrite Hrun. simpl. split.
  - apply updateQueriesAfterMutation_wellFormed. rewrite Hq. exact Hwf.
  - intros q Hsome. apply updateQueriesAfterMutation_domain in Hsome. rewrite Hq in Hsome.
    exact Hsome.
Qed.

Lemma requestResult_invariants (op : Operation) (d : DefinitionNode) (result : FetchResult)
    (st : State S) :
  getMainDefinition (operation_query op) = Ok d →
  trackerWellFormed (queriesToUpdate st) →
  trackerWellFormed (queriesToUpdate (snd (requestResult cfg op d result st)))
  ∧ ∀ q, is_Some (queriesToUpdate (snd (requestResult cfg op d result st)) !! q) →
         is_Some (queriesToUpdate st !! q) ∨ isQueryRelated cfg q = true.
Proof.
  intros Hd Hwf. unfold requestResult. rewrite then_ret_snd.
  destruct (isSuccessfulQuery _ result && isQueryRelated cfg _) eqn:Htrack.
  { apply andb_prop in Htrack as [_ Hrelated].
    unfold debugLog, addRelatedQuery. rewrite bind_run, logWhen_run. simpl. split.
    - apply addQuery_wellFormed.
      + rewrite logged_queriesToUpdate. exact Hwf.
      + simpl. apply getQueryName_of_definition, Hd.
    - intros q. rewrite addQuery_run. unfold queryManagerDebug.
      destruct (tracksArray _ _); [| simpl; rewrite ?logged_queriesToUpdate; auto].
      destruct (existsb _ _); simpl; rewrite ?logged_queriesToUpdate; [auto |].
      destruct (decide (q = definitionNameOrEmpty d)) as [-> | Hne]; [auto |].
      rewrite lookup_insert_ne by congruence. auto. }
  destruct (isSuccessfulMutation _ result && isWatched _ _).
  { destruct (isOptimistic (operation_context op)).
    - destruct (clearOptimisticRequest_run cfg (ForName (definitionNameOrEmpty d)) st)
        as (st2 & -> & _ & Hq & _). simpl. rewrite Hq. auto.
    - split; [apply updateQueriesAfterMutation_wellFormed, Hwf |].
      intros q Hsome. left. apply updateQueriesAfterMutation_domain in Hsome. exact Hsome. }
  destruct (isFailedMutation _ result && isWatched _ _ && isOptimistic _); [| auto].
  unfold revertOptimisticRequest. rewrite bind_run, getCachedQueryKeysToUpdate_run.
  destruct (registeredTrackArrays cfg (definitionNameOrEmpty d) (queriesToUpdate st)); simpl;
    [| auto].
  destruct (forEach_revertOne_tracker cfg
              (affectedKeys cfg (definitionNameOrEmpty d) (queriesToUpdate st)) st)
    as [_ ->]. auto.
Qed.

Lemma linkSteps_snoc (steps : list LinkStep) (step : LinkStep) (st : State S) :
  linkSteps cfg (steps ++ [step]) st = linkStep cfg step (linkSteps cfg steps st).
Proof. unfold linkSteps. rewrite foldl_app. reflexivity. Qed.

(** X22.  Whatever requests and results a new link goes through, in
    whatever order: every tracked key is tracked under the name of its own
    query, no two keys tracked under a name share a serialisation, and every
    tracked name is a query name registered for some mutation. *)
Theorem link_keeps_tracker_invariants (store : S) (steps : list LinkStep) :
  let reached := linkSteps cfg steps (constructLink cfg store) in
  trackerWellFormed (queriesToUpdate reached)
  ∧ ∀ q, is_Some (queriesToUpdate reached !! q) →
         q ∈ getAllRegisteredQueryNames (mutationQueryResolverMap cfg).
Proof.
  induction steps as [| step steps IH] using rev_ind.
  - simpl. unfold constructLink, debugLog. rewrite logWhen_run. simpl.
    rewrite logged_queriesToUpdate. simpl. split; [apply trackerWellFormed_empty |].
    intros q [l Hl]. rewrite lookup_empty in Hl. discriminate.
  - simpl in *. rewrite linkSteps_snoc. destruct IH as [Hwf Hdom].
    destruct step as [op | op result]; simpl.
    + destruct (requestStart_invariants op _ Hwf) as [Hwf' Hdom']. split; [exact Hwf' |].
      intros q Hq. apply Hdom, Hdom', Hq.
    + destruct (getMainDefinition (operation_query op)) as [d |] eqn:Hd; [| auto].
      destruct (requestResult_invariants op d result _ Hd Hwf) as [Hwf' Hdom'].
      split; [exact Hwf' |]. intros q Hq.
      destruct (Hdom' q Hq) as [Hold | Hrelated]; [apply Hdom, Hold |].
      apply isQueryRelated_registered, Hrelated.
Qed.

(** X23.  A read-only link never changes the store, whatever requests and
    results it goes through and whether or not they throw. *)
Theorem readOnly_link_never_changes_store (steps : list LinkStep) (st : State S) :
  readOnly cfg = true →
  cache (linkSteps cfg steps st) = cache st.
Proof.
  intros Hro.
  assert (Hcfg : cfg = withReadOnly true cfg)
    by (destruct cfg; simpl in Hro; subst; reflexivity).
  induction steps as [| step steps IH] using rev_ind; [reflexivity |].
  rewrite linkSteps_snoc, <- IH. destruct step as [op | op result]; simpl.
  - rewrite Hcfg. apply requestStart_readOnly.
  - destruct (getMainDefinition (operation_query op)) as [d |]; [| reflexivity].
    rewrite Hcfg at 1.
    destruct (requestResult_readOnly cfg op d result (linkSteps cfg steps st)
                (linkSteps cfg steps st)) as (_ & Hcache & _);
      [repeat split | reflexivity | exact Hcache].
Qed.

End LinkInvariants.

Lemma readOnly_link_never_changes_store_witness :
  cache (linkSteps (withReadOnly true scenarioConfig)
           [Requested listItemsOperation;
            Resulted listItemsOperation (succeededWith itemA);
            Requested (addItemOptimistic itemB);
            Resulted (addItemOptimistic itemB) failedResult]
           (initialState (seededStore itemA)))
  = seededStore itemA.
Proof.
  apply (readOnly_link_never_changes_store (withReadOnly true scenarioConfig)
           [Requested listItemsOperation;
            Resulted listItemsOperation (succeededWith itemA);
            Requested (addItemOptimistic itemB);
            Resulted (addItemOptimistic itemB) failedResult]
           (initialState (seededStore itemA))).
  reflexivity.
Defined.

Lemma optimistic_phase_applies_prediction_witness :
  fst (requestStart scenarioConfig (addItemOptimistic itemB) (afterListItems itemA))
  = Ok (OperationDefinition OpMutation (Some "AddItem") [Field "addItem"])
  ∧ fst (getBeforeState (ForKey listItemsKey) (afterOptimisticAddItem itemA itemB))
    = Ok (itemsOf [itemA])
  ∧ cache_readQuery listItemsKey (cache (afterOptimisticAddItem itemA itemB))
    = Ok (itemsOf [itemA; itemB]).
Proof.
  split; [reflexivity |].
  pose proof (optimistic_phase_applies_prediction scenarioConfig (addItemOptimistic itemB)
                (OperationDefinition OpMutation (Some "AddItem") [Field "addItem"])
                (afterListItems itemA) eq_refl (afterListItems_wellFormed itemA)
                eq_refl eq_refl eq_refl eq_refl "ListItems" listItemsKey) as Hphase.
  simpl in Hphase. destruct Hphase as (Hsnapshot & _ & Hpresent).
  - left.
  - left.
  - split; [exact Hsnapshot |].
    apply (Hpresent appendItem (itemsOf [itemA; itemB])); reflexivity.
Defined.

(** ** The debug option of the link *)

Section DebugOnlyLogs.
Context {S : Type} `{CacheStore S}.

Lemma agree_ret {A} (a : A) : agreeButConsole (S := S) (ret a) (ret a).
Proof. intros st1 st2 Hs. split; [reflexivity | exact Hs]. Qed.

Lemma agree_throw {A} (e : exn) : agreeButConsole (S := S) (A := A) (throw e) (throw e).
Proof. intros st1 st2 Hs. split; [reflexivity | exact Hs]. Qed.

Lemma agree_liftOutcome {A} (o : outcome A) :
  agreeButConsole (S := S) (liftOutcome o) (liftOutcome o).
Proof. intros st1 st2 Hs. split; [reflexivity | exact Hs]. Qed.

Lemma agree_bind {A B} (m1 m2 : M S A) (k1 k2 : A → M S B) :
  agreeButConsole m1 m2 → (∀ a, agreeButConsole (k1 a) (k2 a)) →
  agreeButConsole (bind m1 k1) (bind m2 k2).
Proof.
  intros Hm Hk st1 st2 Hs. unfold bind. destruct (Hm st1 st2 Hs) as [Ho Hs'].
  destruct (m1 st1) as [[a1 | e1] st1'], (m2 st2) as [[a2 | e2] st2']; simpl in *;
    try discriminate.
  - injection Ho as ->. apply Hk, Hs'.
  - injection Ho as ->. split; [reflexivity | exact Hs'].
Qed.

Lemma agree_tryCatch {A} (m1 m2 : M S A) (h1 h2 : exn → M S A) :
  agreeButConsole m1 m2 → (∀ e, agreeButConsole (h1 e) (h2 e)) →
  agreeButConsole (tryCatch m1 h1) (tryCatch m2 h2).
Proof.
  intros Hm Hh st1 st2 Hs. unfold tryCatch. destruct (Hm st1 st2 Hs) as [Ho Hs'].
  destruct (m1 st1) as [[a1 | e1] st1'], (m2 st2) as [[a2 | e2] st2']; simpl in *;
    try discriminate.
  - split; [exact Ho | exact Hs'].
  - injection Ho as ->. apply Hh, Hs'.
Qed.

Lemma agree_getState {A} (k1 k2 : State S → M S A) :
  (∀ s1 s2, sameButConsole s1 s2 → agreeButConsole (k1 s1) (k2 s2)) →
  agreeButConsole (bind getState k1) (bind getState k2).
Proof. intros Hk st1 st2 Hs. unfold bind, getState. apply Hk; exact Hs. Qed.

Lemma agree_logWhen (d1 d2 : bool) (m1 m2 : string) :
  agreeButConsole (S := S) (logWhen d1 m1) (logWhen d2 m2).
Proof.
  intros st1 st2 (Hc & Hq & Hi & He).
  destruct d1, d2; (split; [reflexivity |]); repeat split; simpl; assumption.
Qed.

Lemma agree_recordEvent (e : Event) : agreeButConsole (S := S) (recordEvent e) (recordEvent e).
Proof.
  intros st1 st2 (Hc & Hq & Hi & He). split; [reflexivity |].
  repeat split; simpl; congruence.
Qed.

Lemma agree_storeRead {A} (f : S → outcome A) : agreeButConsole (storeRead f) (storeRead f).
Proof.
  intros st1 st2 Hs. unfold storeRead. simpl. destruct Hs as (Hc & Hrest).
  rewrite Hc. split; [reflexivity |]. split; assumption.
Qed.

Lemma agree_storeCall {A} (f : S → outcome A * S) : agreeButConsole (storeCall f) (storeCall f).
Proof.
  intros st1 st2 (Hc & Hq & Hi & He). unfold storeCall. rewrite Hc.
  destruct (f (cache st1)) as [r c]. split; [reflexivity |].
  repeat split; simpl; assumption.
Qed.

Lemma agree_forEach {A} (f1 f2 : A → M S unit) (l : list A) :
  (∀ x, agreeButConsole (f1 x) (f2 x)) → agreeButConsole (forEach f1 l) (forEach f2 l).
Proof.
  intros Hf. induction l as [| x l IH]; simpl.
  - apply agree_ret.
  - apply agree_bind; [apply Hf | intros _; exact IH].
Qed.

Lemma agree_reduce {A B} (f1 f2 : B → A → M S B) (l : list A) (init : B) :
  (∀ acc x, agreeButConsole (f1 acc x) (f2 acc x)) →
  agreeButConsole (reduce f1 l init) (reduce f2 l init).
Proof.
  intros Hf. revert init. induction l as [| x l IH]; intros init; simpl.
  - apply agree_ret.
  - apply agree_bind; [apply Hf | intros acc; apply IH].
Qed.

Lemma agree_readQueryKeysToUpdate (q : string) :
  agreeButConsole (S := S) (readQueryKeysToUpdate q) (readQueryKeysToUpdate q).
Proof.
  intros st1 st2 Hs. unfold readQueryKeysToUpdate. simpl.
  destruct Hs as (Hc & Hq & Hrest). rewrite Hq. split; [reflexivity |].
  split; [exact Hc | split; [exact Hq | exact Hrest]].
Qed.

Lemma agree_assignQueryKeys (q : string) (keys : list CacheKey) :
  agreeButConsole (S := S) (assignQueryKeys q keys) (assignQueryKeys q keys).
Proof.
  intros st1 st2 (Hc & Hq & Hi & He). split; [reflexivity |].
  repeat split; simpl; congruence.
Qed.

Lemma agree_asArray (message : string) (found : TrackedValue) :
  agreeButConsole (S := S) (asArray message found) (asArray message found).
Proof. destruct found; [apply agree_ret | apply agree_throw]. Qed.

Lemma agree_addQuery (d1 d2 : bool) (q : string) (k : CacheKey) :
  agreeButConsole (S := S) (addQuery d1 q k) (addQuery d2 q k).
Proof.
  unfold addQuery. apply agree_bind; [apply agree_readQueryKeysToUpdate |].
  intros found. apply agree_bind; [apply agree_asArray |].
  intros existing. destruct (negb _); [| apply agree_ret].
  apply agree_bind; [apply agree_readQueryKeysToUpdate |]. intros current.
  apply agree_bind; [apply agree_asArray |]. intros currentKeys.
  apply agree_bind; [apply agree_assignQueryKeys | intros _; apply agree_logWhen].
Qed.

Lemma agree_removeQuery (d1 d2 : bool) (q : string) (k : CacheKey) :
  agreeButConsole (S := S) (removeQuery d1 q k) (removeQuery d2 q k).
Proof.
  unfold removeQuery. apply agree_bind; [apply agree_readQueryKeysToUpdate |].
  intros current. apply agree_bind; [apply agree_asArray |]. intros currentKeys.
  apply agree_getState. intros s1 s2 (_ & Hq & _). rewrite Hq.
  destruct (lookupProperty q (queriesToUpdate s1)) as [tracked |]; [| apply agree_throw].
  destruct (negb _); [| apply agree_ret].
  apply agree_bind; [apply agree_assignQueryKeys | intros _; apply agree_logWhen].
Qed.

Lemma agree_read (d1 d2 : bool) (k : CacheKey) : agreeButConsole (read d1 k) (read d2 k).
Proof.
  unfold read. apply agree_tryCatch; [apply agree_storeRead |]. intros e.
  apply agree_bind; [apply agree_logWhen | intros _; apply agree_ret].
Qed.

Lemma agree_write (d1 d2 ro : bool) (k : CacheKey) (data : value) :
  agreeButConsole (write d1 ro k data) (write d2 ro k data).
Proof.
  unfold write. apply agree_bind; [apply agree_recordEvent |]. intros _.
  destruct ro; [apply agree_logWhen |].
  apply agree_tryCatch; [| intros e; apply agree_logWhen].
  apply agree_bind; [apply agree_storeCall | intros _; apply agree_logWhen].
Qed.

Lemma agree_performTransaction (w1 w2 : M S unit) :
  agreeButConsole w1 w2 → agreeButConsole (performTransaction w1) (performTransaction w2).
Proof.
  intros Hw st1 st2 Hs. rewrite !performTransaction_run. apply Hw, Hs.
Qed.

Lemma agree_inflight_set (key : SnapshotKey) (v : value) :
  agreeButConsole (S := S) (inflight_set key v) (inflight_set key v).
Proof.
  intros st1 st2 (Hc & Hq & Hi & He). split; [reflexivity |].
  repeat split; simpl; congruence.
Qed.

Lemma agree_getBeforeState (key : SnapshotKey) :
  agreeButConsole (S := S) (getBeforeState key) (getBeforeState key).
Proof.
  intros st1 st2 Hs. unfold getBeforeState. simpl.
  destruct Hs as (Hc & Hq & Hi & He). rewrite Hi. split; [reflexivity |].
  repeat split; assumption.
Qed.

Variable cfg : Config.
Variables d1 d2 : bool.

Local Abbreviation cfg1 := (withDebug d1 cfg).
Local Abbreviation cfg2 := (withDebug d2 cfg).

Lemma agree_getCachedQueryKeysToUpdate (name : string) :
  agreeButConsole (S := S) (getCachedQueryKeysToUpdate cfg1 name)
                  (getCachedQueryKeysToUpdate cfg2 name).
Proof.
  unfold getCachedQueryKeysToUpdate. simpl. apply agree_reduce. intros acc q.
  apply agree_bind; [apply agree_readQueryKeysToUpdate |]. intros found.
  apply agree_bind; [apply agree_asArray | intros keys; apply agree_ret].
Qed.

Lemma agree_getUpdateAfterMutation (op : Operation) (data : value) (k : CacheKey) :
  agreeButConsole (getUpdateAfterMutation cfg1 op data k)
                  (getUpdateAfterMutation cfg2 op data k).
Proof.
  unfold getUpdateAfterMutation. simpl.
  apply agree_bind; [apply agree_liftOutcome |]. intros queryName.
  apply agree_bind; [apply agree_read |]. intros cached.
  destruct (negb (truthy cached)).
  - apply agree_bind; [apply agree_removeQuery | intros _; apply agree_ret].
  - apply agree_bind; [apply agree_liftOutcome |]. intros mutationName.
    apply agree_bind; [apply agree_liftOutcome |]. intros fn.
    apply agree_bind; [apply agree_recordEvent |]. intros _.
    apply agree_bind; [apply agree_liftOutcome |]. intros v.
    destruct (notNullish v); apply agree_ret.
Qed.

Lemma agree_updateQueriesAfterMutation (op : Operation) (name : string) (data : value) :
  agreeButConsole (updateQueriesAfterMutation cfg1 op name data)
                  (updateQueriesAfterMutation cfg2 op name data).
Proof.
  unfold updateQueriesAfterMutation.
  apply agree_bind; [apply agree_getCachedQueryKeysToUpdate |]. intros keys.
  apply agree_bind.
  - apply agree_reduce. intros items k. unfold collectItem.
    apply agree_bind; [apply agree_logWhen |]. intros _.
    apply agree_bind; [apply agree_getUpdateAfterMutation |]. intros [item |].
    + apply agree_ret.
    + apply agree_bind; [apply agree_logWhen | intros _; apply agree_ret].
  - intros items. apply agree_performTransaction, agree_forEach. intros item.
    apply agree_write.
Qed.

Lemma agree_addOptimisticRequest (name : string) :
  agreeButConsole (addOptimisticRequest cfg1 name) (addOptimisticRequest cfg2 name).
Proof.
  unfold addOptimisticRequest.
  apply agree_bind; [apply agree_getCachedQueryKeysToUpdate |]. intros keys.
  apply agree_forEach. intros k. unfold snapshotOne.
  apply agree_bind; [apply agree_read |]. intros v.
  apply agree_bind; [apply agree_inflight_set | intros _; apply agree_logWhen].
Qed.

Lemma agree_clearOptimisticRequest (key : SnapshotKey) :
  agreeButConsole (S := S) (clearOptimisticRequest cfg1 key) (clearOptimisticRequest cfg2 key).
Proof.
  unfold clearOptimisticRequest.
  apply agree_bind; [apply agree_inflight_set | intros _; apply agree_logWhen].
Qed.

Lemma agree_revertOptimisticRequest (name : string) :
  agreeButConsole (revertOptimisticRequest cfg1 name) (revertOptimisticRequest cfg2 name).
Proof.
  unfold revertOptimisticRequest.
  apply agree_bind; [apply agree_getCachedQueryKeysToUpdate |]. intros keys.
  apply agree_forEach. intros k. unfold revertOne.
  apply agree_bind; [apply agree_getBeforeState |]. intros v.
  apply agree_bind; [| intros _; apply agree_clearOptimisticRequest].
  destruct (truthy v); [| apply agree_ret].
  apply agree_bind; [apply agree_write | intros _; apply agree_logWhen].
Qed.

Lemma agree_requestStart (op : Operation) :
  agreeButConsole (requestStart cfg1 op) (requestStart cfg2 op).
Proof.
  unfold requestStart. apply agree_bind; [apply agree_liftOutcome |]. intros d.
  apply agree_bind; [| intros _; apply agree_ret]. simpl.
  destruct (_ && _); [| apply agree_ret].
  apply agree_bind; [apply agree_addOptimisticRequest |]. intros _.
  apply agree_updateQueriesAfterMutation.
Qed.

Lemma agree_requestResult (op : Operation) (d : DefinitionNode) (result : FetchResult) :
  agreeButConsole (requestResult cfg1 op d result) (requestResult cfg2 op d result).
Proof.
  unfold requestResult. apply agree_bind; [| intros _; apply agree_ret].
  change (isQueryRelated cfg1 (definitionNameOrEmpty d))
    with (isQueryRelated cfg2 (definitionNameOrEmpty d)). simpl.
  destruct (_ && isQueryRelated _ _).
  { apply agree_bind; [apply agree_logWhen | intros _; apply agree_addQuery]. }
  destruct (isSuccessfulMutation _ _ && _).
  { destruct (isOptimistic _);
      [apply agree_clearOptimisticRequest | apply agree_updateQueriesAfterMutation]. }
  destruct (_ && _ && _); [apply agree_revertOptimisticRequest | apply agree_ret].
Qed.

Lemma agree_linkSteps (steps : list LinkStep) (st1 st2 : State S) :
  sameButConsole st1 st2 →
  sameButConsole (linkSteps cfg1 steps st1) (linkSteps cfg2 steps st2).
Proof.
  revert st1 st2. induction steps as [| step steps IH]; intros st1 st2 Hs; [exact Hs |].
  simpl. apply IH. destruct step as [op | op result]; simpl.
  - apply agree_requestStart, Hs.
  - destruct (getMainDefinition (operation_query op)); [| exact Hs].
    apply agree_requestResult, Hs.
Qed.

(** X25.  The debug option only adds console output.  Two links that
    differ in nothing but their debug option, constructed over the same
    store and taken through the same sequence of request starts and results,
    are in states that differ at most by the console: same store, same
    tracked keys, same snapshots, same update-function and write calls; and
    a further request then has the same outcome on both. *)
Theorem link_debug_only_logs (store : S) (steps : list LinkStep)
    (op : Operation) (result : FetchResult) :
  let st1 := linkSteps cfg1 steps (constructLink cfg1 store) in
  let st2 := linkSteps cfg2 steps (constructLink cfg2 store) in
  sameButConsole st1 st2
  ∧ fst (request cfg1 op result st1) = fst (request cfg2 op result st2)
  ∧ sameButConsole (snd (request cfg1 op result st1)) (snd (request cfg2 op result st2)).
Proof.
  intros st1 st2.
  assert (Hs : sameButConsole st1 st2).
  { apply agree_linkSteps. unfold constructLink, debugLog.
    apply agree_logWhen, sameButConsole_refl. }
  split; [exact Hs |].
  apply (agree_bind (requestStart cfg1 op) (requestStart cfg2 op)
           (λ d, requestResult cfg1 op d result) (λ d, requestResult cfg2 op d result));
    [apply agree_requestStart | intros d; apply agree_requestResult | exact Hs].
Qed.

End DebugOnlyLogs.

(** ** The keys and the calls of an update pass *)

Section UpdatePassCalls.
Context {S : Type} `{CacheStore S}.
Variable cfg : Config.

Lemma affectedKeys_NoDup (name : string) (tracked : gmap string (list CacheKey)) :
  trackerWellFormed tracked →
  NoDup (getRegisteredQueryNames (mutationQueryResolverMap cfg) name) →
  NoDup (affectedKeys cfg name tracked).
Proof.
  intros Hwf. unfold affectedKeys. rewrite foldl_app_keys. simpl.
  induction (getRegisteredQueryNames (mutationQueryResolverMap cfg) name) as [| q names IH];
    simpl; intros Hnames; [constructor |].
  apply NoDup_cons in Hnames as [Hq Hnames]. apply NoDup_app. refine (conj _ (conj _ (IH Hnames))).
  - unfold trackedKeys. destruct (tracked !! q) as [l |] eqn:Hl; [| constructor].
    destruct (Hwf q l Hl) as [_ Hnd]. clear -Hnd.
    induction l as [| a l IHl]; [constructor |]. simpl in Hnd.
    apply NoDup_cons in Hnd as [Ha Hnd]. apply NoDup_cons. split; [| auto].
    intros Hin. apply Ha, list_elem_of_In, List.in_map, list_elem_of_In, Hin.
  - intros k Hk Hk'. apply elem_of_trackedKeys in Hk as (l & Hl & Hin).
    apply list_elem_of_In, List.in_flat_map in Hk' as (q' & Hq' & Hin').
    apply list_elem_of_In, elem_of_trackedKeys in Hin' as (l' & Hl' & Hin').
    destruct (Hwf q l Hl) as [Hname _]. destruct (Hwf q' l' Hl') as [Hname' _].
    pose proof (Hname k Hin) as E. rewrite (Hname' k Hin') in E. injection E as ->.
    apply Hq, list_elem_of_In, Hq'.
Qed.

(** X26.  On a well-formed tracker the keys affected by a mutation are
    pairwise different, as the comment of [getCachedQueryKeysToUpdate]
    promises, and so are the keys that function returns: no key is updated,
    snapshotted or reverted twice in a pass.  (The query names registered
    for a mutation are the keys of an object, hence pairwise different.) *)
Theorem affected_keys_are_unique (name : string) (tracked : gmap string (list CacheKey)) :
  trackerWellFormed tracked →
  NoDup (getRegisteredQueryNames (mutationQueryResolverMap cfg) name) →
  NoDup (affectedKeys cfg name tracked)
  ∧ ∀ (st : State S) (keys : list CacheKey),
      queriesToUpdate st = tracked →
      fst (getCachedQueryKeysToUpdate cfg name st) = Ok keys →
      NoDup keys.
Proof.
  intros Hwf Hnames. split; [apply affectedKeys_NoDup; assumption |].
  intros st keys <-. rewrite getCachedQueryKeysToUpdate_run.
  destruct (registeredTrackArrays cfg name (queriesToUpdate st)); simpl; [| discriminate].
  intros [= <-]. apply affectedKeys_NoDup; assumption.
Qed.

Lemma updateCalls_cons (op : Operation) (c : S) (k : CacheKey) (keys : list CacheKey) :
  updateCalls op c (k :: keys) = updateCalls op c [k] ++ updateCalls op c keys.
Proof. unfold updateCalls. simpl. rewrite app_nil_r. reflexivity. Qed.

Lemma getUpdateAfterMutation_events (op : Operation) (data : value) (k : CacheKey)
    (st : State S) (r : option (CacheKey * value)) (st' : State S) :
  getUpdateAfterMutation cfg op data k st = (Ok r, st') →
  events st' = events st ++ updateCalls op (cache st) [k].
Proof.
  unfold getUpdateAfterMutation, updateCalls. rewrite bind_run. unfold liftOutcome. simpl.
  destruct (getQueryName (query k)) as [q |]; simpl; [| discriminate].
  destruct (read_run (debug cfg) k st) as (st1 & Hread & Hc1 & Hq1 & Hi1 & He1).
  rewrite bind_run, Hread. simpl.
  destruct (truthy (readValue k (cache st))); simpl.
  - rewrite bind_run. simpl.
    destruct (getQueryName (operation_query op)) as [m |]; simpl; [| discriminate].
    rewrite bind_run. simpl.
    destruct (getUpdateFn (mutationQueryResolverMap cfg) m q) as [fn |]; simpl; [| discriminate].
    rewrite bind_run. simpl. rewrite bind_run. simpl.
    match goal with |- context [fn ?args] => destruct (fn args) as [v |] end; simpl;
      [| discriminate].
    destruct (notNullish v); intros [= _ <-]; simpl; rewrite He1; reflexivity.
  - rewrite bind_run. unfold removeRelatedQuery.
    pose proof (removeQuery_run queryManagerDebug q k st1) as Hremove.
    destruct (queriesToUpdate st1 !! q) as [l |].
    + destruct Hremove as (st2 & -> & _ & _ & _ & He2). simpl. intros [= _ <-].
      rewrite He2, He1. destruct (getQueryName (operation_query op)); symmetry; apply app_nil_r.
    + rewrite Hremove. discriminate.
Qed.

Lemma collect_events (op : Operation) (name : string) (data : value) (keys : list CacheKey) :
  ∀ (items items' : list (CacheKey * value)) (st st' : State S),
  reduce (collectItem cfg op name data) keys items st = (Ok items', st') →
  events st' = events st ++ updateCalls op (cache st) keys.
Proof.
  induction keys as [| k keys IH]; intros items items' st st' Hrun; simpl in Hrun.
  - injection Hrun as _ <-. symmetry. apply app_nil_r.
  - rewrite bind_run in Hrun.
    destruct (collectItem cfg op name data items k st) as [o1 st1] eqn:Hstep. simpl in Hrun.
    destruct o1 as [items1 | e]; [| discriminate].
    pose proof (collectItem_step cfg op name data items k st _ _ Hstep) as (Hc & _).
    apply IH in Hrun. rewrite Hc in Hrun. rewrite Hrun.
    rewrite (updateCalls_cons op (cache st) k keys), app_assoc. f_equal. revert Hstep. unfold collectItem, debugLog.
    rewrite bind_run, logWhen_run. simpl. rewrite bind_run.
    destruct (getUpdateAfterMutation cfg op data k (logged _ _ st)) as [o2 st2] eqn:Hget.
    simpl. destruct o2 as [r | e]; simpl; [| discriminate].
    apply getUpdateAfterMutation_events in Hget. rewrite logged_cache, logged_events in Hget.
    destruct r as [item |]; simpl.
    + intros [= _ <-]. exact Hget.
    + rewrite bind_run, logWhen_run. simpl. intros [= _ <-].
      rewrite logged_events. exact Hget.
Qed.

(** X27.  The calls of a completed update pass, in order: first the update
    function of every affected key whose cached data is present, once per
    key and in the order of the keys (never for a key whose data is absent),
    and only then the writes, one per value an update function returned
    that is neither null nor undefined, in the same order. *)
Theorem update_pass_call_order (op : Operation) (name : string) (data : value)
    (st : State S) :
  fst (updateQueriesAfterMutation cfg op name data st) = Ok tt →
  let keys := affectedKeys cfg name (queriesToUpdate st) in
  events (snd (updateQueriesAfterMutation cfg op name data st))
  = events st
    ++ updateCalls op (cache st) keys
    ++ List.map (λ item, WriteCalled (fst item) (snd item))
         (omap (plannedUpdate cfg op data (cache st)) keys).
Proof.
  unfold updateQueriesAfterMutation. rewrite bind_run, getCachedQueryKeysToUpdate_run.
  destruct (registeredTrackArrays cfg name (queriesToUpdate st)); simpl; [| discriminate].
  rewrite bind_run.
  destruct (reduce _ _ _ st) as [o1 st1] eqn:Hcollect. simpl.
  destruct o1 as [items | e]; [| discriminate].
  pose proof (collect_planned _ _ _ _ _ _ _ _ _ Hcollect) as Hitems. simpl in Hitems.
  apply collect_events in Hcollect.
  rewrite performTransaction_run.
  destruct (forEach_write_run (debug cfg) (readOnly cfg) items st1)
    as (st2 & -> & _ & _ & _ & He2).
  simpl. intros _. rewrite He2, Hcollect, Hitems, <- app_assoc. reflexivity.
Qed.

End UpdatePassCalls.

Lemma affected_keys_are_unique_witness :
  NoDup (affectedKeys scenarioConfig "AddItem" (queriesToUpdate (afterListItems itemA)))
  ∧ affectedKeys scenarioConfig "AddItem" (queriesToUpdate (afterListItems itemA))
    = [listItemsKey].
Proof.
  split; [| reflexivity].
  apply (affected_keys_are_unique (S := SimpleStore) scenarioConfig "AddItem").
  - apply afterListItems_wellFormed.
  - simpl. apply NoDup_cons. split; [intros Hin; inversion Hin | constructor].
Defined.

Lemma update_pass_call_order_witness :
  events (snd (updateQueriesAfterMutation scenarioConfig addItemOperation "AddItem"
                 (resultObject (succeededWith itemB)) (afterListItems itemA)))
  = events (afterListItems itemA)
    ++ [UpdateFnCalled "AddItem" "ListItems" listItemsKey;
        WriteCalled listItemsKey (itemsOf [itemA; itemB])].
Proof.
  exact (update_pass_call_order scenarioConfig addItemOperation "AddItem"
           (resultObject (succeededWith itemB)) (afterListItems itemA) eq_refl).
Defined.

(** ** Names inherited from Object.prototype *)

Section InheritedNames.
Context {S : Type} `{CacheStore S}.
Variable cfg : Config.

Lemma tracksArray_true (q : string) (t : gmap string (list CacheKey)) :
  tracksArray q t = true ↔ is_Some (t !! q) ∨ inheritedName q = false.
Proof.
  split.
  - intros Harray. destruct (t !! q) as [l |] eqn:Hl; [left; eauto |]. right.
    destruct (inheritedName q) eqn:Hin; [| reflexivity].
    unfold tracksArray, getQueryKeysToUpdate, lookupProperty, inheritedName in *.
    rewrite Hl in Harray. destruct (inheritedMember q); [discriminate Harray | discriminate Hin].
  - intros [[l Hl] | Hplain]; [apply (tracksArray_own q t l Hl) | apply tracksArray_plain, Hplain].
Qed.

Lemma registeredTrackArrays_true (name : string) (t : gmap string (list CacheKey)) :
  registeredTrackArrays cfg name t = true
  ↔ ∀ q, q ∈ getRegisteredQueryNames (mutationQueryResolverMap cfg) name →
         is_Some (t !! q) ∨ inheritedName q = false.
Proof.
  unfold registeredTrackArrays. rewrite List.forallb_forall. split.
  - intros Hall q Hq. apply tracksArray_true, Hall, list_elem_of_In, Hq.
  - intros Hall q Hq. apply tracksArray_true, Hall, list_elem_of_In, Hq.
Qed.

(** X28.  The tracker's object is a plain object, so a name inherited from
    [Object.prototype] (constructor, toString, ...) that is not tracked
    reads as the inherited member: the tracker returns an array for a name
    exactly when the name is tracked or not inherited, and for the other
    names [addQuery] and [removeQuery] throw a TypeError and change nothing,
    while [hasQueryToUpdate] answers whether the inherited member has a
    positive [length]. *)
Theorem tracker_on_inherited_names (d : bool) (q : string) (k : CacheKey) (st : State S) :
  (tracksArray q (queriesToUpdate st) = true
   ↔ is_Some (queriesToUpdate st !! q) ∨ inheritedName q = false)
  ∧ (tracksArray q (queriesToUpdate st) = false →
     addQuery d q k st = (Throw (TypeError "existingQueryKeys.some is not a function"), st)
     ∧ removeQuery d q k st
       = (Throw (TypeError "getQueryKeysToUpdate(...).filter is not a function"), st)
     ∧ ∃ length, inheritedMember q = Some length
                 ∧ hasQueryToUpdate q st
                   = (Ok (match length with
                          | Some n => (0 <? n)%nat
                          | None => false
                          end), st)).
Proof.
  split; [apply tracksArray_true |]. intros Harray.
  destruct (tracksArray_false q _ Harray) as [Hnone Hinherited].
  refine (conj _ (conj _ _)).
  - rewrite addQuery_run, Harray. reflexivity.
  - pose proof (removeQuery_run d q k st) as Hrem. rewrite Hnone, Hinherited in Hrem.
    exact Hrem.
  - rewrite hasQueryToUpdate_run.
    unfold getQueryKeysToUpdate, lookupProperty, inheritedName in *. rewrite Hnone.
    destruct (inheritedMember q) as [length |]; [| discriminate]. exists length. auto.
Qed.

(** X29.  [getCachedQueryKeysToUpdate] leaves the state as it is.  When
    every query name registered for the mutation is tracked or is not
    inherited from [Object.prototype], it returns the keys tracked under
    those names, name after name in the order of the registration;
    otherwise the spread of an inherited member throws a TypeError. *)
Theorem getCachedQueryKeysToUpdate_returns_tracked_keys (name : string) (st : State S) :
  let names := getRegisteredQueryNames (mutationQueryResolverMap cfg) name in
  snd (getCachedQueryKeysToUpdate cfg name st) = st
  ∧ ((∀ q, q ∈ names → is_Some (queriesToUpdate st !! q) ∨ inheritedName q = false) →
     fst (getCachedQueryKeysToUpdate cfg name st)
     = Ok (List.flat_map (λ q, trackedKeys q (queriesToUpdate st)) names))
  ∧ (∀ q, q ∈ names → queriesToUpdate st !! q = None → inheritedName q = true →
     fst (getCachedQueryKeysToUpdate cfg name st)
     = Throw (TypeError "relevantQueryCacheKeys is not iterable"))
  ∧ ∀ keys, fst (getCachedQueryKeysToUpdate cfg name st) = Ok keys →
            keys = affectedKeys cfg name (queriesToUpdate st)
            ∧ ∀ k, k ∈ keys ↔ ∃ q l, q ∈ names ∧ queriesToUpdate st !! q = Some l ∧ k ∈ l.
Proof.
  intros names. rewrite getCachedQueryKeysToUpdate_run.
  refine (conj eq_refl (conj _ (conj _ _))).
  - intros Hall. apply registeredTrackArrays_true in Hall. rewrite Hall. simpl.
    unfold affectedKeys. rewrite foldl_app_keys. reflexivity.
  - intros q Hq Hnone Hinherited.
    destruct (registeredTrackArrays cfg name (queriesToUpdate st)) eqn:Harrays; [| reflexivity].
    rewrite registeredTrackArrays_true in Harrays.
    destruct (Harrays q Hq) as [[l Hl] | Hplain]; congruence.
  - intros keys. destruct (registeredTrackArrays cfg name (queriesToUpdate st)); simpl;
      [| discriminate].
    intros [= <-]. split; [reflexivity |]. intros k. apply elem_of_affectedKeys.
Qed.

(** No link ever tracks a name inherited from [Object.prototype]. *)
Lemma addQuery_ownNamesPlain (q : string) (k : CacheKey) (st : State S) :
  ownNamesPlain (queriesToUpdate st) →
  ownNamesPlain (queriesToUpdate (snd (addQuery queryManagerDebug q k st))).
Proof.
  intros Hplain. rewrite addQuery_run.
  destruct (tracksArray q (queriesToUpdate st)) eqn:Harray; [| exact Hplain].
  destruct (existsb _ _); [exact Hplain |].
  rewrite logWhen_run. simpl. intros q' Hsome.
  destruct (decide (q' = q)) as [-> | Hne].
  - apply tracksArray_true in Harray as [Hown | Hnew]; [apply Hplain, Hown | exact Hnew].
  - rewrite lookup_insert_ne in Hsome by congruence. apply Hplain, Hsome.
Qed.

Lemma linkStep_ownNamesPlain (step : LinkStep) (st : State S) :
  ownNamesPlain (queriesToUpdate st) →
  ownNamesPlain (queriesToUpdate (linkStep cfg step st)).
Proof.
  intros Hplain. destruct step as [op | op result]; simpl.
  - unfold requestStart. rewrite bind_run. unfold liftOutcome. simpl.
    destruct (getMainDefinition (operation_query op)) as [d | e]; simpl; [| exact Hplain].
    rewrite then_ret_snd. destruct (isOptimistic _ && isWatched _ _); [| exact Hplain].
    rewrite bind_run.
    pose proof (addOptimisticRequest_run cfg (definitionNameOrEmpty d) st) as Hadd.
    destruct (registeredTrackArrays cfg (definitionNameOrEmpty d) (queriesToUpdate st));
      [| rewrite Hadd; exact Hplain].
    destruct Hadd as (st1 & Hrun & _ & Hq & _). rewrite Hrun. simpl.
    intros q Hsome. apply updateQueriesAfterMutation_domain in Hsome. rewrite Hq in Hsome.
    apply Hplain, Hsome.
  - destruct (getMainDefinition (operation_query op)) as [d | e]; [| exact Hplain].
    unfold requestResult. rewrite then_ret_snd.
    destruct (isSuccessfulQuery _ result && isQueryRelated cfg _).
    { unfold debugLog, addRelatedQuery. rewrite bind_run, logWhen_run. simpl.
      apply addQuery_ownNamesPlain. rewrite logged_queriesToUpdate. exact Hplain. }
    destruct (isSuccessfulMutation _ result && isWatched _ _).
    { destruct (isOptimistic (operation_context op)).
      - destruct (clearOptimisticRequest_run cfg (ForName (definitionNameOrEmpty d)) st)
          as (st2 & -> & _ & Hq & _). simpl. rewrite Hq. exact Hplain.
      - intros q Hsome. apply updateQueriesAfterMutation_domain in Hsome.
        apply Hplain, Hsome. }
    destruct (isFailedMutation _ result && isWatched _ _ && isOptimistic _); [| exact Hplain].
    unfold revertOptimisticRequest. rewrite bind_run, getCachedQueryKeysToUpdate_run.
    destruct (registeredTrackArrays cfg (definitionNameOrEmpty d) (queriesToUpdate st)); simpl;
      [| exact Hplain].
    destruct (forEach_revertOne_tracker cfg
                (affectedKeys cfg (definitionNameOrEmpty d) (queriesToUpdate st)) st)
      as [_ ->]. exact Hplain.
Qed.

Lemma linkSteps_ownNamesPlain (store : S) (steps : list LinkStep) :
  ownNamesPlain (queriesToUpdate (linkSteps cfg steps (constructLink cfg store))).
Proof.
  induction steps as [| step steps IH] using rev_ind.
  - simpl. unfold constructLink, debugLog. rewrite logWhen_run. simpl.
    rewrite logged_queriesToUpdate. simpl. intros q [l Hl]. rewrite lookup_empty in Hl.
    discriminate.
  - rewrite linkSteps_snoc. apply linkStep_ownNamesPlain, IH.
Qed.

(** X30.  A registry that registers, for a mutation, a query whose name is
    inherited from [Object.prototype] makes the link unable to handle that
    mutation: whatever the link has gone through, the name is not tracked,
    [getCachedQueryKeysToUpdate] throws a TypeError, and so do the update
    pass, the taking of snapshots and the revert, each leaving the state as
    it was; a request of the mutation that is not optimistic and succeeds
    throws instead of returning its result. *)
Theorem registered_inherited_name_stops_the_update (store : S) (steps : list LinkStep)
    (op : Operation) (d : DefinitionNode) (result : FetchResult) (data : value) (q : string) :
  let name := definitionNameOrEmpty d in
  let reached := linkSteps cfg steps (constructLink cfg store) in
  let error := TypeError "relevantQueryCacheKeys is not iterable" in
  q ∈ getRegisteredQueryNames (mutationQueryResolverMap cfg) name →
  inheritedName q = true →
  queriesToUpdate reached !! q = None
  ∧ getCachedQueryKeysToUpdate cfg name reached = (Throw error, reached)
  ∧ updateQueriesAfterMutation cfg op name data reached = (Throw error, reached)
  ∧ addOptimisticRequest cfg name reached = (Throw error, reached)
  ∧ revertOptimisticRequest cfg name reached = (Throw error, reached)
  ∧ (getMainDefinition (operation_query op) = Ok d →
     definitionOperation d = Some OpMutation →
     isWatched (mutationQueryResolverMap cfg) name = true →
     isOptimistic (operation_context op) = false →
     isSuccess result = true →
     request cfg op result reached = (Throw error, reached)).
Proof.
  intros name reached error Hq Hinherited.
  assert (Hnone : queriesToUpdate reached !! q = None).
  { destruct (queriesToUpdate reached !! q) as [l |] eqn:Hl; [| reflexivity].
    pose proof (linkSteps_ownNamesPlain store steps q) as Hplain. fold reached in Hplain.
    rewrite Hl in Hplain. rewrite Hplain in Hinherited by eauto. discriminate. }
  assert (Harrays : registeredTrackArrays cfg name (queriesToUpdate reached) = false).
  { destruct (registeredTrackArrays cfg name (queriesToUpdate reached)) eqn:Harrays;
      [| reflexivity].
    rewrite registeredTrackArrays_true in Harrays.
    destruct (Harrays q Hq) as [[l Hl] | Hplain]; congruence. }
  assert (Hkeys : getCachedQueryKeysToUpdate cfg name reached = (Throw error, reached))
    by (rewrite getCachedQueryKeysToUpdate_run, Harrays; reflexivity).
  assert (Hupdate : ∀ payload,
            updateQueriesAfterMutation cfg op name payload reached = (Throw error, reached))
    by (intros payload; unfold updateQueriesAfterMutation; rewrite bind_run, Hkeys;
        reflexivity).
  refine (conj Hnone (conj Hkeys (conj (Hupdate data) (conj _ (conj _ _))))).
  - unfold addOptimisticRequest. rewrite bind_run, Hkeys. reflexivity.
  - unfold revertOptimisticRequest. rewrite bind_run, Hkeys. reflexivity.
  - intros Hd Hkind Hwatched Hplain Hsuccess. unfold request. rewrite bind_run.
    rewrite (requestStart_idle cfg op reached d Hd) by (rewrite Hplain; reflexivity). simpl.
    unfold requestResult, isSuccessfulQuery, isSuccessfulMutation.
    rewrite Hkind, Hsuccess, Hplain. simpl. fold name. rewrite Hwatched. simpl.
    rewrite bind_run, (Hupdate (resultObject result)). reflexivity.
Qed.

End InheritedNames.

Lemma tracker_on_inherited_names_witness :
  tracksArray "constructor" (queriesToUpdate (afterListItems itemA)) = false
  ∧ fst (addQuery false "constructor" listItemsKey (afterListItems itemA))
    = Throw (TypeError "existingQueryKeys.some is not a function")
  ∧ hasQueryToUpdate "constructor" (afterListItems itemA) = (Ok true, afterListItems itemA)
  ∧ hasQueryToUpdate "toString" (afterListItems itemA) = (Ok false, afterListItems itemA).
Proof.
  destruct (tracker_on_inherited_names false "constructor" listItemsKey (afterListItems itemA))
    as [_ Hthrows].
  destruct (Hthrows eq_refl) as (Hadd & _ & _).
  refine (conj eq_refl (conj _ (conj eq_refl eq_refl))). rewrite Hadd. reflexivity.
Defined.

Lemma registered_inherited_name_stops_the_update_witness :
  "constructor" ∈ getRegisteredQueryNames (mutationQueryResolverMap inheritedNameConfig) "AddItem"
  ∧ inheritedName "constructor" = true
  ∧ fst (request inheritedNameConfig addItemOperation (succeededWith itemB)
           (constructLink inheritedNameConfig (seededStore itemA)))
    = Throw (TypeError "relevantQueryCacheKeys is not iterable").
Proof.
  assert (Hregistered : "constructor" ∈ getRegisteredQueryNames
                          (mutationQueryResolverMap inheritedNameConfig) "AddItem") by left.
  refine (conj Hregistered (conj eq_refl _)).
  destruct (registered_inherited_name_stops_the_update inheritedNameConfig (seededStore itemA) []
              addItemOperation (OperationDefinition OpMutation (Some "AddItem") [Field "addItem"])
              (succeededWith itemB) VNull "constructor" Hregistered eq_refl)
    as (_ & _ & _ & _ & _ & Hrequest).
  exact (f_equal fst (Hrequest eq_refl eq_refl eq_refl eq_refl eq_refl)).
Defined.

Lemma evict_quiet_never_throws_witness :
  evict false false addItemKey (initialState twoFieldStore)
  = (Ok None, initialState twoFieldStore)
  ∧ ∃ r, fst (evict false false twoFieldKey (initialState twoFieldStore)) = Ok r.
Proof.
  destruct (evict_quiet_never_throws false addItemKey (initialState twoFieldStore))
    as (_ & _ & Hdocument & _).
  destruct (evict_quiet_never_throws false twoFieldKey (initialState twoFieldStore))
    as (Hreturns & _).
  split; [| exact Hreturns].
  apply (Hdocument (InvariantError "Must contain a query definition.")). reflexivity.
Defined.

Lemma addOptimisticRequest_records_current_data_witness :
  fst (getBeforeState (ForKey listItemsKey)
         (snd (addOptimisticRequest scenarioConfig "AddItem" (afterListItems itemA))))
  = Ok (itemsOf [itemA])
  ∧ addOptimisticRequest inheritedNameConfig "AddItem"
      (constructLink inheritedNameConfig (seededStore itemA))
    = (Throw (TypeError "relevantQueryCacheKeys is not iterable"),
       constructLink inheritedNameConfig (seededStore itemA)).
Proof.
  destruct (addOptimisticRequest_records_current_data scenarioConfig "AddItem"
              (afterListItems itemA)) as (_ & _ & _ & Hrecorded & _).
  destruct (Hrecorded eq_refl) as (_ & Hsnapshot & _).
  destruct (addOptimisticRequest_records_current_data inheritedNameConfig "AddItem"
              (constructLink inheritedNameConfig (seededStore itemA)))
    as (_ & _ & _ & _ & Hthrows).
  split; [| exact (Hthrows eq_refl)].
  rewrite (Hsnapshot listItemsKey); [reflexivity | left].
Defined.

Lemma revert_twice_writes_nothing_witness :
  fst (getBeforeState (ForKey listItemsKey)
         (snd (revertOptimisticRequest scenarioConfig "AddItem"
                 (afterOptimisticAddItem itemA itemB))))
  = Ok VNull
  ∧ cache (snd (revertOptimisticRequest scenarioConfig "AddItem"
                  (snd (revertOptimisticRequest scenarioConfig "AddItem"
                          (afterOptimisticAddItem itemA itemB)))))
    = cache (snd (revertOptimisticRequest scenarioConfig "AddItem"
                    (afterOptimisticAddItem itemA itemB))).
Proof.
  destruct (revert_twice_writes_nothing scenarioConfig "AddItem"
              (afterOptimisticAddItem itemA itemB)) as (_ & Hreverted & _).
  destruct (Hreverted eq_refl) as (_ & Hnull & _ & Hcache & _).
  split; [| exact Hcache]. apply Hnull. left.
Defined.

Lemma getCachedQueryKeysToUpdate_returns_tracked_keys_witness :
  fst (getCachedQueryKeysToUpdate scenarioConfig "AddItem" (afterListItems itemA))
  = Ok [listItemsKey]
  ∧ fst (getCachedQueryKeysToUpdate inheritedNameConfig "AddItem"
           (constructLink inheritedNameConfig (seededStore itemA)))
    = Throw (TypeError "relevantQueryCacheKeys is not iterable").
Proof.
  destruct (getCachedQueryKeysToUpdate_returns_tracked_keys scenarioConfig "AddItem"
              (afterListItems itemA)) as (_ & Hreturns & _).
  destruct (getCachedQueryKeysToUpdate_returns_tracked_keys inheritedNameConfig "AddItem"
              (constructLink inheritedNameConfig (seededStore itemA)))
    as (_ & _ & Hthrows & _).
  split.
  - rewrite Hreturns; [reflexivity |]. intros q Hq.
    apply list_elem_of_singleton in Hq as ->. right. reflexivity.
  - apply (Hthrows "constructor"); [left | reflexivity | reflexivity].
Defined.

